(* ===== verification/_CoqProject ===== *)
-Q . S2P
Prelude.v
Scalars.v
Mesh.v
Weights.v
Sparse.v
Assembly.v
SymmetricSystem.v
Solver.v
Calculator.v
Point.v
PointProps.v
PointHeap.v
PointAngle.v
PointBuilds.v
PointScenario.v
Scenario.v
