(* ===== verification/Prelude.v ===== *)
(** * A verification library for [taucs_dgal/Calculator.cpp] and [Go::Point]

    The sources are two parts of the repository.

    - [src/examples/14_matrix/taucs/taucs_dgal/Calculator.cpp]: a mesh
      parameterization engine.  [Calculator::compute] indexes the vertices
      of a polyhedral mesh, pins the constrained vertices to their scalars,
      assembles a sparse linear system (one row per vertex: an identity row
      for a pinned vertex, a weighted-Laplacian row for a free one), solves
      it with one of the TAUCS strategies named by a string, and writes the
      solution back into the vertices.
    - [src/examples/04-fileIO_String/Mesh_io/include/gotools_core/Point.h]:
      the run-time sized vector class [Go::Point] (an array of [double]
      with its dimension and an ownership flag) and its vector algebra.

    ** Files, and what they model

    - [Prelude] (this file): the scalar interface [Scalar] ([double]'s
      [+ - * fabs]), [ScalarOrd] ([/ < ==]) and [ScalarSqrt] ([sqrt] and
      the literal [1.0e-12]); the state monad [St]; [last_assoc] (later
      writes win); sums [ssum] and their ring lemmas (Section [RingSums]);
      the tactic [by_decide]; hint databases [calc] and [calc_rw].
    - [Scalars]: the instances, exact rationals [Qc] (with an integer
      square root [Qc_sqrt], exact on squares) and IEEE binary64
      [PrimFloat.float].
    - [Mesh]: the mesh ([Polyhedron]: vertices and one-rings), the vertex
      handles' state ([VertexInfo]: index, scalar [s], [is_parameterized])
      as a [gmap], and [index_mesh_vertices], [setScalarForVc],
      [set_mesh_scalar_from_system] and the classification phase of
      [compute] ([classify], lines 345-357).
    - [Weights]: the constructor [Calculator(int)] (the weight option
      switch) and the weight functions, which are external classes.
    - [Sparse]: the matrix interface (class [SparseMatrix] and its laws)
      with the general ([Matrix]) and symmetric ([SymmetricMatrix])
      storage, both [gmap]s.
    - [Assembly]: [initialize_system_from_mesh_vc], both overloads of
      [setup_inner_vertex_relations] (the neighbour loop is [circulate]),
      [setupSystem] and [setupSymmetricSystem].
    - [SymmetricSystem]: the coefficients [setupSymmetricSystem] leaves in
      the symmetric matrix (the last write to each shared slot), and the
      rows they form.
    - [Solver]: the four solver routines, over an abstract TAUCS library
      ([TaucsLib]) and a context recording issued calls and live objects
      ([SolverCtx]), threaded through the [St] monad.
    - [Calculator]: [compute] (strategy dispatch included), the contract
      [harmonic] and its refinement.
    - [Point]: [Go::Point] (Module [Go]) over an explicit memory: a heap of
      [double] arrays with uninitialised cells and a store of [Point]
      objects addressed by number, so that [this] and an argument may be
      the same object; every member function (constructors, destructor,
      [swap], [operator=], [operator[]], [resize], [setValue],
      [resetValue], the norms and distances, [normalize], arithmetic
      operators, scalar and cross products, [setToCrossProd], [cosAngle],
      [operator<], [begin()], [end()]) is a computation of an error-state monad [PM];
      [DEBUG_ERROR_IF] is modelled for both builds.
    - [PointProps]: what those functions compute on the values of points.
    - [PointAngle]: [angle] and [angle_smallest] over an abstract [acos]
      (of [<math.h>]), and the range of their argument to [acos].
    - [PointBuilds]: computations whose only failure is undefined
      behaviour ([only_ub], tactic [ub_solve]), and what the debug build
      adds: the [DimensionMismatch] of [DEBUG_ERROR_IF].
    - [PointHeap]: the ownership invariant of the memory ([heap_wf]: owning
      points hold distinct live arrays of at least [n_] cells), a small
      Hoare logic over [PM] ([hoare], [preserves]) and computations that
      keep a preorder on worlds ([stays]: [eq] for readers, [same_shape]
      for in-place writes), with tactics [stays_solve] and [hoare_solve].
    - [PointScenario], [Scenario]: concrete runs evaluated by the kernel,
      and the instances of the general theorems.

    ** Theorems

    - Assembly (C2-C4, C8): every free row of the general system sums to
      zero, with [w_ii] the sum of the neighbour weights and [-w_ij] off the
      diagonal; pinned rows are identity rows with the last constraint as
      right-hand side; a vertex with fewer than two neighbours returns -1
      with its off-diagonal entries already written.
    - Symmetric system (C34-C36): every vertex, pinned or not, gets its
      weighted Laplacian row and the constraints are never read, so with a
      symmetric weight the all-ones vector is in the kernel: the matrix the
      ["Taucs::ll_symbolic"] strategy factors is singular; the system is
      [nbVertices x nbVertices] (no write outside the square).
    - Engine (C1, C5-C7, C12): over exact arithmetic and a library that
      honours its contract, a successful ["Taucs::lu_symbolic"] run leaves
      a harmonic mesh (refinement of the abstract specification); an
      unknown strategy does nothing but classify; a failure leaves the
      classification; the Cholesky strategy writes back zeros; the
      two-phase LU routine is unreachable.
    - Solver routines (C9-C11): which factor objects leak on which path;
      error codes collapse to -1.
    - Classification and write-back (C13, C14) and the weight switch (C15).
    - [Go::Point] (C16-C29): [setToCrossProd] computes the cross product
      when [this] is not an argument, and for [p.setToCrossProd(p, q)]
      each statement reads the coordinates already overwritten; [+=] and
      [operator=] are safe under aliasing; [resize] keeps the prefix when
      shrinking and loses everything when growing; the constructor from
      values and [p[i] = x] read back what they wrote (round trips);
      [operator<] is the colexicographic order and a strict total order
      over exact scalars; [operator*] is the reference dot product and
      [length2()] equals [p*p] exactly; the cross product is orthogonal to
      its arguments; [angle] and [angle_smallest] call [acos] only in its
      domain, never on a NaN; in a release build no member fails with
      [DimensionMismatch], in a debug build the mismatches throw it.
    - [Go::Point] memory (C30-C33): the readers change nothing; the
      in-place functions keep the shape of the world; every function that
      allocates, frees or changes objects keeps [heap_wf], so owning points
      never share an array and never have fewer cells than their
      dimension; in a well-formed world [p[i] = x], [0 <= i < n_], always
      succeeds, keeps [heap_wf] and reads back.
    - Concrete runs (files [Scenario], [PointScenario], not claims): the
      specification's triangle (solution 0, 1, 1/2), a degenerate vertex
      whose -1 is dropped, a row that does not sum to zero in [double], and
      [operator<] on doubles with a NaN, which is not a strict weak order.

    ** Bounds and fuel

    Every loop of the sources runs over a finite list (the vertices, a
    one-ring, the constraints, [seq 0 n]), so every definition is
    structurally recursive: no fuel is needed and every function is total.
    Sizes and indices are [nat]: the sources' [int] counts never get near
    their bound for a mesh that fits in memory, and a negative index is
    modelled where the code takes one ([operator[]], [resetValue]).

    ** Not modelled

    - [doxymain.h]: documentation only.
    - The numerics of TAUCS (ordering, factorization, solves) and the
      OpenNL [Solver]: external libraries, abstracted by [TaucsLib] with the
      contract [TaucsSound]; the geometric weight formulas (mean value,
      discrete conformal, springs): external classes, abstracted by
      [WeightFormulas].
    - Logging, timing ([taucs_ctime]), [printf] and [MESSAGE]: output only.
    - [Point::read], [Point::write] and the stream operators: declared in
      the header, defined elsewhere.  [acos] itself, which [angle] and
      [angle_smallest] call: a parameter of [PointAngle] (the kernel has no
      [acos] on [double]), so their theorems hold for every [acos].
    - Termination: every definition is structurally recursive (see above),
      so the kernel's acceptance is the termination proof and no separate
      termination theorem is stated.
    - The [Calculator] destructor: it only deletes the weight object. *)

From Stdlib Require Import ZArith Ring.
From stdpp Require Import base list gmap.

(** ** Scalars

    The C++ code computes with [double].  The whole development is generic
    over a carrier [K] with the operations the code uses; the instances
    (file [Scalars]) are the exact rationals [Qc] and the IEEE binary64
    machine floats [PrimFloat.float]. *)
Class Scalar (K : Type) := {
  szero : K;
  sone : K;
  sadd : K -> K -> K;
  ssub : K -> K -> K;
  smul : K -> K -> K;
  sopp : K -> K;
  sabs : K -> K
}.

(** Division and the comparisons [<] and [==] of [double], used by
    [Go::Point]. *)
Class ScalarOrd (K : Type) := {
  sdiv : K -> K -> K;
  sltb : K -> K -> bool;
  seqb : K -> K -> bool
}.

(** [sqrt] of [<math.h>] and the literal [1.0e-12] of
    [Point::normalize_checked]; only the machine doubles have them. *)
Class ScalarSqrt (K : Type) := {
  ssqrt : K -> K;
  s1e_12 : K
}.

(** A scalar read past the written entries of a vector is [0]. *)
#[export] Instance K_inhabited {K} `{Scalar K} : Inhabited K := populate szero.

Declare Scope scalar_scope.
Delimit Scope scalar_scope with K.
Notation "x + y" := (sadd x y) : scalar_scope.
Notation "x - y" := (ssub x y) : scalar_scope.
Notation "x * y" := (smul x y) : scalar_scope.
Notation "- x" := (sopp x) : scalar_scope.

(** Left-to-right sum of a list of scalars. *)
Definition ssum {K} `{Scalar K} (l : list K) : K := foldr sadd szero l.

(** ** A small state monad

    Used for the code that threads the external solver's context
    (allocated factor handles, issued calls) through several calls. *)
Definition St (S A : Type) : Type := S -> A * S.

#[export] Instance St_ret {S} : MRet (St S) := fun A x s => (x, s).
#[export] Instance St_bind {S} : MBind (St S) :=
  fun A B f c s => let '(a, s') := c s in f a s'.

Definition st_get {S} : St S S := fun s => (s, s).
Definition st_put {S} (s : S) : St S unit := fun _ => (tt, s).

(** The value of the last entry with key [k] of an association list: the
    outcome of a sequence of writes to a store, later writes winning. *)
Fixpoint last_assoc {A B} `{EqDecision A} (k : A) (l : list (A * B)) : option B :=
  match l with
  | [] => None
  | (k', b) :: l' =>
      match last_assoc k l' with
      | Some b' => Some b'
      | None => if decide (k' = k) then Some b else None
      end
  end.

Lemma last_assoc_None {A B} `{EqDecision A} (k : A) (l : list (A * B)) :
  (forall x, x ∈ l -> fst x <> k) -> last_assoc k l = None.
Proof.
  induction l as [|[k' b] l IH]; intros Hl; simpl; [done|].
  rewrite IH by (intros; apply Hl; set_solver).
  rewrite decide_False; [done|]. apply (Hl (k', b)). set_solver.
Qed.

Lemma last_assoc_snoc {A B} `{EqDecision A} (k : A) (l : list (A * B)) k' b :
  last_assoc k (l ++ [(k', b)]) = if decide (k' = k) then Some b else last_assoc k l.
Proof.
  induction l as [|[k0 b0] l IH]; simpl; [by case_decide|].
  rewrite IH. by repeat case_decide.
Qed.

(** Writes to pairwise different keys: each key reads back its own value. *)
Lemma last_assoc_map_inj {A B C} `{EqDecision A} (key : C -> A) (val : C -> B)
      (l : list C) (u : C) :
  NoDup (map key l) -> u ∈ l ->
  last_assoc (key u) (map (fun x => (key x, val x)) l) = Some (val u).
Proof.
  induction l as [|x l IH]; intros Hnd Hu; [set_solver|].
  simpl in Hnd. apply NoDup_cons in Hnd as [Hx Hnd].
  apply elem_of_cons in Hu as [->|Hu]; simpl.
  - rewrite last_assoc_None, decide_True; [done..|].
    intros y Hy. apply list_elem_of_fmap in Hy as (z & -> & Hz). simpl.
    intros Heq. apply Hx. rewrite <- Heq. by apply list_elem_of_fmap_2.
  - by rewrite IH.
Qed.

(** Writes in two batches: the second batch wins. *)
Lemma last_assoc_app {A B} `{EqDecision A} (k : A) (l1 l2 : list (A * B)) :
  last_assoc k (l1 ++ l2) =
    match last_assoc k l2 with Some b => Some b | None => last_assoc k l1 end.
Proof.
  induction l1 as [|[k' b] l1 IH]; simpl; [by destruct (last_assoc k l2)|].
  rewrite IH. by destruct (last_assoc k l2).
Qed.

Lemma last_assoc_elem {A B} `{EqDecision A} (k : A) (b : B) (l : list (A * B)) :
  last_assoc k l = Some b -> (k, b) ∈ l.
Proof.
  induction l as [|[k' b'] l IH]; simpl; [done|].
  destruct (last_assoc k l) as [b0|] eqn:E.
  - intros [= <-]. apply elem_of_cons. right. by apply IH.
  - case_decide as Hk; [|done]. intros [= <-]. subst. apply elem_of_cons. by left.
Qed.

Lemma last_assoc_None_inv {A B} `{EqDecision A} (k : A) (l : list (A * B)) :
  last_assoc k l = None -> forall x, x ∈ l -> fst x <> k.
Proof.
  induction l as [|[k' b'] l IH]; simpl; [set_solver|].
  destruct (last_assoc k l); [done|]. case_decide; [done|].
  intros _ x [->|Hx]%elem_of_cons; [done|]. by apply IH.
Qed.

(** A key written at least once, always with the same value, reads back
    that value, whatever the order of the writes. *)
Lemma last_assoc_all {A B} `{EqDecision A} (k : A) (b : B) (l : list (A * B)) :
  (exists x, x ∈ l /\ fst x = k) -> (forall x, x ∈ l -> fst x = k -> snd x = b) ->
  last_assoc k l = Some b.
Proof.
  intros [x [Hx Hk]] Hall. destruct (last_assoc k l) as [b0|] eqn:E.
  - apply last_assoc_elem in E. f_equal. by apply (Hall (k, b0)).
  - by destruct (last_assoc_None_inv k l E x Hx).
Qed.

Lemma NoDup_map_pair_l {A B C} (i : A) (f : C -> B) (l : list C) :
  NoDup (map f l) -> NoDup (map (fun x => (i, f x)) l).
Proof.
  induction l as [|x l IH]; simpl; intros Hnd; [constructor|].
  apply NoDup_cons in Hnd as [Hx Hnd]. constructor; [|by apply IH].
  intros Hin. apply list_elem_of_fmap in Hin as (y & Heq & Hy). injection Heq as Heq.
  apply Hx. rewrite Heq. by apply list_elem_of_fmap_2.
Qed.

(** Prove a closed decidable proposition by evaluating its decision. *)
(** [foldl] only depends on the function on the elements of the list. *)
Lemma foldl_ext_in {A B} (f g : A -> B -> A) (a : A) (l : list B) :
  (forall a x, x ∈ l -> f a x = g a x) -> foldl f a l = foldl g a l.
Proof.
  revert a. induction l as [|x l IH]; intros a Hfg; [done|]. simpl.
  rewrite Hfg by set_solver. apply IH. intros; apply Hfg; set_solver.
Qed.

Ltac by_decide := apply (bool_decide_unpack _); vm_compute; exact I.

Create HintDb calc.
Create Rewrite HintDb calc_rw.

(** ** Sums over a commutative ring *)
Section RingSums.
Context {K : Type} `{Scalar K}.
Context (Kring : ring_theory szero sone sadd smul ssub sopp (@eq K)).
Add Ring Kring : Kring.

Lemma ssum_cons x l : ssum (x :: l) = sadd x (ssum l).
Proof. reflexivity. Qed.

Lemma ssum_app l1 l2 : ssum (l1 ++ l2) = sadd (ssum l1) (ssum l2).
Proof.
  induction l1 as [|x l1 IH]; simpl.
  - ring.
  - unfold ssum in *; simpl. rewrite IH. ring.
Qed.

Lemma ssum_permutation l1 l2 : l1 ≡ₚ l2 -> ssum l1 = ssum l2.
Proof.
  induction 1; unfold ssum in *; simpl; try congruence; ring.
Qed.

Lemma ssum_map_zero {A} (f : A -> K) (l : list A) :
  (forall x, x ∈ l -> f x = szero) -> ssum (map f l) = szero.
Proof.
  induction l as [|x l IH]; intros Hz; simpl; [done|].
  unfold ssum in *; simpl.
  rewrite Hz, IH by (set_solver || intros; apply Hz; set_solver). ring.
Qed.

Lemma ssum_map_filter {A} (P : A -> Prop) `{forall x, Decision (P x)}
      (f : A -> K) (l : list A) :
  (forall x, x ∈ l -> ~ P x -> f x = szero) ->
  ssum (map f l) = ssum (map f (filter P l)).
Proof.
  induction l as [|x l IH]; intros Hz; [done|].
  rewrite filter_cons. simpl.
  rewrite IH by (intros; apply Hz; set_solver).
  case_decide; [done|].
  rewrite Hz by set_solver. unfold ssum; simpl. ring.
Qed.

(** A sum over the columns [0 .. n-1] of a function supported by a
    duplicate-free list of columns is the sum over that list. *)
Lemma ssum_seq_support (f : nat -> K) (n : nat) (L : list nat) :
  NoDup L -> (forall c, c ∈ L -> c < n) ->
  (forall c, c < n -> c ∉ L -> f c = szero) ->
  ssum (map f (seq 0 n)) = ssum (map f L).
Proof.
  intros HL Hlt Hz.
  rewrite (ssum_map_filter (fun c => c ∈ L)).
  - apply ssum_permutation, Permutation_map, NoDup_Permutation.
    + apply NoDup_filter, NoDup_seq.
    + done.
    + intros c. rewrite list_elem_of_filter, elem_of_seq.
      split; [intros [? _]; done|]. intros Hc. split; [done|]. specialize (Hlt c Hc). lia.
  - intros c Hc Hn. apply Hz; [|done]. apply elem_of_seq in Hc. lia.
Qed.

Lemma ssum_map_add {A} (f g : A -> K) (l : list A) :
  ssum (map (fun x => sadd (f x) (g x)) l) = sadd (ssum (map f l)) (ssum (map g l)).
Proof.
  induction l as [|x l IH]; unfold ssum in *; simpl; [ring|].
  rewrite IH. ring.
Qed.

Lemma ssum_map_mul_l {A} (c : K) (f : A -> K) (l : list A) :
  ssum (map (fun x => smul c (f x)) l) = smul c (ssum (map f l)).
Proof.
  induction l as [|x l IH]; unfold ssum in *; simpl; [ring|].
  rewrite IH. ring.
Qed.

(** The code's accumulation [w_ii -= -1.0 * w] is a sum of the weights. *)
Lemma foldl_sub_neg_sum {A} (f : A -> K) (w0 : K) (l : list A) :
  foldl (fun acc x => ssub acc (smul (sopp sone) (f x))) w0 l = sadd w0 (ssum (map f l)).
Proof.
  revert w0; induction l as [|x l IH]; intros w0; simpl; [unfold ssum; simpl; ring|].
  rewrite IH. unfold ssum; simpl. ring.
Qed.

Lemma ssum_map_opp {A} (f : A -> K) (l : list A) :
  ssum (map (fun x => sopp (f x)) l) = sopp (ssum (map f l)).
Proof.
  induction l as [|x l IH]; unfold ssum in *; simpl; [ring|].
  rewrite IH. ring.
Qed.

Lemma ssum_map_ext {A} (f g : A -> K) (l : list A) :
  (forall x, x ∈ l -> f x = g x) -> ssum (map f l) = ssum (map g l).
Proof. intros Hfg. f_equal. apply map_ext_in. intros x Hx. apply Hfg. by apply list_elem_of_In. Qed.
End RingSums.
