(* ===== verification/Scalars.v ===== *)
(** * Scalars: the two carriers the development instantiates

    [Qc] (canonical rationals) stands for exact real arithmetic: the
    algebraic theorems (row sums, harmonic equations) are proved over any
    commutative ring and applied here.  [PrimFloat.float] is the IEEE
    binary64 [double] of the C++ code, kernel-evaluated, used to show where
    exact arithmetic and the machine's arithmetic part ways. *)

From Stdlib Require Import QArith Qcanon Qcabs PrimFloat.
From stdpp Require Import base list.
From S2P Require Import Prelude.

(** ** Exact scalars *)
#[export] Instance Qc_Scalar : Scalar Qc := {|
  szero := 0%Qc;
  sone := 1%Qc;
  sadd := Qcplus;
  ssub := Qcminus;
  smul := Qcmult;
  sopp := Qcopp;
  sabs := Qcabs
|}.

Definition Qc_ring : ring_theory (@szero Qc _) sone sadd smul ssub sopp (@eq Qc) := Qcrt.

#[export] Instance Qc_eq_decision : EqDecision Qc := Qc_eq_dec.

#[export] Instance Qc_Ord : ScalarOrd Qc := {|
  sdiv := Qcdiv;
  sltb x y := negb (Qle_bool y x);
  seqb x y := Qeq_bool x y
|}.

Lemma Qc_sltb_spec (x y : Qc) : sltb x y = true <-> (x < y)%Qc.
Proof.
  simpl. rewrite negb_true_iff, <- not_true_iff_false, Qle_bool_iff.
  unfold Qclt, Qlt, Qle. lia.
Qed.

Lemma Qc_seqb_spec (x y : Qc) : seqb x y = true <-> x = y.
Proof.
  simpl. rewrite Qeq_bool_iff. split; [apply Qc_is_canon|intros ->; reflexivity].
Qed.

(** A rational literal as a canonical rational. *)
Definition qc (q : Q) : Qc := Q2Qc q.

(** Closed equalities of canonical rationals: compare the reduced
    numerators and denominators. *)
Ltac qc_eq := apply Qc_is_canon; vm_compute; reflexivity.

(** ** Machine doubles *)
#[export] Instance Float_Scalar : Scalar float := {|
  szero := 0%float;
  sone := 1%float;
  sadd := PrimFloat.add;
  ssub := PrimFloat.sub;
  smul := PrimFloat.mul;
  sopp := PrimFloat.opp;
  sabs := PrimFloat.abs
|}.

#[export] Instance Float_Ord : ScalarOrd float := {|
  sdiv := PrimFloat.div;
  sltb := PrimFloat.ltb;
  seqb := PrimFloat.eqb
|}.

#[export] Instance Float_Sqrt : ScalarSqrt float := {|
  ssqrt := PrimFloat.sqrt;
  s1e_12 := 1e-12%float
|}.

(** ** A square root on exact scalars

    The integer square roots of the reduced numerator and denominator:
    exact on squares of rationals ([ssqrt (9/4) = 3/2]) and below the real
    root otherwise ([ssqrt 14 = 3]).  It lets the members of [Go::Point]
    that call [sqrt] run on [Qc]; their theorems hold for any [ssqrt]. *)
Definition Qc_sqrt (q : Qc) : Qc :=
  Q2Qc (Z.sqrt (Qnum q) # Z.to_pos (Z.sqrt (Zpos (Qden q)))).

#[export] Instance Qc_Sqrt : ScalarSqrt Qc := {|
  ssqrt := Qc_sqrt;
  s1e_12 := qc (1 # 1000000000000)
|}.
