(* ===== verification/Mesh.v ===== *)
(** * Mesh: the caller's polyhedron and the per-vertex fields the engine owns

    The half-edge topology is an external collaborator (CGAL's
    [Polyhedron]); it is modelled by what the code reads of it: the vertex
    iteration order and, per vertex, the neighbours in the order the
    circulator [vh->vertex_begin()] visits them.  The per-vertex fields the
    Calculator writes ([index], [s], [is_parameterized]) form the mesh state,
    a [gmap] from vertex handles to records.  This file models the
    VertexClassifier ([index_mesh_vertices], [setScalarForVc]) and the
    write-back [set_mesh_scalar_from_system] of [Calculator.cpp]. *)

From stdpp Require Import base list gmap.
From S2P Require Import Prelude.

(** The read-only topology of the caller's mesh; a vertex handle
    ([Vertex_handle]) is a [nat]. *)
Record Polyhedron := {
  vertices : list nat;            (** [vertices_begin() .. vertices_end()] *)
  vertex_ring : nat -> list nat   (** [v_j->opposite()->vertex()] along the circulator *)
}.

(** A well-formed mesh visits each vertex once, and the neighbours of its
    vertices are vertices of the mesh. *)
Definition mesh_wf (mesh : Polyhedron) : Prop :=
  NoDup (vertices mesh) /\
  Forall (fun v => Forall (fun u => u ∈ vertices mesh) (vertex_ring mesh v)) (vertices mesh).

#[export] Instance mesh_wf_dec mesh : Decision (mesh_wf mesh).
Proof. unfold mesh_wf. apply _. Defined.

Lemma mesh_wf_ring mesh v u :
  mesh_wf mesh -> v ∈ vertices mesh -> u ∈ vertex_ring mesh v -> u ∈ vertices mesh.
Proof.
  intros [_ Hf] Hv Hu. rewrite Forall_forall in Hf. specialize (Hf v Hv).
  rewrite Forall_forall in Hf. by apply Hf.
Qed.

(** A simple one-ring: no neighbour twice, and no edge from a vertex to
    itself (a manifold triangle mesh without multi-edges). *)
Definition simple_ring (mesh : Polyhedron) (v : nat) : Prop :=
  NoDup (vertex_ring mesh v) /\ v ∉ vertex_ring mesh v.

#[export] Instance simple_ring_dec mesh v : Decision (simple_ring mesh v).
Proof. unfold simple_ring. apply _. Defined.

(** The fields of a CGAL vertex the Calculator reads and writes. *)
Record VertexInfo (K : Type) := {
  v_index : nat;     (** [index()] *)
  v_s : K;           (** [s()] *)
  v_param : bool     (** [is_parameterized()] *)
}.
Arguments v_index {K}. Arguments v_s {K}. Arguments v_param {K}.
Arguments Build_VertexInfo {K}.

Abbreviation MeshState K := (gmap nat (VertexInfo K)).

(** A constraint [ConstrianedVertex] (the source's spelling): a vertex
    handle and the scalar it is pinned to. *)
Record ConstrianedVertex (K : Type) := { m_vh : nat; m_scalar : K }.
Arguments m_vh {K}. Arguments m_scalar {K}.
Arguments Build_ConstrianedVertex {K}.

Section MeshOps.
Context {K : Type} `{Scalar K}.

#[export] Instance VertexInfo_inhabited : Inhabited (VertexInfo K) :=
  populate (Build_VertexInfo 0 szero false).

(** Reading a vertex's fields: every vertex of the mesh has them. *)
Definition vinfo (st : MeshState K) (v : nat) : VertexInfo K := st !!! v.

(** The setters [itor->index(i)], [itor->s(x)], [itor->is_parameterized(b)]. *)
Definition set_index (st : MeshState K) (v : nat) (i : nat) : MeshState K :=
  let x := vinfo st v in <[v := Build_VertexInfo i (v_s x) (v_param x)]> st.
Definition set_s (st : MeshState K) (v : nat) (s : K) : MeshState K :=
  let x := vinfo st v in <[v := Build_VertexInfo (v_index x) s (v_param x)]> st.
Definition set_param (st : MeshState K) (v : nat) (b : bool) : MeshState K :=
  let x := vinfo st v in <[v := Build_VertexInfo (v_index x) (v_s x) b]> st.

(** [Calculator::index_mesh_vertices]: the loop body resets the flag, sets
    [s] to the sentinel [-1.0] and assigns the running index. *)
Fixpoint index_mesh_vertices_from (i : nat) (vs : list nat) (st : MeshState K)
  : MeshState K * nat :=
  match vs with
  | [] => (st, i)
  | v :: vs' =>
      let st1 := set_param st v false in
      let st2 := set_s st1 v (sopp sone) in
      let st3 := set_index st2 v i in
      index_mesh_vertices_from (S i) vs' st3
  end.

Definition index_mesh_vertices (mesh : Polyhedron) (st : MeshState K) : MeshState K * nat :=
  index_mesh_vertices_from 0 (vertices mesh) st.

(** The loop of [Calculator::compute] that marks every vertex as not
    parameterized (again) after indexing. *)
Definition mark_not_parameterized (mesh : Polyhedron) (st : MeshState K) : MeshState K :=
  foldl (fun st v => set_param st v false) st (vertices mesh).

(** [Calculator::setScalarForVc]: pin every constrained vertex, in list
    order. *)
Definition setScalarForVc (vcMap : list (ConstrianedVertex K)) (st : MeshState K)
  : MeshState K :=
  foldl (fun st vc => set_s (set_param st (m_vh vc) true) (m_vh vc) (m_scalar vc)) st vcMap.

(** [Calculator::set_mesh_scalar_from_system]: copy [Xu[index]] into [s]
    and mark every vertex parameterized. *)
Definition set_mesh_scalar_from_system (mesh : Polyhedron) (Xu : list K)
           (st : MeshState K) : MeshState K :=
  foldl (fun st v =>
           let s := Xu !!! v_index (vinfo st v) in
           set_param (set_s st v s) v true) st (vertices mesh).

(** The classification phase of [Calculator::compute]: index, mark every
    vertex not parameterized, pin the constrained vertices. *)
Definition classify (mesh : Polyhedron) (vcMap : list (ConstrianedVertex K))
           (st : MeshState K) : MeshState K * nat :=
  let '(st1, nbVertices) := index_mesh_vertices mesh st in
  let st2 := mark_not_parameterized mesh st1 in
  (setScalarForVc vcMap st2, nbVertices).

(** The scalar the last constraint on [v] pins it to (specification
    helper: "last write wins"). *)
Definition last_constraint (vcMap : list (ConstrianedVertex K)) (v : nat) : option K :=
  foldl (fun acc vc => if decide (m_vh vc = v) then Some (m_scalar vc) else acc) None vcMap.
End MeshOps.

(** ** Properties of the per-vertex operations *)
Section MeshProps.
Context {K : Type} `{Scalar K}.
Implicit Types (st : MeshState K) (mesh : Polyhedron).

Lemma vinfo_set_index st v i w :
  vinfo (set_index st v i) w =
    if decide (v = w) then Build_VertexInfo i (v_s (vinfo st v)) (v_param (vinfo st v))
    else vinfo st w.
Proof. unfold vinfo, set_index. by rewrite lookup_total_insert. Qed.

Lemma vinfo_set_s st v s w :
  vinfo (set_s st v s) w =
    if decide (v = w) then Build_VertexInfo (v_index (vinfo st v)) s (v_param (vinfo st v))
    else vinfo st w.
Proof. unfold vinfo, set_s. by rewrite lookup_total_insert. Qed.

Lemma vinfo_set_param st v b w :
  vinfo (set_param st v b) w =
    if decide (v = w) then Build_VertexInfo (v_index (vinfo st v)) (v_s (vinfo st v)) b
    else vinfo st w.
Proof. unfold vinfo, set_param. by rewrite lookup_total_insert. Qed.
End MeshProps.

#[export] Hint Rewrite @vinfo_set_index @vinfo_set_s @vinfo_set_param : calc_rw.

Section MeshSpecs.
Context {K : Type} `{Scalar K}.
Implicit Types (st : MeshState K) (mesh : Polyhedron).

Lemma index_mesh_vertices_from_spec i vs st :
  NoDup vs ->
  let '(st', c) := index_mesh_vertices_from i vs st in
  c = i + length vs /\
  (forall k v, vs !! k = Some v -> vinfo st' v = Build_VertexInfo (i + k) (sopp sone) false) /\
  (forall v, v ∉ vs -> vinfo st' v = vinfo st v).
Proof.
  revert i st; induction vs as [|v vs IH]; intros i st Hnd; simpl.
  - split; [lia|]. split; [intros k w Hk; done|done].
  - apply NoDup_cons in Hnd as [Hv Hnd].
    specialize (IH (S i) (set_index (set_s (set_param st v false) v (sopp sone)) v i) Hnd).
    destruct (index_mesh_vertices_from _ _ _) as [st' c].
    destruct IH as (Hc & Hin & Hout). split; [simpl; lia|]. split.
    + intros [|k] w Hk; simpl in Hk.
      * injection Hk as <-. rewrite Hout by done.
        rewrite vinfo_set_index, decide_True by done. f_equal; [lia|..];
          rewrite vinfo_set_s, decide_True by done; [done|].
        by rewrite vinfo_set_param, decide_True.
      * rewrite (Hin k w Hk). f_equal. lia.
    + intros w Hw. rewrite Hout by set_solver.
      rewrite vinfo_set_index, decide_False by set_solver.
      rewrite vinfo_set_s, decide_False by set_solver.
      by rewrite vinfo_set_param, decide_False by set_solver.
Qed.

Lemma mark_not_parameterized_vinfo mesh st w :
  vinfo (mark_not_parameterized mesh st) w =
    if decide (w ∈ vertices mesh)
    then Build_VertexInfo (v_index (vinfo st w)) (v_s (vinfo st w)) false
    else vinfo st w.
Proof.
  unfold mark_not_parameterized. generalize (vertices mesh) as vs.
  induction vs as [|v vs IH] using rev_ind.
  - destruct (decide (w ∈ [])); [set_solver|done].
  - rewrite foldl_snoc, vinfo_set_param.
    destruct (decide (v = w)) as [->|Hne]; rewrite IH;
      repeat case_decide; simpl; first [done | exfalso; set_solver].
Qed.

Lemma last_constraint_snoc (vcMap : list (ConstrianedVertex K)) vc v :
  last_constraint (vcMap ++ [vc]) v =
    if decide (m_vh vc = v) then Some (m_scalar vc) else last_constraint vcMap v.
Proof. unfold last_constraint. by rewrite foldl_snoc. Qed.

(** [index_mesh_vertices] numbers the vertices [0 .. n-1] in the
    mesh's iteration order, resets each one to unpinned with the sentinel
    scalar [-1.0], leaves every other handle alone and returns the vertex
    count [n]. *)
Lemma index_mesh_vertices_vinfo mesh st :
  mesh_wf mesh ->
  let '(st', c) := index_mesh_vertices mesh st in
  c = length (vertices mesh) /\
  (forall k v, vertices mesh !! k = Some v ->
               vinfo st' v = Build_VertexInfo k (sopp sone) false) /\
  (forall v, v ∉ vertices mesh -> vinfo st' v = vinfo st v).
Proof.
  intros [Hnd _]. pose proof (index_mesh_vertices_from_spec 0 (vertices mesh) st Hnd) as Hs.
  unfold index_mesh_vertices. destruct (index_mesh_vertices_from _ _ _) as [st' c].
  exact Hs.
Qed.

(** [setScalarForVc] pins a vertex to the scalar of the LAST
    constraint naming it (duplicates: last write wins, no error), keeps
    its index, and leaves unconstrained vertices unchanged. *)
Lemma setScalarForVc_vinfo (vcMap : list (ConstrianedVertex K)) st v :
  vinfo (setScalarForVc vcMap st) v =
    match last_constraint vcMap v with
    | Some x => Build_VertexInfo (v_index (vinfo st v)) x true
    | None => vinfo st v
    end.
Proof.
  revert v. unfold setScalarForVc.
  induction vcMap as [|vc vcMap IH] using rev_ind; intros v; [done|].
  rewrite foldl_snoc, last_constraint_snoc; cbv beta. autorewrite with calc_rw. rewrite !IH.
  destruct (decide (m_vh vc = v)) as [<-|Hne]; repeat case_decide; try done;
    repeat case_match; simplify_eq/=; done.
Qed.

(** The write-back [set_mesh_scalar_from_system] gives every vertex
    of the mesh the solution entry at its index and marks it
    parameterized; indices and other handles are untouched. *)
Lemma set_mesh_scalar_from_system_vinfo mesh (Xu : list K) st v :
  vinfo (set_mesh_scalar_from_system mesh Xu st) v =
    if decide (v ∈ vertices mesh)
    then Build_VertexInfo (v_index (vinfo st v)) (Xu !!! v_index (vinfo st v)) true
    else vinfo st v.
Proof.
  unfold set_mesh_scalar_from_system. revert v. generalize (vertices mesh) as vs.
  induction vs as [|w vs IH] using rev_ind; intros v.
  - destruct (decide (v ∈ [])); [set_solver|done].
  - rewrite foldl_snoc; cbv beta. autorewrite with calc_rw. rewrite !IH.
    destruct (decide (w = v)) as [->|Hne];
      repeat case_decide; simpl; first [done | exfalso; set_solver].
Qed.
End MeshSpecs.

(** ** Indexed states *)

(** Every vertex carries its position in the iteration order as index. *)
Definition indexed {K} `{Scalar K} (mesh : Polyhedron) (st : MeshState K) : Prop :=
  forall k v, vertices mesh !! k = Some v -> v_index (vinfo st v) = k.

Lemma indexed_lt {K} `{Scalar K} mesh (st : MeshState K) v :
  indexed mesh st -> v ∈ vertices mesh -> v_index (vinfo st v) < length (vertices mesh).
Proof.
  intros Hix Hv. apply list_elem_of_lookup in Hv as [k Hk].
  rewrite (Hix k v Hk). by eapply lookup_lt_Some.
Qed.

Lemma indexed_inj {K} `{Scalar K} mesh (st : MeshState K) u v :
  indexed mesh st -> u ∈ vertices mesh -> v ∈ vertices mesh ->
  v_index (vinfo st u) = v_index (vinfo st v) -> u = v.
Proof.
  intros Hix Hu Hv Heq.
  apply list_elem_of_lookup in Hu as [k Hk], Hv as [k' Hk'].
  rewrite (Hix k u Hk), (Hix k' v Hk') in Heq. subst. congruence.
Qed.

Lemma indexed_NoDup {K} `{Scalar K} mesh (st : MeshState K) (l : list nat) :
  indexed mesh st -> NoDup l -> (forall u, u ∈ l -> u ∈ vertices mesh) ->
  NoDup (map (fun u => v_index (vinfo st u)) l).
Proof.
  intros Hix Hnd Hin. induction Hnd as [|u l Hu Hnd IH]; simpl; constructor.
  - intros Hm. apply list_elem_of_fmap in Hm as (u' & Heq & Hu').
    assert (u = u') as <-; [|done].
    apply (indexed_inj mesh st); [done|apply Hin; set_solver..|done].
  - apply IH. intros; apply Hin; set_solver.
Qed.

(** A state as the classification phase leaves it for the constraints
    [vcMap]: indexed, every constrained vertex is a mesh vertex marked
    parameterized, and only constrained vertices are marked. *)
Definition classified {K} `{Scalar K} (mesh : Polyhedron)
           (vcMap : list (ConstrianedVertex K)) (st : MeshState K) : Prop :=
  indexed mesh st /\
  (forall vc, vc ∈ vcMap -> m_vh vc ∈ vertices mesh /\ v_param (vinfo st (m_vh vc)) = true) /\
  (forall v, v ∈ vertices mesh -> v_param (vinfo st v) = true -> exists vc, vc ∈ vcMap /\ m_vh vc = v).

Section ClassifySpec.
Context {K : Type} `{Scalar K}.

Lemma last_constraint_Some (vcMap : list (ConstrianedVertex K)) v :
  is_Some (last_constraint vcMap v) <-> exists vc, vc ∈ vcMap /\ m_vh vc = v.
Proof.
  induction vcMap as [|vc vcMap IH] using rev_ind.
  - split; [by intros []|]. intros (vc & Hvc & _). set_solver.
  - rewrite last_constraint_snoc. case_decide as Hvc.
    + split; [|done]. intros _. exists vc. set_solver.
    + rewrite IH. setoid_rewrite elem_of_app. setoid_rewrite list_elem_of_singleton.
      naive_solver.
Qed.

(** The classification phase of [compute] (indexing, the re-marking loop,
    [setScalarForVc]) yields a classified state: indices are positions,
    a mesh vertex is parameterized exactly when a constraint names it,
    and its scalar is the last such constraint's value, or [-1.0]. *)
Lemma classify_correct mesh (vcMap : list (ConstrianedVertex K)) st :
  mesh_wf mesh -> (forall vc, vc ∈ vcMap -> m_vh vc ∈ vertices mesh) ->
  let '(st', n) := classify mesh vcMap st in
  n = length (vertices mesh) /\ classified mesh vcMap st' /\
  (forall v, v ∈ vertices mesh ->
     v_param (vinfo st' v) = bool_decide (is_Some (last_constraint vcMap v)) /\
     v_s (vinfo st' v) = default (sopp sone) (last_constraint vcMap v)).
Proof.
  intros Hwf Hvc. pose proof (index_mesh_vertices_vinfo mesh st Hwf) as Hix.
  unfold classify. destruct (index_mesh_vertices mesh st) as [st1 n].
  destruct Hix as (-> & Hpos & _).
  assert (Hv : forall v, v ∈ vertices mesh ->
    vinfo (setScalarForVc vcMap (mark_not_parameterized mesh st1)) v =
      match last_constraint vcMap v with
      | Some x => Build_VertexInfo (v_index (vinfo st1 v)) x true
      | None => Build_VertexInfo (v_index (vinfo st1 v)) (sopp sone) false
      end).
  { intros v Hin. rewrite setScalarForVc_vinfo, mark_not_parameterized_vinfo, decide_True by done.
    apply list_elem_of_lookup in Hin as [k Hk]. rewrite (Hpos k v Hk). by destruct (last_constraint _ _). }
  split; [done|]. split; [split; [|split]|].
  - intros k v Hk. assert (v ∈ vertices mesh) as Hin by (by eapply list_elem_of_lookup_2).
    rewrite (Hv v Hin), (Hpos k v Hk). by destruct (last_constraint _ _).
  - intros vc Hin. split; [by apply Hvc|].
    destruct (proj2 (last_constraint_Some vcMap (m_vh vc)) (ex_intro _ vc (conj Hin eq_refl))) as [x Hx].
    by rewrite (Hv _ (Hvc vc Hin)), Hx.
  - intros v Hin Hp. apply last_constraint_Some. rewrite (Hv v Hin) in Hp.
    destruct (last_constraint _ _); [done|discriminate].
  - intros v Hin. rewrite (Hv v Hin).
    destruct (last_constraint _ _); simpl; split; done.
Qed.
End ClassifySpec.

(** ** The classifier's contract *)
Section ClassifierClaims.
Context {K : Type} `{Scalar K}.

(** C13. The classification phase of [compute] (indexing, re-marking,
    [setScalarForVc]) returns the vertex count and a classified state in
    which a mesh vertex is parameterized exactly when a constraint names
    it, and holds the last such constraint's scalar, or [-1.0]. *)
Theorem classify_spec mesh (vcMap : list (ConstrianedVertex K)) st :
  mesh_wf mesh -> (forall vc, vc ∈ vcMap -> m_vh vc ∈ vertices mesh) ->
  let '(st', n) := classify mesh vcMap st in
  n = length (vertices mesh) /\ classified mesh vcMap st' /\
  (forall v, v ∈ vertices mesh ->
     v_param (vinfo st' v) = bool_decide (is_Some (last_constraint vcMap v)) /\
     v_s (vinfo st' v) = default (sopp sone) (last_constraint vcMap v)).
Proof. exact (classify_correct mesh vcMap st). Qed.

(** [setScalarForVc]: duplicate constraints on one vertex are not
    rejected; the last one in the list wins, the vertex keeps its index,
    and unconstrained vertices are untouched. *)
Theorem setScalarForVc_last_write_wins (vcMap : list (ConstrianedVertex K)) st v :
  vinfo (setScalarForVc vcMap st) v =
    match last_constraint vcMap v with
    | Some x => Build_VertexInfo (v_index (vinfo st v)) x true
    | None => vinfo st v
    end.
Proof. apply setScalarForVc_vinfo. Qed.

(** C14. The write-back [set_mesh_scalar_from_system] gives every mesh
    vertex the solution entry at its index and marks it parameterized;
    indices and other handles are untouched. *)
Theorem set_mesh_scalar_from_system_spec mesh (Xu : list K) st v :
  vinfo (set_mesh_scalar_from_system mesh Xu st) v =
    if decide (v ∈ vertices mesh)
    then Build_VertexInfo (v_index (vinfo st v)) (Xu !!! v_index (vinfo st v)) true
    else vinfo st v.
Proof. apply set_mesh_scalar_from_system_vinfo. Qed.

(** [index_mesh_vertices]: the k-th vertex of the mesh's iteration
    order gets index k, is reset to unpinned with the sentinel scalar
    [-1.0]; other handles are untouched and the count is returned. *)
Theorem index_mesh_vertices_spec mesh (st : MeshState K) :
  mesh_wf mesh ->
  let '(st', c) := index_mesh_vertices mesh st in
  c = length (vertices mesh) /\
  (forall k v, vertices mesh !! k = Some v ->
               vinfo st' v = Build_VertexInfo k (sopp sone) false) /\
  (forall v, v ∉ vertices mesh -> vinfo st' v = vinfo st v).
Proof. apply index_mesh_vertices_vinfo. Qed.
End ClassifierClaims.
