(* ===== verification/Weights.v ===== *)
(** * Weights: the WeightScheme selected by the Calculator's constructor

    [Calculator::Calculator(int weightOption)] picks one of five weighting
    strategies with a [switch]; each is a functor [operator()(mesh, vh,
    v_j)] returning the weight of the directed edge from [vh] to the
    neighbour [v_j].  Only the selection is code of [src/]: the four
    geometric formulas (mean value, discrete conformal, two springs) live in
    headers that are not part of the repository and are kept abstract as a
    [WeightFormulas] instance; the Tutte weight is the constant 1. *)

From Stdlib Require Import ZArith.
From stdpp Require Import base list.
From S2P Require Import Prelude Mesh.

(** The classes [MvcOption], [DcpOption], [SpringOption1], [SpringOption2],
    [TutteOption] deriving from the weight-option base class. *)
Inductive WeightOption :=
| MvcOption
| DcpOption
| SpringOption1
| SpringOption2
| TutteOption.

#[export] Instance WeightOption_eq_dec : EqDecision WeightOption.
Proof. solve_decision. Defined.

(** The Calculator object: its only member is the selected weight option. *)
Record Calculator := { m_weightOption : WeightOption }.

(** [Calculator::Calculator(int weightOption)]: the [switch] has no [case 2],
    so 2 (like any other unlisted code) selects the default [TutteOption]. *)
Definition Calculator_new (weightOption : Z) : Calculator :=
  {| m_weightOption :=
       match weightOption with
       | 0%Z => MvcOption
       | 1%Z => DcpOption
       | 3%Z => SpringOption1
       | 4%Z => SpringOption2
       | _ => TutteOption
       end |}.

(** The geometric weight formulas of the external option classes. *)
Class WeightFormulas (K : Type) := {
  mvc_weight : Polyhedron -> nat -> nat -> K;
  dcp_weight : Polyhedron -> nat -> nat -> K;
  spring1_weight : Polyhedron -> nat -> nat -> K;
  spring2_weight : Polyhedron -> nat -> nat -> K
}.

(** [m_weightOption->operator()(mesh, vh, v_j)]: virtual dispatch on the
    selected option. *)
Definition weight_of {K} `{Scalar K} `{WeightFormulas K} (o : WeightOption)
  : Polyhedron -> nat -> nat -> K :=
  match o with
  | MvcOption => mvc_weight
  | DcpOption => dcp_weight
  | SpringOption1 => spring1_weight
  | SpringOption2 => spring2_weight
  | TutteOption => fun _ _ _ => sone
  end.

(** A weight function is symmetric on a mesh when both orientations of
    every edge of the one-rings get the same weight. *)
Definition weight_symmetric {K} (w : Polyhedron -> nat -> nat -> K) (mesh : Polyhedron) : Prop :=
  forall i j, j ∈ vertex_ring mesh i -> w mesh i j = w mesh j i.

(** C15. The constructor selects [TutteOption] exactly for the codes
    outside {0, 1, 3, 4}; in particular code 2 is Tutte. *)
Theorem Calculator_new_tutte (c : Z) :
  m_weightOption (Calculator_new c) = TutteOption <->
  c <> 0%Z /\ c <> 1%Z /\ c <> 3%Z /\ c <> 4%Z.
Proof.
  unfold Calculator_new; simpl.
  destruct c as [|p|p]; [|destruct p as [p|p|]; try destruct p as [p|p|]; try destruct p|];
    simpl; split; intros; try done; try lia; naive_solver.
Qed.

(** The Tutte weight is symmetric on every mesh: the symmetric-form system
    is valid for it. *)
Lemma tutte_symmetric {K} `{Scalar K} `{WeightFormulas K} mesh :
  weight_symmetric (weight_of TutteOption) mesh.
Proof. intros i j _. reflexivity. Qed.
