(* ===== verification/Sparse.v ===== *)
(** * Sparse: the sparse-matrix and vector storage the assembler writes into

    The matrix classes ([Matrix], a general TAUCS matrix, and
    [SymmetricMatrix], which stores one coefficient per unordered pair) are
    external collaborators; the assembler only uses [set_coef].  The
    interface is the class [SparseMatrix] with its laws
    [SparseMatrixLaws]: a coefficient [(i, j)] lives in the storage slot
    [mat_slot i j], a fresh matrix is zero, and [set_coef] overwrites one
    slot.  Both implementations are [gmap]s keyed by slots and discharge
    the laws; the assembler's lemmas are proved against the interface.
    Vectors ([Vector Xu(n)]) are zero-initialised lists written by index. *)

From stdpp Require Import base list gmap.
From S2P Require Import Prelude.

Class SparseMatrix (M K : Type) := {
  mat_new : nat -> M;                      (** [Matrix A(n, n)] *)
  get_coef : M -> nat -> nat -> K;         (** [A.get_coef(i, j)] *)
  set_coef : M -> nat -> nat -> K -> M;    (** [A.set_coef(i, j, v)] *)
  mat_slot : nat -> nat -> nat * nat       (** the storage cell of [(i, j)] *)
}.

Class SparseMatrixLaws (M K : Type) `{Scalar K} `{SparseMatrix M K} := {
  get_coef_new n i j : get_coef (mat_new n) i j = szero;
  get_set_coef m i j v r c :
    get_coef (set_coef m i j v) r c =
      if decide (mat_slot r c = mat_slot i j) then v else get_coef m r c
}.

(** ** The general matrix: one slot per ordered pair. *)
Record Matrix (K : Type) := { mat_dim : nat; mat_coefs : gmap (nat * nat) K }.
Arguments mat_dim {K}. Arguments mat_coefs {K}. Arguments Build_Matrix {K}.

#[export] Instance Matrix_sparse {K} `{Scalar K} : SparseMatrix (Matrix K) K := {|
  mat_new n := Build_Matrix n ∅;
  get_coef m i j := default szero (mat_coefs m !! (i, j));
  set_coef m i j v := Build_Matrix (mat_dim m) (<[(i, j) := v]> (mat_coefs m));
  mat_slot i j := (i, j)
|}.

(** ** The symmetric matrix: [a_ij] and [a_ji] are one stored coefficient. *)
Record SymmetricMatrix (K : Type) := { smat_dim : nat; smat_coefs : gmap (nat * nat) K }.
Arguments smat_dim {K}. Arguments smat_coefs {K}. Arguments Build_SymmetricMatrix {K}.

Definition sym_slot (i j : nat) : nat * nat := (i `max` j, i `min` j).

#[export] Instance SymmetricMatrix_sparse {K} `{Scalar K} : SparseMatrix (SymmetricMatrix K) K := {|
  mat_new n := Build_SymmetricMatrix n ∅;
  get_coef m i j := default szero (smat_coefs m !! sym_slot i j);
  set_coef m i j v := Build_SymmetricMatrix (smat_dim m) (<[sym_slot i j := v]> (smat_coefs m));
  mat_slot := sym_slot
|}.

#[export] Instance Matrix_laws {K} `{Scalar K} : SparseMatrixLaws (Matrix K) K.
Proof.
  split; [done|]. intros m i j v r c; simpl.
  rewrite lookup_insert. repeat case_decide; simplify_eq/=; congruence.
Qed.

#[export] Instance SymmetricMatrix_laws {K} `{Scalar K} : SparseMatrixLaws (SymmetricMatrix K) K.
Proof.
  split; [done|]. intros m i j v r c; simpl.
  rewrite lookup_insert. repeat case_decide; simplify_eq/=; congruence.
Qed.

Lemma sym_slot_comm i j : sym_slot i j = sym_slot j i.
Proof. unfold sym_slot. f_equal; lia. Qed.

(** ** Dense vectors *)
Definition vec_new {K} `{Scalar K} (n : nat) : list K := replicate n szero.

(** Row [i] of [A] times [X], over the columns [0 .. n-1]. *)
Definition mat_row_mul {M K} `{Scalar K} `{SparseMatrix M K}
           (A : M) (n i : nat) (X : list K) : K :=
  ssum (map (fun c => smul (get_coef A i c) (X !!! c)) (seq 0 n)).

(** [X] solves [A * X = B] in dimension [n]. *)
Definition solves {M K} `{Scalar K} `{SparseMatrix M K}
           (A : M) (n : nat) (X B : list K) : Prop :=
  length X = n /\ forall i, i < n -> mat_row_mul A n i X = B !!! i.
