(* ===== verification/Assembly.v ===== *)
(** * Assembly: the SystemAssembler of [Calculator.cpp]

    [initialize_system_from_mesh_vc] writes the identity rows of the pinned
    vertices, [setup_inner_vertex_relations] writes the weight row of one
    free vertex (both C++ overloads are this one definition, generic over
    the [SparseMatrix] interface), [setupSystem] assembles the general-form
    system and [setupSymmetricSystem] the symmetric one.  The neighbour
    loop [CGAL_For_all(v_j, end)] is the structural recursion [circulate]
    over the one-ring, carrying the matrix, [w_ii] and [vertexIndex]. *)

From Stdlib Require Import ZArith.
From stdpp Require Import base list gmap.
From S2P Require Import Prelude Mesh Weights Sparse.

Section Assembly.
Context {K : Type} `{Scalar K}.
Context {M : Type} `{SparseMatrix M K}.

(** [Calculator::initialize_system_from_mesh_vc]: for each constraint,
    [A(index, index) = 1] and [Bu[index] = scalar]. *)
Definition initialize_system_from_mesh_vc (st : MeshState K)
           (vcMap : list (ConstrianedVertex K)) (A : M) (Bu : list K) : M * list K :=
  foldl (fun '(A, Bu) vc =>
           let index := v_index (vinfo st (m_vh vc)) in
           (set_coef A index index sone, <[index := m_scalar vc]> Bu))
        (A, Bu) vcMap.

(** The body of [CGAL_For_all(v_j, end)]: [w_ij = -1.0 * weight],
    [w_ii -= w_ij], [A.set_coef(i, j, w_ij)], [vertexIndex++]. *)
Fixpoint circulate (w : nat -> K) (st : MeshState K) (i : nat) (ring : list nat)
         (A : M) (w_ii : K) (vertexIndex : nat) : M * K * nat :=
  match ring with
  | [] => (A, w_ii, vertexIndex)
  | v_j :: ring' =>
      let w_ij := smul (sopp sone) (w v_j) in
      let j := v_index (vinfo st v_j) in
      circulate w st i ring' (set_coef A i j w_ij) (ssub w_ii w_ij) (S vertexIndex)
  end.

(** [Calculator::setup_inner_vertex_relations]: returns the matrix, the
    right-hand side and the status ([-1] for fewer than two neighbours,
    the row index otherwise).  On the error path the off-diagonal
    coefficients are already written and the diagonal is not. *)
Definition setup_inner_vertex_relations (weight : Polyhedron -> nat -> nat -> K)
           (mesh : Polyhedron) (st : MeshState K) (cValues : list K)
           (A : M) (Bu : list K) (vh : nat) : M * list K * Z :=
  let i := v_index (vinfo st vh) in
  let '(A1, w_ii, vertexIndex) :=
    circulate (weight mesh vh) st i (vertex_ring mesh vh) A szero 0 in
  if decide (vertexIndex < 2) then (A1, Bu, (-1)%Z)
  else
    let A2 := set_coef A1 i i w_ii in
    let Bu' := if decide (cValues = []) then Bu
               else <[i := sabs (cValues !!! i)]> Bu in
    (A2, Bu', Z.of_nat i).

(** The body of the vertex loop of [Calculator::setupSystem]: skip the
    parameterized vertices, else set up the row (the returned status is
    stored in a local and never read). *)
Definition setupSystem_step (weight : Polyhedron -> nat -> nat -> K) (mesh : Polyhedron)
           (st : MeshState K) (cValues : list K) (sys : M * list K) (v : nat) : M * list K :=
  let '(A, Bu) := sys in
  if v_param (vinfo st v) then (A, Bu)
  else let '(A', Bu', _) := setup_inner_vertex_relations weight mesh st cValues A Bu v in
       (A', Bu').

(** [Calculator::setupSystem]: identity rows for the constraints, then
    the vertex loop. *)
Definition setupSystem (weight : Polyhedron -> nat -> nat -> K) (mesh : Polyhedron)
           (st : MeshState K) (A : M) (Bu : list K)
           (vcMap : list (ConstrianedVertex K)) (cValues : list K) : M * list K :=
  foldl (setupSystem_step weight mesh st cValues)
        (initialize_system_from_mesh_vc st vcMap A Bu) (vertices mesh).

End Assembly.

(** ** The symmetric-form system *)
Section SymmetricAssembly.
Context {K : Type} `{Scalar K}.

(** The [SymmetricMatrix&] overload of
    [Calculator::setup_inner_vertex_relations]: its body is the same
    text as the [Matrix&] overload; [set_coef] is the symmetric matrix's,
    which writes the one slot shared by [(i, j)] and [(j, i)]. *)
Definition setup_inner_vertex_relations_sym (weight : Polyhedron -> nat -> nat -> K)
           (mesh : Polyhedron) (st : MeshState K) (cValues : list K)
           (A : SymmetricMatrix K) (Bu : list K) (vh : nat) : SymmetricMatrix K * list K * Z :=
  setup_inner_vertex_relations weight mesh st cValues A Bu vh.

(** The body of the vertex loop of [Calculator::setupSymmetricSystem]:
    no test of [is_parameterized]. *)
Definition setupSymmetricSystem_step (weight : Polyhedron -> nat -> nat -> K)
           (mesh : Polyhedron) (st : MeshState K) (cValues : list K)
           (sys : SymmetricMatrix K * list K) (v : nat) : SymmetricMatrix K * list K :=
  let '(A, Bu) := sys in
  let '(A', Bu', _) := setup_inner_vertex_relations_sym weight mesh st cValues A Bu v in
  (A', Bu').

(** [Calculator::setupSymmetricSystem]: one weight row for EVERY vertex,
    pinned or not, and no identity rows ([vcMap] is not read). *)
Definition setupSymmetricSystem (weight : Polyhedron -> nat -> nat -> K)
           (mesh : Polyhedron) (st : MeshState K) (A : SymmetricMatrix K) (Bu : list K)
           (vcMap : list (ConstrianedVertex K)) (cValues : list K) : SymmetricMatrix K * list K :=
  foldl (setupSymmetricSystem_step weight mesh st cValues) (A, Bu) (vertices mesh).
End SymmetricAssembly.

(** ** The row writes of one vertex, against the matrix interface *)
Section RowLemmas.
Context {K : Type} `{Scalar K}.
Context {M : Type} `{!SparseMatrix M K} `{!SparseMatrixLaws M K}.

(** The coefficient writes of the neighbour loop, in loop order. *)
Definition ring_writes (w : nat -> K) (st : MeshState K) (i : nat) (ring : list nat)
  : list ((nat * nat) * K) :=
  map (fun v => (mat_slot i (v_index (vinfo st v)), smul (sopp sone) (w v))) ring.

Lemma circulate_get w st i ring (A : M) w0 n r c :
  get_coef (circulate w st i ring A w0 n).1.1 r c =
    match last_assoc (mat_slot r c) (ring_writes w st i ring) with
    | Some b => b
    | None => get_coef A r c
    end.
Proof.
  revert A w0 n; induction ring as [|v ring IH]; intros A w0 n; [done|].
  simpl. rewrite IH, get_set_coef.
  destruct (last_assoc _ _); [done|].
  repeat case_decide; congruence.
Qed.

Lemma circulate_count w st i ring (A : M) w0 n :
  (circulate w st i ring A w0 n).2 = n + length ring.
Proof.
  revert A w0 n; induction ring as [|v ring IH]; intros A w0 n; simpl; [lia|].
  rewrite IH. lia.
Qed.

(** [w_ii] as the code computes it: a left fold of [w_ii -= -1.0 * w]. *)
Lemma circulate_wii w st i ring (A : M) w0 n :
  (circulate w st i ring A w0 n).1.2 =
    foldl (fun acc v => ssub acc (smul (sopp sone) (w v))) w0 ring.
Proof.
  revert A w0 n; induction ring as [|v ring IH]; intros A w0 n; simpl; [done|].
  apply IH.
Qed.

(** One row setup, coefficient by coefficient. *)
Lemma setup_inner_get weight mesh st cValues (A : M) Bu vh r c :
  let i := v_index (vinfo st vh) in
  let ring := vertex_ring mesh vh in
  get_coef (setup_inner_vertex_relations weight mesh st cValues A Bu vh).1.1 r c =
    if decide (2 <= length ring /\ mat_slot r c = mat_slot i i)
    then foldl (fun acc v => ssub acc (smul (sopp sone) (weight mesh vh v))) szero ring
    else match last_assoc (mat_slot r c) (ring_writes (weight mesh vh) st i ring) with
         | Some b => b
         | None => get_coef A r c
         end.
Proof.
  intros i ring. unfold setup_inner_vertex_relations.
  pose proof (circulate_get (weight mesh vh) st i ring A szero 0 r c) as Hg.
  pose proof (circulate_count (weight mesh vh) st i ring A szero 0) as Hc.
  pose proof (circulate_wii (weight mesh vh) st i ring A szero 0) as Hw.
  fold i ring. destruct (circulate _ _ _ _ _ _ _) as [[A1 w_ii] cnt]; simpl in *.
  case_decide; simpl.
  - rewrite decide_False by lia. exact Hg.
  - rewrite get_set_coef, Hg. repeat case_decide; naive_solver lia.
Qed.

Lemma setup_inner_status weight mesh st cValues (A : M) Bu vh :
  (setup_inner_vertex_relations weight mesh st cValues A Bu vh).2 =
    if decide (length (vertex_ring mesh vh) < 2) then (-1)%Z
    else Z.of_nat (v_index (vinfo st vh)).
Proof.
  unfold setup_inner_vertex_relations.
  pose proof (circulate_count (weight mesh vh) st (v_index (vinfo st vh))
                (vertex_ring mesh vh) A szero 0) as Hc.
  destruct (circulate _ _ _ _ _ _ _) as [[A1 w_ii] cnt]; simpl in *. subst cnt.
  by case_decide.
Qed.

Lemma setup_inner_Bu weight mesh st cValues (A : M) Bu vh :
  (setup_inner_vertex_relations weight mesh st cValues A Bu vh).1.2 =
    if decide (length (vertex_ring mesh vh) < 2) then Bu
    else if decide (cValues = []) then Bu
    else <[v_index (vinfo st vh) := sabs (cValues !!! v_index (vinfo st vh))]> Bu.
Proof.
  unfold setup_inner_vertex_relations.
  pose proof (circulate_count (weight mesh vh) st (v_index (vinfo st vh))
                (vertex_ring mesh vh) A szero 0) as Hc.
  destruct (circulate _ _ _ _ _ _ _) as [[A1 w_ii] cnt]; simpl in *. subst cnt.
  by case_decide.
Qed.
End RowLemmas.

(** ** The identity rows *)
Section InitLemmas.
Context {K : Type} `{Scalar K}.
Context {M : Type} `{!SparseMatrix M K} `{!SparseMatrixLaws M K}.

Lemma init_get st (vcMap : list (ConstrianedVertex K)) (A : M) Bu r c :
  get_coef (initialize_system_from_mesh_vc st vcMap A Bu).1 r c =
    if decide (Exists (fun vc =>
                 mat_slot r c = mat_slot (v_index (vinfo st (m_vh vc))) (v_index (vinfo st (m_vh vc))))
                 vcMap)
    then sone else get_coef A r c.
Proof.
  unfold initialize_system_from_mesh_vc.
  induction vcMap as [|vc vcMap IH] using rev_ind.
  - destruct (decide _) as [Hd|]; [inversion Hd|reflexivity].
  - rewrite foldl_snoc. destruct (foldl _ _ _) as [A1 Bu1]; simpl in *.
    rewrite get_set_coef, IH.
    destruct (decide (Exists _ (vcMap ++ [vc]))) as [Hd|Hd];
      rewrite Exists_app, Exists_cons, Exists_nil in Hd; repeat case_decide; naive_solver.
Qed.

Lemma init_length st (vcMap : list (ConstrianedVertex K)) (A : M) Bu :
  length (initialize_system_from_mesh_vc st vcMap A Bu).2 = length Bu.
Proof.
  unfold initialize_system_from_mesh_vc. revert A Bu.
  induction vcMap as [|vc l IH]; intros A Bu; [done|]. simpl.
  rewrite IH. apply length_insert.
Qed.

Lemma init_Bu st (vcMap : list (ConstrianedVertex K)) (A : M) Bu r :
  r < length Bu ->
  (initialize_system_from_mesh_vc st vcMap A Bu).2 !!! r =
    match last_assoc r (map (fun vc => (v_index (vinfo st (m_vh vc)), m_scalar vc)) vcMap) with
    | Some x => x
    | None => Bu !!! r
    end.
Proof.
  intros Hr. unfold initialize_system_from_mesh_vc.
  induction vcMap as [|vc vcMap IH] using rev_ind; [done|].
  rewrite foldl_snoc, map_app. simpl. rewrite last_assoc_snoc.
  destruct (foldl _ _ _) as [A1 Bu1] eqn:E; simpl in *.
  assert (length Bu1 = length Bu) as Hlen.
  { pose proof (init_length st vcMap A Bu) as Hl.
    unfold initialize_system_from_mesh_vc in Hl. by rewrite E in Hl. }
  rewrite list_lookup_total_insert.
  repeat case_decide; naive_solver lia.
Qed.
End InitLemmas.

(** ** Row locality of the general-form system

    In a [Matrix] a coefficient [(r, c)] is its own slot, so the row setup
    of a vertex touches its own row only, and the row of a free vertex in
    the assembled system is the row its own setup writes. *)
Section GeneralRows.
Context {K : Type} `{Scalar K}.
Implicit Types (A : Matrix K) (Bu : list K) (st : MeshState K).

Lemma setup_inner_other_row weight mesh st cValues A Bu vh r c :
  r <> v_index (vinfo st vh) ->
  get_coef (setup_inner_vertex_relations weight mesh st cValues A Bu vh).1.1 r c = get_coef A r c /\
  (setup_inner_vertex_relations weight mesh st cValues A Bu vh).1.2 !!! r = Bu !!! r.
Proof.
  intros Hr. rewrite setup_inner_get, setup_inner_Bu. simpl (mat_slot _ _).
  rewrite decide_False by naive_solver. rewrite last_assoc_None.
  - split; [done|]. repeat case_decide; try done. by rewrite list_lookup_total_insert_ne.
  - intros x Hx. apply list_elem_of_fmap in Hx as (u & -> & _). simpl. naive_solver.
Qed.

(** The row of [vh] after its setup depends only on the row before. *)
Lemma setup_inner_row_congr weight mesh st cValues A A' Bu Bu' vh c :
  let i := v_index (vinfo st vh) in
  (forall c', get_coef A i c' = get_coef A' i c') ->
  length Bu = length Bu' -> Bu !!! i = Bu' !!! i ->
  get_coef (setup_inner_vertex_relations weight mesh st cValues A Bu vh).1.1 i c =
    get_coef (setup_inner_vertex_relations weight mesh st cValues A' Bu' vh).1.1 i c /\
  (setup_inner_vertex_relations weight mesh st cValues A Bu vh).1.2 !!! i =
    (setup_inner_vertex_relations weight mesh st cValues A' Bu' vh).1.2 !!! i.
Proof.
  intros i HA Hl HB. rewrite !setup_inner_get, !setup_inner_Bu. split.
  - case_decide; [done|]. destruct (last_assoc _ _); [done|]. apply HA.
  - repeat case_decide; try done. rewrite !list_lookup_total_insert, Hl, HB. done.
Qed.

Lemma setup_inner_length weight mesh st cValues A Bu vh :
  length (setup_inner_vertex_relations weight mesh st cValues A Bu vh).1.2 = length Bu.
Proof. rewrite setup_inner_Bu. repeat case_decide; rewrite ?length_insert; done. Qed.

Lemma step_other_row weight mesh st cValues (sys : Matrix K * list K) v r c :
  (v_param (vinfo st v) = false -> r <> v_index (vinfo st v)) ->
  get_coef (setupSystem_step weight mesh st cValues sys v).1 r c = get_coef sys.1 r c /\
  (setupSystem_step weight mesh st cValues sys v).2 !!! r = sys.2 !!! r /\
  length (setupSystem_step weight mesh st cValues sys v).2 = length sys.2.
Proof.
  intros Hr. destruct sys as [A Bu]. unfold setupSystem_step.
  destruct (v_param _) eqn:Ep; [done|].
  pose proof (setup_inner_other_row weight mesh st cValues A Bu v r c (Hr eq_refl)).
  pose proof (setup_inner_length weight mesh st cValues A Bu v).
  destruct (setup_inner_vertex_relations _ _ _ _ _ _ _) as [[A' Bu'] s]. simpl in *. tauto.
Qed.

Lemma setupSystem_length weight mesh st A Bu vcMap cValues :
  length (setupSystem weight mesh st A Bu vcMap cValues).2 = length Bu.
Proof.
  unfold setupSystem. rewrite <- (init_length st vcMap A Bu).
  generalize (initialize_system_from_mesh_vc st vcMap A Bu) as sys.
  induction (vertices mesh) as [|v vs IH]; intros sys; [done|].
  change (foldl ?f sys (v :: vs)) with (foldl f (f sys v) vs). rewrite IH.
  destruct sys as [A1 Bu1]. unfold setupSystem_step.
  destruct (v_param _); [done|].
  pose proof (setup_inner_length weight mesh st cValues A1 Bu1 v).
  by destruct (setup_inner_vertex_relations _ _ _ _ _ _ _) as [[A' Bu'] ?].
Qed.

Lemma loop_other_row weight mesh st cValues vs (sys : Matrix K * list K) r c :
  (forall u, u ∈ vs -> v_param (vinfo st u) = false -> r <> v_index (vinfo st u)) ->
  get_coef (foldl (setupSystem_step weight mesh st cValues) sys vs).1 r c = get_coef sys.1 r c /\
  (foldl (setupSystem_step weight mesh st cValues) sys vs).2 !!! r = sys.2 !!! r /\
  length (foldl (setupSystem_step weight mesh st cValues) sys vs).2 = length sys.2.
Proof.
  revert sys. induction vs as [|u vs IH]; intros sys Hu; [done|].
  change (foldl ?f sys (u :: vs)) with (foldl f (f sys u) vs).
  destruct (IH (setupSystem_step weight mesh st cValues sys u)) as (-> & -> & ->);
    [intros; apply Hu; set_solver|].
  apply step_other_row. intros. apply Hu; set_solver.
Qed.
End GeneralRows.

Section GeneralSystem.
Context {K : Type} `{Scalar K}.
Implicit Types (A : Matrix K) (Bu : list K) (st : MeshState K).

Lemma init_other_row st (vcMap : list (ConstrianedVertex K)) A Bu r c :
  (forall vc, vc ∈ vcMap -> v_index (vinfo st (m_vh vc)) <> r) ->
  get_coef (initialize_system_from_mesh_vc st vcMap A Bu).1 r c = get_coef A r c /\
  (initialize_system_from_mesh_vc st vcMap A Bu).2 !!! r = Bu !!! r.
Proof.
  intros Hvc. split.
  - rewrite init_get. case_decide as Hd; [|done].
    apply Exists_exists in Hd as (vc & Hin & Heq). simpl in Heq.
    injection Heq as -> _. by destruct (Hvc vc).
  - unfold initialize_system_from_mesh_vc. revert A Bu.
    induction vcMap as [|vc l IH]; intros A Bu; [done|]. simpl.
    rewrite IH by (intros; apply Hvc; set_solver).
    apply list_lookup_total_insert_ne, Hvc. set_solver.
Qed.

Lemma step_free weight mesh st cValues (sys : Matrix K * list K) v :
  v_param (vinfo st v) = false ->
  setupSystem_step weight mesh st cValues sys v =
    ((setup_inner_vertex_relations weight mesh st cValues sys.1 sys.2 v).1.1,
     (setup_inner_vertex_relations weight mesh st cValues sys.1 sys.2 v).1.2).
Proof.
  intros Hf. destruct sys as [A Bu]. unfold setupSystem_step. rewrite Hf.
  by destruct (setup_inner_vertex_relations _ _ _ _ _ _ _) as [[A' Bu'] s].
Qed.

(** Two different vertices of a classified mesh have different rows. *)
Lemma classified_index_ne mesh (vcMap : list (ConstrianedVertex K)) st u v :
  classified mesh vcMap st -> u ∈ vertices mesh -> v ∈ vertices mesh -> u <> v ->
  v_index (vinfo st u) <> v_index (vinfo st v).
Proof. intros (Hix & _) Hu Hv Hne Heq. by apply Hne, (indexed_inj mesh st). Qed.

(** The row of a free vertex in the general-form system is the row its
    own [setup_inner_vertex_relations] writes into the fresh system. *)
Lemma setupSystem_free_row_local weight mesh st A0 Bu0 vcMap cValues v c :
  mesh_wf mesh -> classified mesh vcMap st -> v ∈ vertices mesh ->
  v_param (vinfo st v) = false ->
  let i := v_index (vinfo st v) in
  get_coef (setupSystem weight mesh st A0 Bu0 vcMap cValues).1 i c =
    get_coef (setup_inner_vertex_relations weight mesh st cValues A0 Bu0 v).1.1 i c /\
  (setupSystem weight mesh st A0 Bu0 vcMap cValues).2 !!! i =
    (setup_inner_vertex_relations weight mesh st cValues A0 Bu0 v).1.2 !!! i.
Proof.
  intros [Hnd _] Hcl Hv Hf.
  destruct (list_elem_of_split _ _ Hv) as (vs1 & vs2 & Hsplit).
  set (i := v_index (vinfo st v)).
  assert (Hne : forall u, u ∈ vs1 ++ vs2 -> v_param (vinfo st u) = false -> i <> v_index (vinfo st u)).
  { intros u Hu _. rewrite Hsplit in Hnd. apply NoDup_app in Hnd as (_ & Hdis & Hnd2).
    apply NoDup_cons in Hnd2 as [Hv2 _]. apply not_eq_sym, (classified_index_ne mesh vcMap);
      [done| rewrite Hsplit; set_solver| done|]. set_solver. }
  unfold setupSystem. rewrite Hsplit, foldl_app.
  change (foldl ?f ?X (v :: vs2)) with (foldl f (f X v) vs2).
  destruct (loop_other_row weight mesh st cValues vs2
              (setupSystem_step weight mesh st cValues
                 (foldl (setupSystem_step weight mesh st cValues)
                    (initialize_system_from_mesh_vc st vcMap A0 Bu0) vs1) v) i c)
    as (-> & -> & _); [intros; apply Hne; set_solver|].
  rewrite step_free by done.
  assert (Hinit : forall c',
    get_coef (initialize_system_from_mesh_vc st vcMap A0 Bu0).1 i c' = get_coef A0 i c' /\
    (initialize_system_from_mesh_vc st vcMap A0 Bu0).2 !!! i = Bu0 !!! i).
  { intros c'. apply init_other_row. intros vc Hvc Heq.
    destruct Hcl as (Hix & Hpin & _). destruct (Hpin vc Hvc) as [Hvc' Hp].
    assert (m_vh vc = v) as <- by (by apply (indexed_inj mesh st)). congruence. }
  pose proof (fun c' => loop_other_row weight mesh st cValues vs1
                (initialize_system_from_mesh_vc st vcMap A0 Bu0) i c') as Hloop.
  set (X := foldl _ _ vs1) in *.
  apply setup_inner_row_congr; fold i.
  - intros c'. destruct (Hloop c') as (-> & _ & _); [intros; apply Hne; set_solver|].
    apply Hinit.
  - destruct (Hloop c) as (_ & _ & ->); [intros; apply Hne; set_solver|].
    apply init_length.
  - destruct (Hloop c) as (_ & -> & _); [intros; apply Hne; set_solver|].
    apply (Hinit c).
Qed.
End GeneralSystem.

Section GeneralClaims.
Context {K : Type} `{Scalar K}.
Context (Kring : ring_theory szero sone sadd smul ssub sopp (@eq K)).
Add Ring Kr : Kring.
Implicit Types (st : MeshState K).

Lemma setupSystem_pinned_row_local weight mesh st (A0 : Matrix K) Bu0 vcMap cValues v c :
  mesh_wf mesh -> classified mesh vcMap st -> v ∈ vertices mesh ->
  v_param (vinfo st v) = true ->
  let i := v_index (vinfo st v) in
  get_coef (setupSystem weight mesh st A0 Bu0 vcMap cValues).1 i c =
    get_coef (initialize_system_from_mesh_vc st vcMap A0 Bu0).1 i c /\
  (setupSystem weight mesh st A0 Bu0 vcMap cValues).2 !!! i =
    (initialize_system_from_mesh_vc st vcMap A0 Bu0).2 !!! i.
Proof.
  intros _ Hcl Hv Hp i. unfold setupSystem.
  destruct (loop_other_row weight mesh st cValues (vertices mesh)
              (initialize_system_from_mesh_vc st vcMap A0 Bu0) i c) as (-> & -> & _); [|done].
  intros u Hu Hf Heq. destruct Hcl as (Hix & _).
  assert (u = v) as -> by (by apply (indexed_inj mesh st)). congruence.
Qed.

(** The entries of the row of a free vertex with a simple one-ring of at
    least two neighbours, in the assembled general-form system. *)
Lemma free_row_entries weight mesh st vcMap cValues v :
  mesh_wf mesh -> classified mesh vcMap st -> v ∈ vertices mesh ->
  v_param (vinfo st v) = false -> simple_ring mesh v ->
  2 <= length (vertex_ring mesh v) ->
  let n := length (vertices mesh) in
  let i := v_index (vinfo st v) in
  let sys := setupSystem weight mesh st (mat_new n : Matrix K) (vec_new n) vcMap cValues in
  get_coef sys.1 i i = ssum (map (weight mesh v) (vertex_ring mesh v)) /\
  (forall u, u ∈ vertex_ring mesh v ->
     get_coef sys.1 i (v_index (vinfo st u)) = sopp (weight mesh v u)) /\
  (forall c, c <> i -> (forall u, u ∈ vertex_ring mesh v -> c <> v_index (vinfo st u)) ->
     get_coef sys.1 i c = szero) /\
  sys.2 !!! i = if decide (cValues = []) then szero else sabs (cValues !!! i).
Proof.
  intros Hwf Hcl Hv Hf [Hnd Hself] H2; cbv zeta.
  pose proof (fun c => setupSystem_free_row_local weight mesh st
                (mat_new (length (vertices mesh))) (vec_new (length (vertices mesh)))
                vcMap cValues v c Hwf Hcl Hv Hf) as Hloc; cbv zeta in Hloc.
  set (i := v_index (vinfo st v)) in *.
  assert (Hring : forall u, u ∈ vertex_ring mesh v -> u ∈ vertices mesh)
    by (intros; by apply (mesh_wf_ring mesh v)).
  assert (Hidx : NoDup (map (fun u => v_index (vinfo st u)) (vertex_ring mesh v)))
    by (apply (indexed_NoDup mesh st); [apply Hcl|done|done]).
  split; [|split; [|split]].
  - rewrite (proj1 (Hloc i)), setup_inner_get, decide_True by done.
    rewrite foldl_sub_neg_sum by done. ring.
  - intros u Hu. rewrite (proj1 (Hloc _)), setup_inner_get.
    rewrite decide_False; cycle 1.
    { intros [_ Heq]. injection Heq as Heq.
      apply (classified_index_ne mesh vcMap st u v Hcl); [auto|done|set_solver|exact Heq]. }
    unfold ring_writes. simpl (mat_slot _ _).
    rewrite (last_assoc_map_inj (fun u => (i, v_index (vinfo st u)))
               (fun u => smul (sopp sone) (weight mesh v u))); [ring|..|done].
    by apply NoDup_map_pair_l.
  - intros c Hc Hnot. rewrite (proj1 (Hloc c)), setup_inner_get.
    rewrite decide_False by (intros [_ Heq]; injection Heq; lia).
    rewrite last_assoc_None; [apply get_coef_new|].
    intros x Hx. apply list_elem_of_fmap in Hx as (u & -> & Hu). simpl.
    intros Heq. injection Heq as Heq. by apply (Hnot u).
  - assert (i < length (vertices mesh)) by (apply (indexed_lt mesh); [apply Hcl|done]).
    rewrite (proj2 (Hloc 0)), setup_inner_Bu, decide_False by lia.
    unfold vec_new. case_decide.
    + by rewrite lookup_total_replicate_2.
    + rewrite list_lookup_total_insert_eq; [done|]. by rewrite length_replicate.
Qed.

(** A row with [sum of wv] on the diagonal of vertex [v], [-wv u] in the
    column of every neighbour [u] and zero elsewhere, times any vector
    [X]: the weighted sum of the differences [X_i - X_j] over the
    neighbours.  This holds for either matrix storage. *)
Lemma laplacian_row_mul {M} `{SparseMatrix M K} (A : M) mesh st v (wv : nat -> K) (X : list K) :
  mesh_wf mesh -> indexed mesh st -> v ∈ vertices mesh -> simple_ring mesh v ->
  let n := length (vertices mesh) in
  let i := v_index (vinfo st v) in
  get_coef A i i = ssum (map wv (vertex_ring mesh v)) ->
  (forall u, u ∈ vertex_ring mesh v -> get_coef A i (v_index (vinfo st u)) = sopp (wv u)) ->
  (forall c, c <> i -> (forall u, u ∈ vertex_ring mesh v -> c <> v_index (vinfo st u)) ->
     get_coef A i c = szero) ->
  mat_row_mul A n i X =
    ssum (map (fun u => smul (wv u) (ssub (X !!! i) (X !!! v_index (vinfo st u))))
              (vertex_ring mesh v)).
Proof.
  intros Hwf Hix Hv Hs n i Hdiag Hoff Hzero.
  assert (Hring : forall u, u ∈ vertex_ring mesh v -> u ∈ vertices mesh)
    by (intros; by apply (mesh_wf_ring mesh v)).
  unfold mat_row_mul.
  rewrite (ssum_seq_support Kring _ _ (i :: map (fun u => v_index (vinfo st u)) (vertex_ring mesh v))).
  - cbn [map]. rewrite ssum_cons, map_map. cbv beta. rewrite Hdiag.
    rewrite (ssum_map_ext (fun u => smul (get_coef A i (v_index (vinfo st u)))
                                         (X !!! v_index (vinfo st u)))
               (fun u => sopp (smul (wv u) (X !!! v_index (vinfo st u)))))
      by (intros u Hu; rewrite Hoff by done; ring).
    rewrite (ssum_map_ext (fun u => smul (wv u) (ssub (X !!! i) (X !!! v_index (vinfo st u))))
               (fun u => sadd (smul (X !!! i) (wv u)) (sopp (smul (wv u) (X !!! v_index (vinfo st u))))))
      by (intros; ring).
    rewrite ssum_map_add, ssum_map_mul_l, !ssum_map_opp by done. ring.
  - constructor; [|apply (indexed_NoDup mesh st); [done|apply Hs|done]].
    intros Hin. apply list_elem_of_fmap in Hin as (u & Heq & Hu).
    assert (v = u) as -> by (apply (indexed_inj mesh st); auto). by apply (proj2 Hs).
  - intros c Hc. apply elem_of_cons in Hc as [->|Hc].
    + by apply (indexed_lt mesh).
    + apply list_elem_of_fmap in Hc as (u & -> & Hu). apply (indexed_lt mesh); auto.
  - intros c _ Hc. rewrite Hzero; [ring|set_solver|].
    intros u Hu ->. apply Hc, elem_of_cons. right.
    by apply (list_elem_of_fmap_2 (fun u => v_index (vinfo st u))).
Qed.

(** Row [i] of the general-form system times any vector [X]. *)
Lemma free_row_mul weight mesh st vcMap cValues v (X : list K) :
  mesh_wf mesh -> classified mesh vcMap st -> v ∈ vertices mesh ->
  v_param (vinfo st v) = false -> simple_ring mesh v ->
  2 <= length (vertex_ring mesh v) ->
  let n := length (vertices mesh) in
  let i := v_index (vinfo st v) in
  let sys := setupSystem weight mesh st (mat_new n : Matrix K) (vec_new n) vcMap cValues in
  mat_row_mul sys.1 n i X =
    ssum (map (fun u => smul (weight mesh v u) (ssub (X !!! i) (X !!! v_index (vinfo st u))))
              (vertex_ring mesh v)).
Proof.
  intros Hwf Hcl Hv Hf Hs H2; cbv zeta.
  pose proof (free_row_entries weight mesh st vcMap cValues v Hwf Hcl Hv Hf Hs H2)
    as (Hdiag & Hoff & Hzero & _).
  apply laplacian_row_mul; try done. apply Hcl.
Qed.

(** C2. Row-sum-zero invariant: in the assembled general-form system the
    coefficients of the row of every free vertex (simple one-ring of at
    least two neighbours) sum to zero, for every weighting scheme. *)
Theorem setupSystem_row_sum_zero weight mesh st vcMap cValues v :
  mesh_wf mesh -> classified mesh vcMap st -> v ∈ vertices mesh ->
  v_param (vinfo st v) = false -> simple_ring mesh v ->
  2 <= length (vertex_ring mesh v) ->
  let n := length (vertices mesh) in
  let sys := setupSystem weight mesh st (mat_new n : Matrix K) (vec_new n) vcMap cValues in
  ssum (map (get_coef sys.1 (v_index (vinfo st v))) (seq 0 n)) = szero.
Proof.
  intros Hwf Hcl Hv Hf Hs H2 n sys.
  pose proof (free_row_mul weight mesh st vcMap cValues v (replicate n sone)
                Hwf Hcl Hv Hf Hs H2) as Hm; cbv zeta in Hm. fold n sys in Hm.
  assert (Hone : forall c, c < n -> replicate n sone !!! c = sone)
    by (intros; by apply lookup_total_replicate_2).
  transitivity (mat_row_mul sys.1 n (v_index (vinfo st v)) (replicate n sone)).
  - unfold mat_row_mul. apply (ssum_map_ext). intros c Hc.
    apply elem_of_seq in Hc. rewrite Hone by lia. ring.
  - rewrite Hm. apply (ssum_map_zero Kring). intros u Hu.
    rewrite !Hone; [ring|apply (indexed_lt mesh); [apply Hcl|by apply (mesh_wf_ring mesh v)]|].
    apply (indexed_lt mesh); [apply Hcl|done].
Qed.

(** C3. Functional behaviour of the general-form assembly on a free
    vertex [v] with a simple one-ring of at least two neighbours: its row
    has [w_ii = sum of the weights] on the diagonal, [-weight(v, u)] in
    the column of every neighbour [u], zero elsewhere, and the right-hand
    side is [0] (Laplacian) or [|cValues[i]|] (Poisson). *)
Theorem setupSystem_free_row weight mesh st vcMap cValues v :
  mesh_wf mesh -> classified mesh vcMap st -> v ∈ vertices mesh ->
  v_param (vinfo st v) = false -> simple_ring mesh v ->
  2 <= length (vertex_ring mesh v) ->
  let n := length (vertices mesh) in
  let i := v_index (vinfo st v) in
  let sys := setupSystem weight mesh st (mat_new n : Matrix K) (vec_new n) vcMap cValues in
  get_coef sys.1 i i = ssum (map (weight mesh v) (vertex_ring mesh v)) /\
  (forall u, u ∈ vertex_ring mesh v ->
     get_coef sys.1 i (v_index (vinfo st u)) = sopp (weight mesh v u)) /\
  (forall c, c <> i -> (forall u, u ∈ vertex_ring mesh v -> c <> v_index (vinfo st u)) ->
     get_coef sys.1 i c = szero) /\
  sys.2 !!! i = if decide (cValues = []) then szero else sabs (cValues !!! i).
Proof. exact (free_row_entries weight mesh st vcMap cValues v). Qed.

(** The row of a pinned vertex: the identity row, and the right-hand
    side of the last constraint naming the vertex. *)
Lemma pinned_row_entries weight mesh st vcMap cValues v c :
  mesh_wf mesh -> classified mesh vcMap st -> v ∈ vertices mesh ->
  v_param (vinfo st v) = true ->
  let n := length (vertices mesh) in
  let i := v_index (vinfo st v) in
  let sys := setupSystem weight mesh st (mat_new n : Matrix K) (vec_new n) vcMap cValues in
  get_coef sys.1 i c = (if decide (c = i) then sone else szero) /\
  Some (sys.2 !!! i) = last_constraint vcMap v.
Proof.
  intros Hwf Hcl Hv Hp n i sys.
  destruct (setupSystem_pinned_row_local weight mesh st (mat_new n) (vec_new n) vcMap
              cValues v c Hwf Hcl Hv Hp) as [HA HB]. fold i in HA, HB. fold n sys in HA, HB.
  destruct Hcl as (Hix & Hpin & Hcon).
  destruct (Hcon v Hv Hp) as (vc0 & Hvc0 & Hvh0).
  split.
  - rewrite HA, init_get. simpl (mat_slot _ _).
    case_decide as Hd; case_decide as Hc.
    + done.
    + apply Exists_exists in Hd as (vc & _ & Heq). injection Heq. lia.
    + exfalso. apply Hd, Exists_exists. exists vc0. subst. split; [done|]. by subst i.
    + apply get_coef_new.
  - rewrite HB, init_Bu; cycle 1.
    { unfold vec_new. rewrite length_replicate. by apply (indexed_lt mesh). }
    assert (Hlc : forall l : list (ConstrianedVertex K), (forall vc, vc ∈ l -> m_vh vc ∈ vertices mesh) ->
      last_assoc i (map (fun vc => (v_index (vinfo st (m_vh vc)), m_scalar vc)) l) =
      last_constraint l v).
    { induction l as [|vc l IH] using rev_ind; intros Hl; [done|].
      rewrite map_app; cbn [map]. rewrite last_assoc_snoc, last_constraint_snoc, IH by set_solver.
      simpl. repeat case_decide; try done; exfalso.
      - apply (classified_index_ne mesh vcMap st (m_vh vc) v); [by split|set_solver|done|done|done].
      - unfold i in *. congruence. }
    rewrite Hlc by (intros; by apply Hpin).
    destruct (proj2 (last_constraint_Some vcMap v) (ex_intro _ vc0 (conj Hvc0 Hvh0))) as [x ->].
    done.
Qed.

(** Row [i] of a pinned vertex times [X] is [X_i]. *)
Lemma pinned_row_mul weight mesh st vcMap cValues v (X : list K) :
  mesh_wf mesh -> classified mesh vcMap st -> v ∈ vertices mesh ->
  v_param (vinfo st v) = true ->
  let n := length (vertices mesh) in
  let sys := setupSystem weight mesh st (mat_new n : Matrix K) (vec_new n) vcMap cValues in
  mat_row_mul sys.1 n (v_index (vinfo st v)) X = X !!! v_index (vinfo st v).
Proof.
  intros Hwf Hcl Hv Hp; cbv zeta.
  pose proof (fun c => pinned_row_entries weight mesh st vcMap cValues v c Hwf Hcl Hv Hp)
    as Hrow; cbv zeta in Hrow.
  unfold mat_row_mul.
  rewrite (ssum_seq_support Kring _ _ [v_index (vinfo st v)]).
  - cbn [map]. rewrite ssum_cons, (proj1 (Hrow _)), decide_True by done.
    unfold ssum; simpl. ring.
  - by apply NoDup_singleton.
  - intros c ->%list_elem_of_singleton. apply (indexed_lt mesh); [apply Hcl|done].
  - intros c _ Hc. rewrite (proj1 (Hrow c)), decide_False; [ring|].
    intros ->. apply Hc. by apply list_elem_of_singleton.
Qed.

(** C4. Functional behaviour on a pinned vertex: in the general-form
    system its row is the identity row ([A(i,i) = 1], every other entry
    0) and [Bu[i]] is the scalar of the last constraint naming it. *)
Theorem setupSystem_pinned_row weight mesh st vcMap cValues v :
  mesh_wf mesh -> classified mesh vcMap st -> v ∈ vertices mesh ->
  v_param (vinfo st v) = true ->
  let n := length (vertices mesh) in
  let i := v_index (vinfo st v) in
  let sys := setupSystem weight mesh st (mat_new n : Matrix K) (vec_new n) vcMap cValues in
  get_coef sys.1 i i = sone /\ (forall c, c <> i -> get_coef sys.1 i c = szero) /\
  Some (sys.2 !!! i) = last_constraint vcMap v.
Proof.
  intros Hwf Hcl Hv Hp; cbv zeta.
  pose proof (fun c => pinned_row_entries weight mesh st vcMap cValues v c Hwf Hcl Hv Hp)
    as Hrow; cbv zeta in Hrow.
  split; [|split].
  - rewrite (proj1 (Hrow _)). by rewrite decide_True.
  - intros c Hc. rewrite (proj1 (Hrow c)). by rewrite decide_False.
  - exact (proj2 (Hrow 0)).
Qed.
End GeneralClaims.

Section DegenerateRow.
Context {K : Type} `{Scalar K}.

(** C8. Error path of [setup_inner_vertex_relations]: a vertex with fewer
    than two neighbours yields status [-1]; the right-hand side is left
    alone and the diagonal is not written, but the off-diagonal
    coefficients [-1.0 * weight] of the loop are already in the matrix. *)
Theorem setup_inner_degenerate weight mesh (st : MeshState K) cValues (A : Matrix K) Bu vh :
  length (vertex_ring mesh vh) < 2 ->
  (forall u, u ∈ vertex_ring mesh vh -> v_index (vinfo st u) <> v_index (vinfo st vh)) ->
  let i := v_index (vinfo st vh) in
  let r := setup_inner_vertex_relations weight mesh st cValues A Bu vh in
  r.2 = (-1)%Z /\ r.1.2 = Bu /\ get_coef r.1.1 i i = get_coef A i i /\
  (forall u, u ∈ vertex_ring mesh vh ->
     get_coef r.1.1 i (v_index (vinfo st u)) = smul (sopp sone) (weight mesh vh u)).
Proof.
  intros Hlt Hne i r. unfold r.
  rewrite setup_inner_status, setup_inner_Bu, !decide_True by done.
  split; [done|]. split; [done|]. split.
  - rewrite setup_inner_get, decide_False by lia.
    rewrite last_assoc_None; [done|].
    intros x Hx. apply list_elem_of_fmap in Hx as (u & -> & Hu). simpl.
    intros Heq. injection Heq as Heq. by apply (Hne u).
  - intros u Hu. rewrite setup_inner_get, decide_False by lia.
    destruct (vertex_ring mesh vh) as [|u0 [|u1 l]] eqn:E; simpl in *; [set_solver| |lia].
    apply list_elem_of_singleton in Hu as ->. by rewrite decide_True.
Qed.
End DegenerateRow.
