(* ===== verification/SymmetricSystem.v ===== *)
(** * SymmetricSystem: what [Calculator::setupSymmetricSystem] assembles

    [setupSymmetricSystem] (lines 324-334 of [Calculator.cpp]) runs
    [setup_inner_vertex_relations] on EVERY vertex, pinned or not, into a
    [SymmetricMatrix], whose [set_coef(i, j, .)] writes the one slot
    shared by [(i, j)] and [(j, i)], and never reads the constraints.
    This file computes the coefficients of the assembled matrix: the
    coefficient of a slot is the last value written to it in loop order
    ([sym_fold_get]); on a mesh whose one-rings are symmetric and with a
    symmetric weight, every write to a slot writes the same value, so the
    row of every vertex, pinned vertices included, is its weighted
    Laplacian row.  Consequently the all-ones vector is in the kernel: the
    system the ["Taucs::ll_symbolic"] strategy factors is singular.  Every
    slot the loop writes is indexed by mesh vertices, so the system is
    [nbVertices x nbVertices]. *)

From stdpp Require Import base list gmap.
From S2P Require Import Prelude Mesh Weights Sparse Assembly.

(** Every neighbour of a vertex has the vertex as a neighbour: the
    one-rings of a half-edge mesh. *)
Definition ring_symmetric (mesh : Polyhedron) : Prop :=
  forall u v, u ∈ vertices mesh -> v ∈ vertex_ring mesh u -> u ∈ vertex_ring mesh v.

Lemma sym_slot_eq a b c d : sym_slot a b = sym_slot c d <-> (a = c /\ b = d) \/ (a = d /\ b = c).
Proof. unfold sym_slot. split; [intros [= E1 E2]; lia|intros [[-> ->]|[-> ->]]; f_equal; lia]. Qed.

Lemma elem_of_concat_map {A B} (f : A -> list B) (l : list A) x :
  x ∈ concat (map f l) <-> exists y, y ∈ l /\ x ∈ f y.
Proof.
  induction l as [|y l IH]; simpl; [set_solver|]. rewrite elem_of_app, IH. set_solver.
Qed.

(** The symmetric system [compute] builds (lines 374-376):
    [SymmetricMatrix SA(nbVertices, nbVertices); Vector Bv(nbVertices);
    setupSymmetricSystem(mesh, SA, Bv, vcMap, cValues)]. *)
Definition symmetric_system {K} `{Scalar K} (weight : Polyhedron -> nat -> nat -> K)
           (mesh : Polyhedron) (st : MeshState K) (vcMap : list (ConstrianedVertex K))
           (cValues : list K) : SymmetricMatrix K * list K :=
  setupSymmetricSystem weight mesh st (mat_new (length (vertices mesh))) (vec_new (length (vertices mesh)))
    vcMap cValues.

(** ** The writes of the vertex loop *)
Section SymWrites.
Context {K : Type} `{Scalar K}.
Implicit Types (st : MeshState K).

(** The diagonal value [w_ii] that [setup_inner_vertex_relations] writes. *)
Definition w_ii (weight : Polyhedron -> nat -> nat -> K) (mesh : Polyhedron) (u : nat) : K :=
  foldl (fun acc v => ssub acc (smul (sopp sone) (weight mesh u v))) szero (vertex_ring mesh u).

(** The slot writes of one iteration for vertex [u], in order: the
    neighbours' coefficients, then the diagonal when [u] has at least two
    neighbours. *)
Definition sym_writes weight mesh st (u : nat) : list ((nat * nat) * K) :=
  ring_writes (M:=SymmetricMatrix K) (weight mesh u) st (v_index (vinfo st u)) (vertex_ring mesh u) ++
  (if decide (2 <= length (vertex_ring mesh u))
   then [(sym_slot (v_index (vinfo st u)) (v_index (vinfo st u)), w_ii weight mesh u)] else []).

Lemma sym_step_get weight mesh st cValues (A : SymmetricMatrix K) Bu u r c :
  get_coef (setupSymmetricSystem_step weight mesh st cValues (A, Bu) u).1 r c =
    match last_assoc (sym_slot r c) (sym_writes weight mesh st u) with
    | Some b => b | None => get_coef A r c end.
Proof.
  unfold setupSymmetricSystem_step, setup_inner_vertex_relations_sym.
  pose proof (setup_inner_get weight mesh st cValues A Bu u r c) as Hg. cbv zeta in Hg.
  destruct (setup_inner_vertex_relations _ _ _ _ _ _ _) as [[A' Bu'] s]. simpl in *. rewrite Hg.
  unfold sym_writes, w_ii. rewrite last_assoc_app.
  destruct (last_assoc _ (ring_writes _ _ _ _)); repeat case_decide; simpl in *;
    repeat case_decide; try naive_solver.
  all: exfalso; match goal with Hn : ¬ (_ /\ _) |- _ => apply Hn end; split; [done|by symmetry].
Qed.

(** The coefficient of a slot after the loop over [vs] is the last value
    written to it. *)
Lemma sym_fold_get weight mesh st cValues vs (A : SymmetricMatrix K) Bu r c :
  get_coef (foldl (setupSymmetricSystem_step weight mesh st cValues) (A, Bu) vs).1 r c =
    match last_assoc (sym_slot r c) (concat (map (sym_writes weight mesh st) vs)) with
    | Some b => b | None => get_coef A r c end.
Proof.
  revert A Bu. induction vs as [|u vs IH]; intros A Bu; [done|]. cbn [foldl concat map].
  destruct (setupSymmetricSystem_step weight mesh st cValues (A, Bu) u) as [A' Bu'] eqn:E.
  rewrite IH, last_assoc_app. destruct (last_assoc _ (concat _)); [done|].
  pose proof (sym_step_get weight mesh st cValues A Bu u r c) as Hs. rewrite E in Hs.
  cbn [fst] in Hs. rewrite Hs. by destruct (last_assoc _ _).
Qed.

Lemma sym_writes_elem weight mesh st u x :
  x ∈ sym_writes weight mesh st u ->
  (exists z, z ∈ vertex_ring mesh u /\
     x = (sym_slot (v_index (vinfo st u)) (v_index (vinfo st z)), smul (sopp sone) (weight mesh u z))) \/
  (2 <= length (vertex_ring mesh u) /\
     x = (sym_slot (v_index (vinfo st u)) (v_index (vinfo st u)), w_ii weight mesh u)).
Proof.
  unfold sym_writes, ring_writes. rewrite elem_of_app, list_elem_of_fmap.
  intros [(z & -> & Hz)|Hx]; [left; by exists z|right]. case_decide; set_solver.
Qed.
End SymWrites.

(** ** The rows of the assembled symmetric system

    The hypotheses every lemma of this section shares: a well-formed,
    indexed mesh with symmetric one-rings and a symmetric weight (the
    Tutte weight is one, [tutte_symmetric]). *)
Section SymmetricRows.
Context {K : Type} `{Scalar K}.
Context (Kring : ring_theory szero sone sadd smul ssub sopp (@eq K)).
Add Ring Kr : Kring.
Context (weight : Polyhedron -> nat -> nat -> K) (mesh : Polyhedron) (st : MeshState K).
Context (vcMap : list (ConstrianedVertex K)) (cValues : list K).
Hypothesis Hwf : mesh_wf mesh.
Hypothesis Hix : indexed mesh st.
Hypothesis Hrs : ring_symmetric mesh.
Hypothesis Hws : weight_symmetric weight mesh.

Local Abbreviation idx u := (v_index (vinfo st u)).
Local Abbreviation n := (length (vertices mesh)).
Local Abbreviation SA := (symmetric_system weight mesh st vcMap cValues).
Local Abbreviation W := (concat (map (sym_writes weight mesh st) (vertices mesh))).

Lemma SA_get r c :
  get_coef SA.1 r c = match last_assoc (sym_slot r c) W with Some b => b | None => szero end.
Proof. unfold symmetric_system, setupSymmetricSystem. rewrite sym_fold_get. by destruct (last_assoc _ _). Qed.

(** A write of the loop: by a vertex [y] of the mesh, to the slot of one
    of its neighbours [z] or to its diagonal. *)
Lemma W_elem x :
  x ∈ W -> exists y, y ∈ vertices mesh /\
    ((exists z, z ∈ vertex_ring mesh y /\ z ∈ vertices mesh /\
        x = (sym_slot (idx y) (idx z), smul (sopp sone) (weight mesh y z))) \/
     (2 <= length (vertex_ring mesh y) /\ x = (sym_slot (idx y) (idx y), w_ii weight mesh y))).
Proof.
  intros (y & Hy & Hx)%elem_of_concat_map. exists y. split; [done|].
  destruct (sym_writes_elem weight mesh st y x Hx) as [(z & Hz & ->)|Hd]; [left|by right].
  exists z. split_and!; [done| |done]. by apply (mesh_wf_ring mesh y).
Qed.

Lemma sym_step_Bu (A : SymmetricMatrix K) Bu u :
  (setupSymmetricSystem_step weight mesh st cValues (A, Bu) u).2 =
    if decide (length (vertex_ring mesh u) < 2) then Bu
    else if decide (cValues = []) then Bu else <[idx u := sabs (cValues !!! idx u)]> Bu.
Proof.
  unfold setupSymmetricSystem_step, setup_inner_vertex_relations_sym.
  pose proof (setup_inner_Bu weight mesh st cValues A Bu u) as HB.
  destruct (setup_inner_vertex_relations _ _ _ _ _ _ _) as [[A' Bu'] s]. exact HB.
Qed.

(** The right-hand side after the loop over [vs]: entry [r] is
    [|cValues[r]|] when some vertex of index [r] with two neighbours or
    more was visited and [cValues] is not empty; otherwise it is left. *)
Lemma sym_fold_Bu vs (A : SymmetricMatrix K) Bu r :
  r < length Bu ->
  (foldl (setupSymmetricSystem_step weight mesh st cValues) (A, Bu) vs).2 !!! r =
    if decide (cValues <> [] /\ Exists (fun u => idx u = r /\ 2 <= length (vertex_ring mesh u)) vs)
    then sabs (cValues !!! r) else Bu !!! r.
Proof.
  revert A Bu. induction vs as [|u vs IH]; intros A Bu Hr; cbn [foldl].
  - rewrite decide_False; [done|]. intros [_ Hex]. by apply Exists_nil in Hex.
  - destruct (setupSymmetricSystem_step weight mesh st cValues (A, Bu) u) as [A' Bu'] eqn:E.
    pose proof (sym_step_Bu A Bu u) as HB. rewrite E in HB. cbn [snd] in HB.
    assert (Hl : length Bu' = length Bu) by (subst Bu'; repeat case_decide; rewrite ?length_insert; done).
    rewrite IH by lia. subst Bu'. clear IH E. destruct (decide (idx u = r)) as [<-|Hne].
    + repeat case_decide; rewrite ?Exists_cons in *;
        rewrite ?list_lookup_total_insert_eq by done; naive_solver lia.
    + repeat case_decide; rewrite ?Exists_cons in *;
        rewrite ?list_lookup_total_insert_ne by done; naive_solver lia.
Qed.

Lemma idx_inj u v : u ∈ vertices mesh -> v ∈ vertices mesh -> idx u = idx v -> u = v.
Proof. by apply indexed_inj. Qed.

Section Row.
Context (v : nat).
Hypothesis Hv : v ∈ vertices mesh.
Hypothesis Hs : simple_ring mesh v.

Lemma ring_vertex u : u ∈ vertex_ring mesh v -> u ∈ vertices mesh.
Proof. by apply (mesh_wf_ring mesh v). Qed.

Lemma ring_ne u : u ∈ vertex_ring mesh v -> u <> v.
Proof. intros Hu ->. by apply (proj2 Hs). Qed.

(** The diagonal: written by [v] only. *)
Lemma sym_diag :
  2 <= length (vertex_ring mesh v) ->
  get_coef SA.1 (idx v) (idx v) = ssum (map (weight mesh v) (vertex_ring mesh v)).
Proof.
  intros H2. rewrite SA_get, (last_assoc_all _ (w_ii weight mesh v)).
  - unfold w_ii. rewrite foldl_sub_neg_sum by done. ring.
  - exists (sym_slot (idx v) (idx v), w_ii weight mesh v). split; [|done].
    apply elem_of_concat_map. exists v. split; [done|].
    unfold sym_writes. rewrite decide_True by done. set_solver.
  - intros x Hx Hk. destruct (W_elem x Hx) as (y & Hy & [(z & Hz & Hzv & ->)|(_ & ->)]); simpl in *.
    + exfalso. assert (y = v) as -> by (apply idx_inj; [done|done|by apply sym_slot_eq in Hk; lia]).
      assert (z = v) as -> by (apply idx_inj; [done|done|by apply sym_slot_eq in Hk; lia]).
      by apply (ring_ne v).
    + assert (y = v) as -> by (apply idx_inj; [done|done|by apply sym_slot_eq in Hk; lia]). done.
Qed.

(** The coefficient of a neighbour: written by [v] and by [u], with the
    same value since the weight is symmetric. *)
Lemma sym_off u :
  u ∈ vertex_ring mesh v -> get_coef SA.1 (idx v) (idx u) = sopp (weight mesh v u).
Proof.
  intros Hu. pose proof (ring_vertex u Hu) as Hu'. pose proof (ring_ne u Hu) as Hne.
  rewrite SA_get, (last_assoc_all _ (smul (sopp sone) (weight mesh v u))); [ring| |].
  - exists (sym_slot (idx v) (idx u), smul (sopp sone) (weight mesh v u)). split; [|done].
    apply elem_of_concat_map. exists v. split; [done|]. unfold sym_writes, ring_writes.
    apply elem_of_app. left. apply list_elem_of_fmap. by exists u.
  - intros x Hx Hk. destruct (W_elem x Hx) as (y & Hy & [(z & Hz & Hzv & ->)|(_ & ->)]); simpl in *.
    + apply sym_slot_eq in Hk as [[E1 E2]|[E1 E2]].
      * apply idx_inj in E1, E2; [|done..]. by subst.
      * apply idx_inj in E1, E2; [|done..]. subst. by rewrite (Hws v u Hu).
    + exfalso. apply Hne, idx_inj; [done|done|]. apply sym_slot_eq in Hk. lia.
Qed.

(** Any other coefficient of the row is never written. *)
Lemma sym_zero c :
  c <> idx v -> (forall u, u ∈ vertex_ring mesh v -> c <> idx u) -> get_coef SA.1 (idx v) c = szero.
Proof.
  intros Hc Hn. rewrite SA_get, last_assoc_None; [done|].
  intros x Hx Hk. destruct (W_elem x Hx) as (y & Hy & [(z & Hz & Hzv & ->)|(_ & ->)]); simpl in *.
  - apply sym_slot_eq in Hk as [[E1 E2]|[E1 E2]].
    + apply idx_inj in E1; [|done..]. subst. by apply (Hn z).
    + apply idx_inj in E2; [|done..]. subst. exact (Hn y (Hrs y v Hy Hz) eq_refl).
  - apply sym_slot_eq in Hk. lia.
Qed.
End Row.

(** The loop keeps the length of the right-hand side. *)
Lemma sym_fold_length vs (A : SymmetricMatrix K) Bu :
  length (foldl (setupSymmetricSystem_step weight mesh st cValues) (A, Bu) vs).2 = length Bu.
Proof.
  revert A Bu. induction vs as [|u vs IH]; intros A Bu; cbn [foldl]; [done|].
  destruct (setupSymmetricSystem_step weight mesh st cValues (A, Bu) u) as [A' Bu'] eqn:E.
  rewrite IH. pose proof (sym_step_Bu A Bu u) as HB. rewrite E in HB. cbn [snd] in HB.
  subst Bu'. repeat case_decide; rewrite ?length_insert; done.
Qed.

(** C36. The symmetric system is [nbVertices x nbVertices]: the
    right-hand side [Bv] has one entry per vertex and no coefficient
    outside the square is written, since every index the loop writes is
    the index of a mesh vertex.  So the system [ll_symbolic] factors has
    the dimension of the matrix [compute] allocated. *)
Theorem symmetric_system_dims :
  length (symmetric_system weight mesh st vcMap cValues).2 = n /\
  forall r c, n <= r \/ n <= c -> get_coef (symmetric_system weight mesh st vcMap cValues).1 r c = szero.
Proof.
  split.
  - unfold symmetric_system, setupSymmetricSystem. rewrite sym_fold_length.
    unfold vec_new. apply length_replicate.
  - intros r c Hrc. rewrite SA_get, last_assoc_None; [done|].
    intros x Hx Hk. destruct (W_elem x Hx) as (y & Hy & [(z & Hz & Hzv & ->)|(_ & ->)]);
      simpl in Hk; apply sym_slot_eq in Hk; pose proof (indexed_lt mesh st y Hix Hy);
      [pose proof (indexed_lt mesh st z Hix Hzv)|]; lia.
Qed.

(** C34. What [setupSymmetricSystem] assembles, on a mesh with symmetric
    one-rings and a symmetric weight: the row of EVERY vertex with a
    simple one-ring of at least two neighbours, pinned or not, is its
    weighted Laplacian row ([w_ii] the sum of the weights on the diagonal,
    [-weight(v, u)] for each neighbour, zero elsewhere), and its right-hand
    side is [0] or [|cValues[i]|]: the constraints [vcMap] are read
    nowhere, there is no identity row. *)
Theorem setupSymmetricSystem_row v :
  v ∈ vertices mesh -> simple_ring mesh v -> 2 <= length (vertex_ring mesh v) ->
  get_coef (symmetric_system weight mesh st vcMap cValues).1 (idx v) (idx v) = ssum (map (weight mesh v) (vertex_ring mesh v)) /\
  (forall u, u ∈ vertex_ring mesh v -> get_coef (symmetric_system weight mesh st vcMap cValues).1 (idx v) (idx u) = sopp (weight mesh v u)) /\
  (forall c, c <> idx v -> (forall u, u ∈ vertex_ring mesh v -> c <> idx u) ->
     get_coef (symmetric_system weight mesh st vcMap cValues).1 (idx v) c = szero) /\
  (symmetric_system weight mesh st vcMap cValues).2 !!! idx v = if decide (cValues = []) then szero else sabs (cValues !!! idx v).
Proof.
  intros Hv Hs H2. split_and!; [by apply sym_diag|by apply sym_off|by apply sym_zero|].
  assert (Hlt : idx v < n) by (by apply (indexed_lt mesh)).
  unfold symmetric_system, setupSymmetricSystem. rewrite sym_fold_Bu by (unfold vec_new; by rewrite length_replicate).
  assert (Hex : Exists (fun u => idx u = idx v /\ 2 <= length (vertex_ring mesh u)) (vertices mesh))
    by (apply Exists_exists; by exists v).
  repeat case_decide; try tauto. unfold vec_new. by apply lookup_total_replicate_2.
Qed.

(** C35. The symmetric-form system is singular: when every vertex has a
    simple one-ring of at least two neighbours, the all-ones vector is in
    the kernel of the assembled matrix, whatever the constraints.  The
    ["Taucs::ll_symbolic"] strategy factors this matrix. *)
Theorem setupSymmetricSystem_singular :
  (forall v, v ∈ vertices mesh -> simple_ring mesh v /\ 2 <= length (vertex_ring mesh v)) ->
  forall i, i < n -> mat_row_mul (symmetric_system weight mesh st vcMap cValues).1 n i (replicate n sone) = szero.
Proof.
  intros Hall i Hi. destruct (lookup_lt_is_Some_2 (vertices mesh) i Hi) as [v Hv].
  assert (Hvin : v ∈ vertices mesh) by (by eapply list_elem_of_lookup_2).
  rewrite <- (Hix i v Hv) in *. destruct (Hall v Hvin) as [Hs H2].
  rewrite (laplacian_row_mul Kring SA.1 mesh st v (weight mesh v)); try done;
    [|by apply sym_diag|by apply sym_off|by apply sym_zero].
  apply (ssum_map_zero Kring). intros u Hu.
  rewrite !lookup_total_replicate_2; [ring|..]; apply (indexed_lt mesh); try done. by apply (ring_vertex v).
Qed.
End SymmetricRows.
