(* ===== verification/Solver.v ===== *)
(** * Solver: the SolverDispatcher routines of [Calculator.cpp]

    The four routines [lu_symbolic_factor_solve] (two-phase LU),
    [lu_symbolic_factor_solve1] (one-call [taucs_linsolve]),
    [ooc_lu_factor_solve] (the [Solver::linear_solver] wrapper) and
    [ll_symbolic_factor_solve] (Cholesky) are state-passing functions over
    the context of the external TAUCS library: the calls issued, and the
    library objects allocated and not yet released.  The numerical results
    of the library come from a [TaucsLib] record (the library's functions,
    kept abstract); the contract [TaucsSound] states that a reported
    success solves the system.  Logging and timing are not modelled: they
    never influence a status. *)

From Stdlib Require Import ZArith.
From stdpp Require Import base list gmap.
From S2P Require Import Prelude Sparse.

(** TAUCS status codes ([taucs.h]). *)
Definition TAUCS_SUCCESS : Z := 0.
Definition TAUCS_ERROR : Z := -1.
Definition TAUCS_ERROR_NOMEM : Z := -2.
Definition TAUCS_ERROR_BADARGS : Z := -3.
Definition TAUCS_ERROR_INDEFINITE : Z := -4.
Definition TAUCS_ERROR_MAXDEPTH : Z := -5.

(** The library calls the routines issue. *)
Inductive Call :=
| CallCcsOrder | CallLuSymbolic | CallLuNumeric | CallMultiluSolve
| CallLinsolve | CallLinearSolver
| CallLltSymbolic | CallLltNumeric | CallSupernodalSolve.

#[export] Instance Call_eq_dec : EqDecision Call.
Proof. solve_decision. Defined.

(** The kinds of library objects: the permutations of [taucs_ccs_order],
    the LU symbolic and numeric factors, the factor kept by
    [taucs_linsolve] in [F], and the symbolic and numeric parts of the
    supernodal Cholesky factor [L]. *)
Inductive Resource :=
| RPermutation | RLuSymbolic | RLuFactor | RLinsolveFactor | RLltSymbolic | RLltNumeric.

#[export] Instance Resource_eq_dec : EqDecision Resource.
Proof. solve_decision. Defined.

Record SolverCtx := {
  calls : list Call;                 (** issued library calls, in order *)
  next_handle : nat;                 (** the next fresh object handle *)
  live : list (nat * Resource)       (** allocated, not yet released *)
}.

Definition ctx_init : SolverCtx := {| calls := []; next_handle := 0; live := [] |}.

Definition issue (c : Call) : St SolverCtx unit :=
  fun s => (tt, {| calls := calls s ++ [c]; next_handle := next_handle s; live := live s |}).

Definition alloc (r : Resource) : St SolverCtx nat :=
  fun s => (next_handle s,
            {| calls := calls s; next_handle := S (next_handle s);
               live := live s ++ [(next_handle s, r)] |}).

(** A further part attached to an existing object (the numeric values of
    a supernodal factor). *)
Definition attach (h : nat) (r : Resource) : St SolverCtx unit :=
  fun s => (tt, {| calls := calls s; next_handle := next_handle s;
                   live := live s ++ [(h, r)] |}).

Definition release (h : nat) (r : Resource) : St SolverCtx unit :=
  fun s => (tt, {| calls := calls s; next_handle := next_handle s;
                   live := filter (fun x => x <> (h, r)) (live s) |}).

(** The numerical behaviour of the external routines. *)
Record TaucsLib (K : Type) := {
  lu_numeric_ok : Matrix K -> bool;          (** [taucs_ccs_factor_lu_numeric] non-NULL *)
  multilu_solve : Matrix K -> list K -> Z * list K;
  linsolve : Matrix K -> list K -> Z * list K;
  linear_solver : Matrix K -> list K -> bool * list K * K;   (** ok, X, D *)
  llt_numeric : SymmetricMatrix K -> Z;      (** 0 on success *)
  supernodal_solve_llt : SymmetricMatrix K -> list K -> Z * list K
}.
Arguments lu_numeric_ok {K}. Arguments multilu_solve {K}. Arguments linsolve {K}.
Arguments linear_solver {K}. Arguments llt_numeric {K}. Arguments supernodal_solve_llt {K}.

Section Routines.
Context {K : Type} `{Scalar K} (lib : TaucsLib K).

(** [Calculator::lu_symbolic_factor_solve] ([USE_OPENNL] undefined).
    [LS] and [LV] are released only on the branch where the numeric
    factorization succeeded; [rowperm]/[colperm] are never released. *)
Definition lu_symbolic_factor_solve (A MA : Matrix K) (B X : list K)
  : St SolverCtx (Z * list K) :=
  _ ← issue CallCcsOrder;
  rowperm ← alloc RPermutation;
  colperm ← alloc RPermutation;
  _ ← issue CallLuSymbolic;
  LS ← alloc RLuSymbolic;
  _ ← issue CallLuNumeric;
  if lu_numeric_ok lib MA then
    LV ← alloc RLuFactor;
    _ ← issue CallMultiluSolve;
    let '(status, X') := multilu_solve lib MA B in
    _ ← release LS RLuSymbolic;
    _ ← release LV RLuFactor;
    mret (status, X')
  else mret ((-1)%Z, X).

(** [Calculator::lu_symbolic_factor_solve1]: one [taucs_linsolve] call
    factoring into [F] and solving; every failure code becomes [-1]; the
    call that would release [F] is commented out. *)
Definition lu_symbolic_factor_solve1 (A MA : Matrix K) (B X : list K)
  : St SolverCtx (Z * list K) :=
  _ ← issue CallLinsolve;
  let '(i, X') := linsolve lib A B in
  if decide (i = TAUCS_SUCCESS) then
    _ ← alloc RLinsolveFactor;
    mret (0%Z, X')
  else mret ((-1)%Z, X').

(** [Calculator::ooc_lu_factor_solve]: [Solver::linear_solver(A, B, X, D)];
    the comment says the solution is [(1/D) * X] but [X] is used as is. *)
Definition ooc_lu_factor_solve (A : Matrix K) (B X : list K) : St SolverCtx (Z * list K) :=
  _ ← issue CallLinearSolver;
  let '(ok, X', D) := linear_solver lib A B in
  mret (if ok then 0%Z else (-1)%Z, X').

(** [Calculator::ll_symbolic_factor_solve]: symbolic, numeric, solve;
    [taucs_supernodal_factor_free_numeric(L)] on both paths releases the
    numeric part of [L] only. *)
Definition ll_symbolic_factor_solve (SA SMA : SymmetricMatrix K) (B X : list K)
  : St SolverCtx (Z * list K) :=
  _ ← issue CallLltSymbolic;
  L ← alloc RLltSymbolic;
  _ ← issue CallLltNumeric;
  let i := llt_numeric lib SMA in
  '(status, X') ←
    (if decide (i <> 0%Z) then mret ((-1)%Z, X)
     else _ ← attach L RLltNumeric;
          _ ← issue CallSupernodalSolve;
          mret (supernodal_solve_llt lib SMA B));
  _ ← release L RLltNumeric;
  mret (status, X').
End Routines.

(** Every live object has a handle below the next fresh one. *)
Definition ctx_wf (s : SolverCtx) : Prop := forall x, x ∈ live s -> fst x < next_handle s.

Lemma release_fresh_app (l : list (nat * Resource)) (h : nat) r (extra : list (nat * Resource)) :
  (forall x, x ∈ l -> fst x < h) ->
  filter (fun x => x <> (h, r)) (l ++ extra) = l ++ filter (fun x => x <> (h, r)) extra.
Proof.
  intros Hl. rewrite filter_app. f_equal.
  induction l as [|y l IH]; [done|]. rewrite filter_cons. case_decide as Hy.
  - rewrite IH; [done|]. intros; apply Hl; set_solver.
  - exfalso. assert (y = (h, r)) as -> by (destruct (decide (y = (h, r))); tauto).
    assert (h < h) by (apply (Hl (h, r)); set_solver). lia.
Qed.

(** Unfold the state monad and the context primitives. *)
Ltac st_simpl :=
  cbv delta [mbind mret St_bind St_ret issue alloc attach release]; simpl.

(** Evaluate [release] on a list of concrete fresh entries. *)
Ltac filter_simpl :=
  cbn [app];
  repeat first
    [ rewrite filter_cons
    | rewrite filter_nil
    | rewrite decide_True by (cbv beta; intros ?; simplify_eq; lia)
    | rewrite decide_False by (cbv beta; intros Hn; apply Hn; reflexivity) ].

Section RoutineProps.
Context {K : Type} `{Scalar K} (lib : TaucsLib K).

(** C9. Two-phase LU, numeric failure: status [-1], [X] untouched, and
    the two permutations and the symbolic factor [LS] stay allocated
    (the frees are in the success branch only). *)
Theorem lu_symbolic_factor_solve_numeric_failure (A MA : Matrix K) (B X : list K) s :
  lu_numeric_ok lib MA = false ->
  let h := next_handle s in
  lu_symbolic_factor_solve lib A MA B X s =
    (((-1)%Z, X),
     {| calls := calls s ++ [CallCcsOrder; CallLuSymbolic; CallLuNumeric];
        next_handle := S (S (S h));
        live := live s ++ [(h, RPermutation); (S h, RPermutation); (S (S h), RLuSymbolic)] |}).
Proof.
  intros Hok h. unfold lu_symbolic_factor_solve. st_simpl. rewrite Hok. st_simpl.
  by rewrite <- !app_assoc.
Qed.

(** Two-phase LU, numeric success: the status of [taucs_multilu_solve]
    is returned, [LS] and [LV] are released, the permutations leak. *)
Lemma lu_symbolic_factor_solve_numeric_success (A MA : Matrix K) (B X : list K) s :
  ctx_wf s -> lu_numeric_ok lib MA = true ->
  let h := next_handle s in
  lu_symbolic_factor_solve lib A MA B X s =
    (multilu_solve lib MA B,
     {| calls := calls s ++ [CallCcsOrder; CallLuSymbolic; CallLuNumeric; CallMultiluSolve];
        next_handle := S (S (S (S h)));
        live := live s ++ [(h, RPermutation); (S h, RPermutation)] |}).
Proof.
  intros Hwf Hok h. unfold lu_symbolic_factor_solve. st_simpl. rewrite Hok. st_simpl.
  destruct (multilu_solve lib MA B) as [status X']. st_simpl.
  rewrite <- !app_assoc. f_equal. f_equal. simpl.
  rewrite !(release_fresh_app (live s)) by (intros x Hx; specialize (Hwf x Hx); unfold h in *; lia).
  unfold h. filter_simpl. done.
Qed.

(** C10. Cholesky path: whatever the outcome, the numeric part of [L]
    is released and the symbolic factor object stays allocated. *)
Theorem ll_symbolic_factor_solve_keeps_symbolic (SA SMA : SymmetricMatrix K) (B X : list K) s :
  ctx_wf s ->
  live (ll_symbolic_factor_solve lib SA SMA B X s).2 =
    live s ++ [(next_handle s, RLltSymbolic)].
Proof.
  intros Hwf. unfold ll_symbolic_factor_solve. st_simpl.
  case_decide; [|destruct (supernodal_solve_llt lib SMA B)]; st_simpl;
    rewrite <- ?app_assoc, (release_fresh_app (live s)) by (intros x Hx; specialize (Hwf x Hx); lia);
    filter_simpl; done.
Qed.

(** C11. [lu_symbolic_factor_solve1] reports [0] exactly when
    [taucs_linsolve] returns [TAUCS_SUCCESS], and [-1] for every failure
    code: NOMEM, BADARGS, MAXDEPTH and INDEFINITE are not distinguished. *)
Theorem lu_symbolic_factor_solve1_status (A MA : Matrix K) (B X : list K) s :
  (lu_symbolic_factor_solve1 lib A MA B X s).1.1 =
    if decide ((linsolve lib A B).1 = TAUCS_SUCCESS) then 0%Z else (-1)%Z.
Proof.
  unfold lu_symbolic_factor_solve1. st_simpl.
  destruct (linsolve lib A B) as [i X']. simpl. by case_decide.
Qed.
End RoutineProps.

(** The contract of the external library: a reported success solves the
    system it was given (in the dimension of the right-hand side). *)
Record TaucsSound {K} `{Scalar K} (lib : TaucsLib K) : Prop := {
  linsolve_sound : forall (A : Matrix K) B X,
    linsolve lib A B = (TAUCS_SUCCESS, X) -> solves A (length B) X B;
  multilu_solve_sound : forall (A : Matrix K) B X,
    multilu_solve lib A B = (TAUCS_SUCCESS, X) -> solves A (length B) X B;
  supernodal_solve_llt_sound : forall (SA : SymmetricMatrix K) B X,
    supernodal_solve_llt lib SA B = (TAUCS_SUCCESS, X) -> solves SA (length B) X B
}.

(** The library calls each routine issues. *)
Section RoutineCalls.
Context {K : Type} `{Scalar K} (lib : TaucsLib K).

Lemma lu_symbolic_factor_solve1_calls (A MA : Matrix K) B X s :
  calls (lu_symbolic_factor_solve1 lib A MA B X s).2 = calls s ++ [CallLinsolve].
Proof.
  unfold lu_symbolic_factor_solve1. st_simpl.
  destruct (linsolve lib A B). case_decide; st_simpl; done.
Qed.

Lemma ooc_lu_factor_solve_calls (A : Matrix K) B X s :
  calls (ooc_lu_factor_solve lib A B X s).2 = calls s ++ [CallLinearSolver].
Proof.
  unfold ooc_lu_factor_solve. st_simpl. by destruct (linear_solver lib A B) as [[? ?] ?].
Qed.

Lemma ll_symbolic_factor_solve_calls (SA SMA : SymmetricMatrix K) B X s :
  calls (ll_symbolic_factor_solve lib SA SMA B X s).2 =
    calls s ++ [CallLltSymbolic; CallLltNumeric] ++
    (if decide (llt_numeric lib SMA <> 0%Z) then [] else [CallSupernodalSolve]).
Proof.
  unfold ll_symbolic_factor_solve. st_simpl.
  case_decide; st_simpl; [|destruct (supernodal_solve_llt lib SMA B)]; st_simpl;
    by rewrite <- !app_assoc.
Qed.
End RoutineCalls.
