(* ===== verification/Calculator.v ===== *)
(** * Calculator: the ParameterizationEngine [Calculator::compute]

    [compute] sequences classification ([index_mesh_vertices], the
    re-marking loop, [setScalarForVc]), the assembly of BOTH systems
    ([setupSystem] into [A, Bu], [setupSymmetricSystem] into [SA, Bv]),
    the dispatch on the strategy literal, and the write-back of [Xu] when
    the status is not negative.  The result is the status and the new mesh
    state, threaded with the solver context. *)

From Stdlib Require Import ZArith String.
From stdpp Require Import base list gmap.
From S2P Require Import Prelude Mesh Weights Sparse Assembly Solver.

Section Compute.
Context {K : Type} `{Scalar K} `{WeightFormulas K}.

(** The [if / else if] chain on [std::string st(solverType)]:
    [st.compare(lit) == 0] is string equality.  Each branch returns the
    status and the solution vectors [Xu], [Xv] (only the one its routine
    fills changes). *)
Definition dispatch (lib : TaucsLib K) (solverType : string)
           (A : Matrix K) (Bu Xu : list K) (SA : SymmetricMatrix K) (Bv Xv : list K)
  : St SolverCtx (Z * list K * list K) :=
  if String.eqb solverType "Taucs::lu_symbolic" then
    '(status, Xu') ← lu_symbolic_factor_solve1 lib A A Bu Xu;
    mret (status, Xu', Xv)
  else if String.eqb solverType "Taucs::ooc_lu" || String.eqb solverType "OpenNL::BICGSTAB" then
    '(status, Xu') ← ooc_lu_factor_solve lib A Bu Xu;
    mret (status, Xu', Xv)
  else if String.eqb solverType "Taucs::ll_symbolic" then
    '(status, Xv') ← ll_symbolic_factor_solve lib SA SA Bv Xv;
    mret (status, Xu, Xv')
  else mret ((-1)%Z, Xu, Xv).

(** [Calculator::compute]. *)
Definition compute (calc : Calculator) (lib : TaucsLib K) (mesh : Polyhedron)
           (vcMap : list (ConstrianedVertex K)) (cValues : list K) (solverType : string)
           (st : MeshState K) : St SolverCtx (Z * MeshState K) :=
  let '(st3, nbVertices) := classify mesh vcMap st in
  let weight := weight_of (m_weightOption calc) in
  let '(A, Bu) := setupSystem weight mesh st3 (mat_new nbVertices : Matrix K)
                    (vec_new nbVertices) vcMap cValues in
  let Xu := vec_new nbVertices in
  let '(SA, Bv) := setupSymmetricSystem weight mesh st3
                     (mat_new nbVertices : SymmetricMatrix K) (vec_new nbVertices) vcMap cValues in
  let Xv := vec_new nbVertices in
  '(status, Xu', _) ← dispatch lib solverType A Bu Xu SA Bv Xv;
  if decide (status < 0)%Z then mret (status, st3)
  else mret (status, set_mesh_scalar_from_system mesh Xu' st3).

(** The strategy literals [compute] recognises. *)
Definition supported (solverType : string) : bool :=
  String.eqb solverType "Taucs::lu_symbolic" || String.eqb solverType "Taucs::ooc_lu" ||
  String.eqb solverType "OpenNL::BICGSTAB" || String.eqb solverType "Taucs::ll_symbolic".
End Compute.

Section ComputeProps.
Context {K : Type} `{Scalar K} `{WeightFormulas K}.
Implicit Types (st : MeshState K) (vcMap : list (ConstrianedVertex K)).

(** C6. An unrecognised strategy literal: status [-1], no library call
    issued and no object allocated (the solver context is returned
    unchanged), no write-back; the mesh is left in its classified state. *)
Theorem compute_unsupported calc lib mesh vcMap cValues solverType st s :
  supported solverType = false ->
  compute calc lib mesh vcMap cValues solverType st s =
    (((-1)%Z, (classify mesh vcMap st).1), s).
Proof.
  intros Hs. unfold supported in Hs. apply orb_false_iff in Hs as [Hs Hll].
  apply orb_false_iff in Hs as [Hs Hbicg]. apply orb_false_iff in Hs as [Hlu Hooc].
  unfold compute. destruct (classify mesh vcMap st) as [st3 n].
  destruct (setupSystem _ _ _ _ _ _ _) as [A Bu].
  destruct (setupSymmetricSystem _ _ _ _ _ _ _) as [SA Bv].
  unfold dispatch. rewrite Hlu, Hooc, Hbicg, Hll. st_simpl. done.
Qed.

(** Whatever the strategy, a negative status returns the classified
    state: the write-back did not happen, but the classification did. *)
Lemma compute_failure_state calc lib mesh vcMap cValues solverType st s :
  ((compute calc lib mesh vcMap cValues solverType st s).1.1 < 0)%Z ->
  (compute calc lib mesh vcMap cValues solverType st s).1.2 = (classify mesh vcMap st).1.
Proof.
  unfold compute. destruct (classify mesh vcMap st) as [st3 n].
  destruct (setupSystem _ _ _ _ _ _ _) as [A Bu].
  destruct (setupSymmetricSystem _ _ _ _ _ _ _) as [SA Bv].
  st_simpl. destruct (dispatch _ _ _ _ _ _ _ _ s) as [[[status Xu'] Xv'] s'].
  simpl. case_decide; simpl; [done|lia].
Qed.

(** The ["Taucs::lu_symbolic"] run: the status is [0] exactly when
    [taucs_linsolve] succeeds, and then its [X] is written back. *)
Lemma compute_lu_symbolic calc lib mesh vcMap cValues st s :
  let st3 := (classify mesh vcMap st).1 in
  let n := (classify mesh vcMap st).2 in
  let sys := setupSystem (weight_of (m_weightOption calc)) mesh st3
               (mat_new n : Matrix K) (vec_new n) vcMap cValues in
  (compute calc lib mesh vcMap cValues "Taucs::lu_symbolic" st s).1 =
    if decide ((linsolve lib sys.1 sys.2).1 = TAUCS_SUCCESS)
    then (0%Z, set_mesh_scalar_from_system mesh (linsolve lib sys.1 sys.2).2 st3)
    else ((-1)%Z, st3).
Proof.
  cbv zeta. unfold compute. destruct (classify mesh vcMap st) as [st3 n]. simpl.
  destruct (setupSystem _ _ _ _ _ _ _) as [A Bu]. simpl.
  destruct (setupSymmetricSystem _ _ _ _ _ _ _) as [SA Bv].
  unfold dispatch. simpl String.eqb. cbv iota.
  unfold lu_symbolic_factor_solve1. st_simpl.
  destruct (linsolve lib A Bu) as [code X]. simpl.
  case_decide; st_simpl; done.
Qed.
End ComputeProps.

(** ** The abstract contract of the engine

    After a successful run every vertex is parameterized, a constrained
    vertex holds its (last) constraint's value, and every free vertex's
    value is the weighted combination of its neighbours' values: the sum
    of [weight(v, u) * (s_v - s_u)] over the one-ring is [0] (Laplacian)
    or [|cValues[index v]|] (Poisson). *)
Definition harmonic {K} `{Scalar K} (weight : Polyhedron -> nat -> nat -> K) (mesh : Polyhedron)
           (vcMap : list (ConstrianedVertex K)) (cValues : list K) (st : MeshState K) : Prop :=
  forall v, v ∈ vertices mesh ->
    v_param (vinfo st v) = true /\
    match last_constraint vcMap v with
    | Some x => v_s (vinfo st v) = x
    | None =>
        ssum (map (fun u => smul (weight mesh v u) (ssub (v_s (vinfo st v)) (v_s (vinfo st u))))
                  (vertex_ring mesh v)) =
          if decide (cValues = []) then szero else sabs (cValues !!! v_index (vinfo st v))
    end.

(** Every vertex without a constraint has a simple one-ring of at least
    two neighbours (no degenerate free vertex). *)
Definition free_vertices_regular {K} `{Scalar K} (mesh : Polyhedron)
           (vcMap : list (ConstrianedVertex K)) : Prop :=
  forall v, v ∈ vertices mesh -> last_constraint vcMap v = None ->
    simple_ring mesh v /\ 2 <= length (vertex_ring mesh v).

Section Refinement.
Context {K : Type} `{Scalar K} `{WeightFormulas K}.
Context (Kring : ring_theory szero sone sadd smul ssub sopp (@eq K)).

Lemma compute_lu_symbolic_harmonic calc lib mesh vcMap cValues st s :
  mesh_wf mesh -> (forall vc, vc ∈ vcMap -> m_vh vc ∈ vertices mesh) ->
  free_vertices_regular mesh vcMap -> TaucsSound lib ->
  (compute calc lib mesh vcMap cValues "Taucs::lu_symbolic" st s).1.1 = 0%Z ->
  harmonic (weight_of (m_weightOption calc)) mesh vcMap cValues
           (compute calc lib mesh vcMap cValues "Taucs::lu_symbolic" st s).1.2.
Proof.
  intros Hwf Hvc Hreg Hsound.
  pose proof (compute_lu_symbolic calc lib mesh vcMap cValues st s) as Hc; cbv zeta in Hc.
  rewrite Hc. clear Hc.
  pose proof (classify_correct mesh vcMap st Hwf Hvc) as Hcl.
  destruct (classify mesh vcMap st) as [st3 n]. cbn [fst snd]. destruct Hcl as (-> & Hcl & Hpar).
  set (weight := weight_of (m_weightOption calc)).
  set (sys := setupSystem weight mesh st3 _ _ vcMap cValues).
  destruct (linsolve lib sys.1 sys.2) as [code X] eqn:Elin. cbn [fst snd].
  case_decide as Hcode; cbn [fst snd]; [intros _|lia]. subst code.
  pose proof (linsolve_sound lib Hsound _ _ _ Elin) as [HXlen Hsol].
  assert (Hlen : length sys.2 = length (vertices mesh))
    by (unfold sys; rewrite setupSystem_length; apply length_replicate).
  rewrite Hlen in Hsol. unfold sys in Hsol.
  intros v Hv. rewrite set_mesh_scalar_from_system_vinfo, decide_True by done. cbn [v_param v_s v_index].
  split; [done|].
  assert (Hi : v_index (vinfo st3 v) < length (vertices mesh))
    by (apply (indexed_lt mesh); [apply Hcl|done]).
  specialize (Hsol _ Hi). destruct (Hpar v Hv) as [Hp _].
  destruct (last_constraint vcMap v) as [x|] eqn:Elc.
  - assert (Hpin : v_param (vinfo st3 v) = true) by (rewrite Hp; by apply bool_decide_eq_true).
    rewrite (pinned_row_mul Kring weight mesh st3 vcMap cValues v X Hwf Hcl Hv Hpin) in Hsol.
    pose proof (pinned_row_entries Kring weight mesh st3 vcMap cValues v 0 Hwf Hcl Hv Hpin) as [_ Hb].
    rewrite Elc in Hb. injection Hb as Hb. unfold sys in *. rewrite Hsol. exact Hb.
  - assert (Hfree : v_param (vinfo st3 v) = false)
      by (rewrite Hp; apply bool_decide_eq_false; by intros []).
    destruct (Hreg v Hv Elc) as [Hs H2].
    rewrite (free_row_mul Kring weight mesh st3 vcMap cValues v X Hwf Hcl Hv Hfree Hs H2) in Hsol.
    pose proof (free_row_entries Kring weight mesh st3 vcMap cValues v Hwf Hcl Hv Hfree Hs H2)
      as (_ & _ & _ & Hb). cbv zeta in Hb. unfold sys in *. rewrite <- Hb, <- Hsol.
    apply ssum_map_ext. intros u Hu.
    rewrite set_mesh_scalar_from_system_vinfo, decide_True by (by apply (mesh_wf_ring mesh v)).
    done.
Qed.
End Refinement.

Section ComputeClaims.
Context {K : Type} `{Scalar K} `{WeightFormulas K}.
Implicit Types (st : MeshState K) (vcMap : list (ConstrianedVertex K)).

(** C7. A failed run (negative status, whatever the strategy) does not
    leave the mesh unmodified: every vertex of the mesh carries the
    classification's values, [s = -1.0] and not parameterized for a free
    vertex, the constraint's value and parameterized for a pinned one. *)
Theorem compute_failure_leaves_classification calc lib mesh vcMap cValues solverType st s :
  mesh_wf mesh -> (forall vc, vc ∈ vcMap -> m_vh vc ∈ vertices mesh) ->
  ((compute calc lib mesh vcMap cValues solverType st s).1.1 < 0)%Z ->
  forall v, v ∈ vertices mesh ->
    let x := vinfo (compute calc lib mesh vcMap cValues solverType st s).1.2 v in
    v_s x = default (sopp sone) (last_constraint vcMap v) /\
    v_param x = bool_decide (is_Some (last_constraint vcMap v)).
Proof.
  intros Hwf Hvc Hneg v Hv x. unfold x. rewrite (compute_failure_state _ _ _ _ _ _ _ _ Hneg).
  pose proof (classify_correct mesh vcMap st Hwf Hvc) as Hcl.
  destruct (classify mesh vcMap st) as [st3 n]. destruct Hcl as (_ & _ & Hpar).
  destruct (Hpar v Hv). by split.
Qed.

Lemma vec_new_lookup (n i : nat) : vec_new n !!! i = (szero : K).
Proof.
  unfold vec_new. destruct (decide (i < n)).
  - by apply lookup_total_replicate_2.
  - rewrite list_lookup_total_alt, (proj1 (lookup_replicate_None n szero i)) by lia. done.
Qed.

(** C5. The ["Taucs::ll_symbolic"] strategy solves the symmetric system
    into [Xv] but writes back [Xu], which no routine filled: on a
    non-negative status every vertex of the mesh, pinned ones included,
    gets the scalar [0]. *)
Theorem compute_ll_symbolic_writes_zero calc lib mesh vcMap cValues st s :
  (0 <= (compute calc lib mesh vcMap cValues "Taucs::ll_symbolic" st s).1.1)%Z ->
  forall v, v ∈ vertices mesh ->
    v_s (vinfo (compute calc lib mesh vcMap cValues "Taucs::ll_symbolic" st s).1.2 v) = szero /\
    v_param (vinfo (compute calc lib mesh vcMap cValues "Taucs::ll_symbolic" st s).1.2 v) = true.
Proof.
  unfold compute. destruct (classify mesh vcMap st) as [st3 n].
  destruct (setupSystem _ _ _ _ _ _ _) as [A Bu].
  destruct (setupSymmetricSystem _ _ _ _ _ _ _) as [SA Bv].
  unfold dispatch. simpl String.eqb. cbv iota. st_simpl.
  destruct (ll_symbolic_factor_solve lib SA SA Bv (vec_new n) s) as [[status Xv'] s'].
  st_simpl. case_decide; st_simpl; [lia|]. intros _ v Hv.
  rewrite set_mesh_scalar_from_system_vinfo, decide_True by done. simpl.
  split; [apply vec_new_lookup|done].
Qed.

(** C12. No strategy literal reaches the two-phase LU routine
    [lu_symbolic_factor_solve] (its call site is commented out): a run of
    [compute] never issues [taucs_ccs_factor_lu_symbolic]. *)
Theorem compute_never_two_phase calc lib mesh vcMap cValues solverType st s :
  CallLuSymbolic ∈ calls (compute calc lib mesh vcMap cValues solverType st s).2 ->
  CallLuSymbolic ∈ calls s.
Proof.
  unfold compute. destruct (classify mesh vcMap st) as [st3 n].
  destruct (setupSystem _ _ _ _ _ _ _) as [A Bu].
  destruct (setupSymmetricSystem _ _ _ _ _ _ _) as [SA Bv].
  assert (Hd : CallLuSymbolic ∈ calls (dispatch lib solverType A Bu (vec_new n) SA Bv (vec_new n) s).2 ->
               CallLuSymbolic ∈ calls s).
  { unfold dispatch.
    destruct (String.eqb solverType "Taucs::lu_symbolic");
      [|destruct (_ || _); [|destruct (String.eqb solverType "Taucs::ll_symbolic")]]; st_simpl.
    - pose proof (lu_symbolic_factor_solve1_calls lib A A Bu (vec_new n) s) as Hc.
      destruct (lu_symbolic_factor_solve1 _ _ _ _ _ _) as [[? ?] s1]. simpl in *. rewrite Hc.
      set_solver.
    - pose proof (ooc_lu_factor_solve_calls lib A Bu (vec_new n) s) as Hc.
      destruct (ooc_lu_factor_solve _ _ _ _ _) as [[? ?] s1]. simpl in *. rewrite Hc.
      set_solver.
    - pose proof (ll_symbolic_factor_solve_calls lib SA SA Bv (vec_new n) s) as Hc.
      destruct (ll_symbolic_factor_solve _ _ _ _ _ _) as [[? ?] s1]. simpl in *. rewrite Hc.
      case_decide; set_solver.
    - done. }
  st_simpl. destruct (dispatch _ _ _ _ _ _ _ _ s) as [[[status Xu'] Xv'] s'].
  simpl in *. case_decide; st_simpl; exact Hd.
Qed.
End ComputeClaims.

Section RefinementClaim.
Context {K : Type} `{Scalar K} `{WeightFormulas K}.
Context (Kring : ring_theory szero sone sadd smul ssub sopp (@eq K)).

(** C1. Refinement of the engine's contract: over exact arithmetic, when
    every free vertex has a simple one-ring of at least two neighbours and
    the library honours its contract, a ["Taucs::lu_symbolic"] run that
    returns status 0 leaves a [harmonic] mesh: every vertex parameterized,
    every pinned vertex at its constraint, every free vertex's value the
    weighted average of its neighbours' values (Poisson: shifted by
    [|cValues[i]|]). *)
Theorem compute_refines_harmonic calc lib mesh vcMap cValues st s :
  mesh_wf mesh -> (forall vc, vc ∈ vcMap -> m_vh vc ∈ vertices mesh) ->
  free_vertices_regular mesh vcMap -> TaucsSound lib ->
  (compute calc lib mesh vcMap cValues "Taucs::lu_symbolic" st s).1.1 = 0%Z ->
  harmonic (weight_of (m_weightOption calc)) mesh vcMap cValues
           (compute calc lib mesh vcMap cValues "Taucs::lu_symbolic" st s).1.2.
Proof. exact (compute_lu_symbolic_harmonic Kring calc lib mesh vcMap cValues st s). Qed.
End RefinementClaim.
