(* ===== verification/Point.v ===== *)
(** * Point: the run-time sized vector class [Go::Point]

    [gotools_core/Point.h] is a class holding a pointer [pstart_] to an
    array of [double], a dimension [n_] and an ownership flag [owns_].
    Its behaviour depends on memory: [resize] keeps the old array when it
    shrinks, a non-owning point shares an array it does not free, and
    [operator +=] or [setToCrossProd] read one point while writing another,
    which may be the same object.  So the model keeps the memory explicit:

    - a [World] holds the heap of [double] arrays ([blocks], each cell
      [None] while uninitialised, as after [new double[dim]]) and the
      store of [Point] objects ([objs]), each identified by its address;
    - every member function is a computation of the error-state monad
      [PM], taking the address of [this] and of its [Point] arguments,
      so that two arguments may name the same object;
    - a read of freed memory, of a cell outside its array, of an
      uninitialised cell, or of a missing object is the error
      [UndefinedBehaviour]; [DEBUG_ERROR_IF] (from [errormacros.h], not
      part of the sources) throws [DimensionMismatch] when the build has
      debug checks ([debug = true]) and does nothing otherwise.

    The scalars are the generic [Scalar K] with [ScalarOrd K] (division and
    comparisons) and, for [length], [ScalarSqrt K]. *)

From Stdlib Require Import ZArith.
From stdpp Require Import base list gmap.
From S2P Require Import Prelude.

(** The declarations of [namespace Go]. *)
Module Go.

(** ** Memory *)

(** A [double*]: null, or an offset into an allocated array. *)
Inductive Ptr := Null | Addr (blk off : nat).

#[export] Instance Ptr_eq_dec : EqDecision Ptr.
Proof. solve_decision. Defined.

(** The data members of [class Point]. *)
Record Point := { pstart_ : Ptr; n_ : nat; owns_ : bool }.

#[export] Instance Point_eq_dec : EqDecision Point.
Proof. solve_decision. Defined.

Record World (K : Type) := {
  blocks : gmap nat (list (option K));
  next_blk : nat;
  objs : gmap nat Point;
  next_obj : nat
}.
Arguments blocks {K}. Arguments next_blk {K}. Arguments objs {K}. Arguments next_obj {K}.
Arguments Build_World {K}.

Inductive PointErr := DimensionMismatch | UndefinedBehaviour.

#[export] Instance PointErr_eq_dec : EqDecision PointErr.
Proof. solve_decision. Defined.

(** The error-state monad of the member functions. *)
Definition PM (K A : Type) : Type := World K -> PointErr + (A * World K).

#[export] Instance PM_ret {K} : MRet (PM K) := fun A a w => inr (a, w).
#[export] Instance PM_bind {K} : MBind (PM K) := fun A B f m w =>
  match m w with inl e => inl e | inr (a, w') => f a w' end.

Section Memory.
Context {K : Type}.

Definition throw {A} (e : PointErr) : PM K A := fun _ => inl e.

Definition with_blocks (f : gmap nat (list (option K)) -> gmap nat (list (option K)))
           (w : World K) : World K :=
  Build_World (f (blocks w)) (next_blk w) (objs w) (next_obj w).

Definition with_objs (f : gmap nat Point -> gmap nat Point) (w : World K) : World K :=
  Build_World (blocks w) (next_blk w) (f (objs w)) (next_obj w).

(** [new double[d]]: a fresh array of [d] uninitialised cells. *)
Definition new_array (d : nat) : PM K Ptr := fun w =>
  inr (Addr (next_blk w) 0,
       Build_World (<[next_blk w := replicate d None]> (blocks w)) (S (next_blk w))
                   (objs w) (next_obj w)).

(** [delete [] p]: nothing for null; the start of a live array is freed;
    anything else is undefined. *)
Definition delete_array (p : Ptr) : PM K unit := fun w =>
  match p with
  | Null => inr (tt, w)
  | Addr b 0 =>
      if decide (is_Some (blocks w !! b)) then inr (tt, with_blocks (delete b) w)
      else inl UndefinedBehaviour
  | Addr _ _ => inl UndefinedBehaviour
  end.

(** The raw cell [p[i]] (copying a cell copies its initialisation). *)
Definition load (p : Ptr) (i : nat) : PM K (option K) := fun w =>
  match p with
  | Addr b off =>
      match blocks w !! b ≫= (.!! (off + i)) with
      | Some c => inr (c, w)
      | None => inl UndefinedBehaviour
      end
  | Null => inl UndefinedBehaviour
  end.

(** The value [p[i]]: an uninitialised cell has none. *)
Definition load_val (p : Ptr) (i : nat) : PM K K :=
  c ← load p i; match c with Some x => mret x | None => throw UndefinedBehaviour end.

(** [p[i] = c]. *)
Definition store (p : Ptr) (i : nat) (c : option K) : PM K unit := fun w =>
  match p with
  | Addr b off =>
      match blocks w !! b with
      | Some l =>
          if decide (off + i < length l)
          then inr (tt, with_blocks (<[b := <[off + i := c]> l]>) w)
          else inl UndefinedBehaviour
      | None => inl UndefinedBehaviour
      end
  | Null => inl UndefinedBehaviour
  end.

Definition get_obj (o : nat) : PM K Point := fun w =>
  match objs w !! o with Some pt => inr (pt, w) | None => inl UndefinedBehaviour end.

Definition set_obj (o : nat) (pt : Point) : PM K unit := fun w =>
  inr (tt, with_objs (<[o := pt]>) w).

(** A new object at a fresh address. *)
Definition new_obj (pt : Point) : PM K nat := fun w =>
  inr (next_obj w, Build_World (blocks w) (next_blk w) (<[next_obj w := pt]> (objs w))
                               (S (next_obj w))).

Definition del_obj (o : nat) : PM K unit := fun w => inr (tt, with_objs (delete o) w).

(** [for (int i = 0; i < n; ++i) body(i)], and the same loop carrying an
    accumulator. *)
Fixpoint mfor (l : list nat) (body : nat -> PM K unit) : PM K unit :=
  match l with [] => mret tt | i :: l' => body i;; mfor l' body end.

Fixpoint mfold {A} (f : A -> nat -> PM K A) (a : A) (l : list nat) : PM K A :=
  match l with [] => mret a | i :: l' => a' ← f a i; mfold f a' l' end.
End Memory.

(** ** The member functions

    [o], [v], [u] are addresses of [Point] objects; [debug] says whether
    [DEBUG_ERROR_IF] checks. *)
Section PointOps.
Context {K : Type} `{Scalar K} `{ScalarOrd K}.
Context (debug : bool).
Local Open Scope scalar_scope.

(** [DEBUG_ERROR_IF(c, msg)]. *)
Definition DEBUG_ERROR_IF (c : bool) : PM K unit :=
  if debug && c then throw DimensionMismatch else mret tt.

(** [std::copy(src, src + n, dst)]. *)
Definition copy_cells (src dst : Ptr) (n : nat) : PM K unit :=
  mfor (seq 0 n) (fun i => c ← load src i; store dst i c).

(** [Point()]: null data, dimension 0. *)
Definition Point_default : PM K nat :=
  new_obj {| pstart_ := Null; n_ := 0; owns_ := true |}.

(** [explicit Point(int dim)]: [dim] uninitialised coordinates. *)
Definition Point_dim (dim : nat) : PM K nat :=
  p ← new_array dim; new_obj {| pstart_ := p; n_ := dim; owns_ := true |}.

(** [Point(double x, double y)]. *)
Definition Point_xy (x y : K) : PM K nat :=
  p ← new_array 2; store p 0 (Some x);; store p 1 (Some y);;
  new_obj {| pstart_ := p; n_ := 2; owns_ := true |}.

(** [Point(double x, double y, double z)]. *)
Definition Point_xyz (x y z : K) : PM K nat :=
  p ← new_array 3; store p 0 (Some x);; store p 1 (Some y);; store p 2 (Some z);;
  new_obj {| pstart_ := p; n_ := 3; owns_ := true |}.

(** [Point(const Array<T, Dim>&)] and [Point(first, last)]: a copy of a
    sequence of values. *)
Definition Point_of_values (vals : list K) : PM K nat :=
  p ← new_array (length vals);
  mfor (seq 0 (length vals)) (fun i => store p i (vals !! i));;
  new_obj {| pstart_ := p; n_ := length vals; owns_ := true |}.

(** [Point(double* begin, double* end, bool own)]: a copy when [own], else
    a view of the caller's array. *)
Definition Point_range (begin : Ptr) (len : nat) (own : bool) : PM K nat :=
  if own then
    p ← new_array len; copy_cells begin p len;;
    new_obj {| pstart_ := p; n_ := len; owns_ := true |}
  else new_obj {| pstart_ := begin; n_ := len; owns_ := false |}.

(** [Point(const Point& v)]. *)
Definition Point_copy (v : nat) : PM K nat :=
  pv ← get_obj v; p ← new_array (n_ pv); copy_cells (pstart_ pv) p (n_ pv);;
  new_obj {| pstart_ := p; n_ := n_ pv; owns_ := true |}.

(** [~Point()]: frees the array if owned. *)
Definition Point_destroy (o : nat) : PM K unit :=
  pt ← get_obj o; (if owns_ pt then delete_array (pstart_ pt) else mret tt);; del_obj o.

(** [swap(other)]: exchanges the three members. *)
Definition swap (o other : nat) : PM K unit :=
  a ← get_obj o; b ← get_obj other; set_obj o b;; set_obj other a.

(** [operator=]: copy, swap, destroy the temporary. *)
Definition assign (o v : nat) : PM K unit :=
  temp ← Point_copy v; swap o temp;; Point_destroy temp.

(** [operator[](int i)], read and write; no bounds check. *)
Definition get (o : nat) (i : Z) : PM K K :=
  pt ← get_obj o;
  if decide (i < 0)%Z then throw UndefinedBehaviour else load_val (pstart_ pt) (Z.to_nat i).

Definition set (o : nat) (i : Z) (x : K) : PM K unit :=
  pt ← get_obj o;
  if decide (i < 0)%Z then throw UndefinedBehaviour else store (pstart_ pt) (Z.to_nat i) (Some x).

(** [begin()]: the start iterator [pstart_]. *)
Definition Point_begin (o : nat) : PM K Ptr := pt ← get_obj o; mret (pstart_ pt).

(** [end()]: [pstart_ + n_]; a null [pstart_] only occurs with [n_ = 0],
    where [nullptr + 0] is [nullptr]. *)
Definition Point_end (o : nat) : PM K Ptr :=
  pt ← get_obj o;
  mret (match pstart_ pt with Null => Null | Addr b off => Addr b (off + n_ pt) end).

(** [size()] and [dimension()]. *)
Definition size (o : nat) : PM K nat := pt ← get_obj o; mret (n_ pt).

(** [resize(int d)]: a fresh uninitialised array when growing; when
    shrinking only [n_] changes. *)
Definition resize (o d : nat) : PM K unit :=
  pt ← get_obj o;
  if decide (n_ pt < d) then temp ← Point_dim d; swap o temp;; Point_destroy temp
  else set_obj o {| pstart_ := pstart_ pt; n_ := d; owns_ := owns_ pt |}.

(** [setValue(double x, double y)]. *)
Definition setValue2 (o : nat) (x y : K) : PM K unit :=
  resize o 2;; pt ← get_obj o; store (pstart_ pt) 0 (Some x);; store (pstart_ pt) 1 (Some y).

(** [setValue(double x, double y, double z)]. *)
Definition setValue3 (o : nat) (x y z : K) : PM K unit :=
  resize o 3;; pt ← get_obj o;
  store (pstart_ pt) 0 (Some x);; store (pstart_ pt) 1 (Some y);; store (pstart_ pt) 2 (Some z).

(** [setValue(const double* array)]: copies [n_] cells of [array]. *)
Definition setValue_array (o : nat) (array : Ptr) : PM K unit :=
  pt ← get_obj o; mfor (seq 0 (n_ pt)) (fun i => c ← load array i; store (pstart_ pt) i c).

(** [setValue(double val)]. *)
Definition setValue_val (o : nat) (val : K) : PM K unit :=
  pt ← get_obj o; mfor (seq 0 (n_ pt)) (fun i => store (pstart_ pt) i (Some val)).

(** [resetValue(int idx, double val)]: the only bounds check is the
    debug one. *)
Definition resetValue (o : nat) (idx : Z) (val : K) : PM K unit :=
  pt ← get_obj o;
  DEBUG_ERROR_IF (bool_decide (idx < 0)%Z || bool_decide (Z.of_nat (n_ pt) <= idx)%Z);;
  if decide (idx < 0)%Z then throw UndefinedBehaviour
  else store (pstart_ pt) (Z.to_nat idx) (Some val).

(** [length2()]: [l2 += p[i] * p[i]]. *)
Definition length2 (o : nat) : PM K K :=
  pt ← get_obj o;
  mfold (fun l2 i => x ← load_val (pstart_ pt) i; mret (l2 + x * x)) szero (seq 0 (n_ pt)).

(** [std::max(a, b)] is [(a < b) ? b : a]; [std::min(a, b)] is
    [(b < a) ? b : a]. *)
Definition std_max (a b : K) : K := if sltb a b then b else a.
Definition std_min (a b : K) : K := if sltb b a then b else a.

(** [lengthInf()]: [linf = std::max(linf, fabs(p[i]))]. *)
Definition lengthInf (o : nat) : PM K K :=
  pt ← get_obj o;
  mfold (fun linf i => x ← load_val (pstart_ pt) i; mret (std_max linf (sabs x)))
        szero (seq 0 (n_ pt)).

(** [dist2(v)]: no dimension check; [v]'s cells are read up to [n_]. *)
Definition dist2 (o v : nat) : PM K K :=
  pt ← get_obj o; pv ← get_obj v;
  mfold (fun l2 i => a ← load_val (pstart_ pt) i; b ← load_val (pstart_ pv) i;
                     let d := a - b in mret (l2 + d * d))
        szero (seq 0 (n_ pt)).

(** [distInf(v)]. *)
Definition distInf (o v : nat) : PM K K :=
  pt ← get_obj o; pv ← get_obj v;
  mfold (fun linf i => a ← load_val (pstart_ pt) i; b ← load_val (pstart_ pv) i;
                       mret (std_max linf (sabs (a - b))))
        szero (seq 0 (n_ pt)).

(** The loop of [operator +=] and [operator -=]:
    [DEBUG_ERROR_IF(n_ != v.n_)], then [p[i] op= v.p[i]] for [i < n_]. *)
Definition zip_assign (f : K -> K -> K) (o v : nat) : PM K unit :=
  pt ← get_obj o; pv ← get_obj v;
  DEBUG_ERROR_IF (negb (n_ pt =? n_ pv));;
  mfor (seq 0 (n_ pt)) (fun i =>
    a ← load_val (pstart_ pt) i; b ← load_val (pstart_ pv) i;
    store (pstart_ pt) i (Some (f a b))).

(** [operator +=(const Point& v)]. *)
Definition add_assign (o v : nat) : PM K unit := zip_assign sadd o v.

(** [operator -=(const Point& v)]. *)
Definition sub_assign (o v : nat) : PM K unit := zip_assign ssub o v.

(** The loop of [operator *=] and [operator /=]: [p[i] = f(p[i])]. *)
Definition map_assign (f : K -> K) (o : nat) : PM K unit :=
  pt ← get_obj o;
  mfor (seq 0 (n_ pt)) (fun i =>
    a ← load_val (pstart_ pt) i; store (pstart_ pt) i (Some (f a))).

(** [operator *=(double d)]. *)
Definition mul_assign (o : nat) (d : K) : PM K unit := map_assign (fun a => a * d) o.

(** [operator /=(double d)]. *)
Definition div_assign (o : nat) (d : K) : PM K unit := map_assign (fun a => sdiv a d) o.

(** [operator +], [operator -], [operator *(double)], [operator /]: a copy
    of [*this] updated in place; the copy's address is returned. *)
Definition add (o v : nat) : PM K nat := res ← Point_copy o; add_assign res v;; mret res.
Definition sub (o v : nat) : PM K nat := res ← Point_copy o; sub_assign res v;; mret res.
Definition mul (o : nat) (d : K) : PM K nat := res ← Point_copy o; mul_assign res d;; mret res.
Definition div (o : nat) (d : K) : PM K nat := res ← Point_copy o; div_assign res d;; mret res.

(** [operator *(double d, const Point& p)]. *)
Definition scalar_mul (d : K) (p : nat) : PM K nat := mul p d.

(** The unary [operator -]: [res.p[i] = - p[i]]. *)
Definition neg (o : nat) : PM K nat :=
  res ← Point_copy o; pt ← get_obj o; pr ← get_obj res;
  mfor (seq 0 (n_ pt)) (fun i => a ← load_val (pstart_ pt) i; store (pstart_ pr) i (Some (- a)));;
  mret res.

(** The scalar product [operator *(const Point& v)]. *)
Definition dot (o v : nat) : PM K K :=
  pt ← get_obj o; pv ← get_obj v;
  DEBUG_ERROR_IF (negb (n_ pt =? n_ pv));;
  mfold (fun res i => a ← load_val (pstart_ pt) i; b ← load_val (pstart_ pv) i;
                      mret (res + a * b))
        szero (seq 0 (n_ pt)).

(** The cross product [operator %(const Point& v)], a new 3D point. *)
Definition cross (o v : nat) : PM K nat :=
  pt ← get_obj o; pv ← get_obj v;
  DEBUG_ERROR_IF (negb (n_ pt =? 3) || negb (n_ pv =? 3));;
  a0 ← load_val (pstart_ pt) 0; a1 ← load_val (pstart_ pt) 1; a2 ← load_val (pstart_ pt) 2;
  b0 ← load_val (pstart_ pv) 0; b1 ← load_val (pstart_ pv) 1; b2 ← load_val (pstart_ pv) 2;
  Point_xyz (a1 * b2 - a2 * b1) (a2 * b0 - a0 * b2) (a0 * b1 - a1 * b0).

(** One statement [pstart_[k] = u.pstart_[i]*v.pstart_[j] -
    u.pstart_[j]*v.pstart_[i]] of [setToCrossProd]: the members of [*this],
    [u] and [v] are read when the statement runs. *)
Definition cross_cell (o u v k i j : nat) : PM K unit :=
  pt ← get_obj o; pu ← get_obj u; pv ← get_obj v;
  a ← load_val (pstart_ pu) i; b ← load_val (pstart_ pv) j;
  c ← load_val (pstart_ pu) j; d ← load_val (pstart_ pv) i;
  store (pstart_ pt) k (Some (a * b - c * d)).

(** [setToCrossProd(const Point& u, const Point& v)]: reuse the array when
    owned and at least [v.n_] long, else swap in a fresh one; then write
    the three coordinates one after the other. *)
Definition setToCrossProd (o u v : nat) : PM K unit :=
  pu ← get_obj u; pv ← get_obj v;
  DEBUG_ERROR_IF (negb (n_ pu =? n_ pv));;
  DEBUG_ERROR_IF (negb (n_ pu =? 3));;
  pt ← get_obj o;
  (if owns_ pt && bool_decide (n_ pv <= n_ pt)
   then set_obj o {| pstart_ := pstart_ pt; n_ := 3; owns_ := owns_ pt |}
   else temp ← Point_dim 3; swap o temp;; Point_destroy temp);;
  cross_cell o u v 0 1 2;; cross_cell o u v 1 2 0;; cross_cell o u v 2 0 1.

(** The loop of [operator <(p1, p2)], from the last coordinate down. *)
Fixpoint lt_loop (p1 p2 : Ptr) (i : nat) : PM K bool :=
  match i with
  | 0 => mret false
  | S i' =>
      x ← load_val p1 i'; y ← load_val p2 i';
      if sltb y x then mret false
      else if sltb x y then mret true
      else lt_loop p1 p2 i'
  end.

(** [operator <(const Point& p1, const Point& p2)]. *)
Definition Point_lt (o1 o2 : nat) : PM K bool :=
  a ← get_obj o1; b ← get_obj o2;
  DEBUG_ERROR_IF (negb (n_ b =? n_ a));;
  lt_loop (pstart_ a) (pstart_ b) (n_ a).
End PointOps.

(** ** The members that need [sqrt] *)
Section PointSqrt.
Context {K : Type} `{Scalar K} `{ScalarOrd K} `{ScalarSqrt K}.
Context (debug : bool).
Local Open Scope scalar_scope.

(** [length()]. *)
Definition length (o : nat) : PM K K := l ← length2 o; mret (ssqrt l).

(** [dist(v)]. *)
Definition dist (o v : nat) : PM K K := l ← dist2 o v; mret (ssqrt l).

(** [normalize()]. *)
Definition normalize (o : nat) : PM K unit :=
  tl ← length o; DEBUG_ERROR_IF debug (seqb tl szero);; div_assign o tl.

(** [normalize_checked()]: [0] and no change below [1.0e-12]. *)
Definition normalize_checked (o : nat) : PM K K :=
  tl ← length o;
  if sltb tl s1e_12 then mret szero else div_assign o tl;; mret tl.

(** [cosAngle(v)]: [0.0] for a zero length, else the quotient clamped by
    [std::min(1.0, std::max(-1.0, res))]. *)
Definition cosAngle (o v : nat) : PM K K :=
  tl1 ← length o; tl2 ← length v;
  if seqb (tl1 * tl2) szero then mret szero
  else d ← dot debug o v;
       mret (std_min sone (std_max (- sone) (sdiv d (tl1 * tl2)))).
End PointSqrt.
End Go.
