(* ===== verification/PointProps.v ===== *)
(** * PointProps: what [Go::Point]'s member functions compute

    The value of a point is the list of its initialised coordinates
    ([value]).  The lemmas here relate the member functions of [Point.v] to
    pure operations on those lists: the loops are folds ([mfold_read]) or
    in-place writes ([mfor_write], [fill]); [operator +=] adds pointwise
    even when its argument is the point itself; [length2()] is the scalar
    product of the point with itself on every world; [setToCrossProd] is
    the cross product when its target does not alias an argument, and is
    not when it does; [operator <] is the lexicographic order read from the
    last coordinate, a strict total order over exact scalars and not over
    doubles with NaN. *)

From Stdlib Require Import ZArith.
From stdpp Require Import base list gmap.
From Stdlib Require Import QArith Qcanon.
From S2P Require Import Prelude Scalars Point.
Import Go.
Local Close Scope Qc_scope.
Local Close Scope Q_scope.

(** ** The value of a point

    [read_cells w p n] is the list of the [n] initialised values at [p], if
    they are inside one live array; [value w o] is that of the object [o]. *)
Section Values.
Context {K : Type}.
Implicit Types (w : World K).

Definition read_cells w (p : Ptr) (n : nat) : option (list K) :=
  match p with
  | Null => if decide (n = 0) then Some [] else None
  | Addr b off => l ← blocks w !! b; mapM (fun i => mjoin (l !! (off + i))) (seq 0 n)
  end.

Definition value w (o : nat) : option (list K) :=
  pt ← objs w !! o; read_cells w (pstart_ pt) (n_ pt).

(** The array [l] after [p[off + i] = vals(i)] for [i < k]. *)
Definition fill (l : list (option K)) (off k : nat) (vals : nat -> option K) : list (option K) :=
  foldl (fun l i => <[off + i := vals i]> l) l (seq 0 k).
End Values.

Section MemoryLemmas.
Context {K : Type}.
Implicit Types (w : World K) (l : list (option K)) (vals : nat -> option K).

Lemma PM_bind_inr {A B} (m : PM K A) (k : A -> PM K B) w a w' :
  m w = inr (a, w') -> (x ← m; k x) w = k a w'.
Proof. intros E. unfold mbind, PM_bind. by rewrite E. Qed.

Lemma mfor_app (l1 l2 : list nat) (body : nat -> PM K unit) w :
  mfor (l1 ++ l2) body w =
    match mfor l1 body w with inl e => inl e | inr (_, w') => mfor l2 body w' end.
Proof.
  revert w. induction l1 as [|i l1 IH]; intros w; [done|].
  cbn [app mfor]. unfold mbind, PM_bind.
  destruct (body i w) as [e|[[] w']]; [done|]. apply IH.
Qed.

Lemma mfold_app {A} (f : A -> nat -> PM K A) (a : A) (l1 l2 : list nat) w :
  mfold f a (l1 ++ l2) w =
    match mfold f a l1 w with inl e => inl e | inr (a', w') => mfold f a' l2 w' end.
Proof.
  revert a w. induction l1 as [|i l1 IH]; intros a w; [done|].
  cbn [app mfold]. unfold mbind, PM_bind.
  destruct (f a i w) as [e|[a' w']]; [done|]. apply IH.
Qed.

(** Loops whose bodies agree on every world agree. *)
Lemma mfor_ext (l : list nat) (body1 body2 : nat -> PM K unit) w :
  (forall i w, body1 i w = body2 i w) -> mfor l body1 w = mfor l body2 w.
Proof.
  intros Hb. revert w. induction l as [|i l IH]; intros w; [done|].
  cbn [mfor]. unfold mbind, PM_bind. rewrite Hb.
  destruct (body2 i w) as [e|[[] w']]; [done|]. apply IH.
Qed.

Lemma mfold_ext {A} (f g : A -> nat -> PM K A) (a : A) (l : list nat) w :
  (forall a i w, f a i w = g a i w) -> mfold f a l w = mfold g a l w.
Proof.
  intros Hf. revert a w. induction l as [|i l IH]; intros a w; [done|].
  cbn [mfold]. unfold mbind, PM_bind. rewrite Hf.
  destruct (g a i w) as [e|[a' w']]; [done|]. apply IH.
Qed.

Lemma with_blocks_insert_insert b (l1 l2 : list (option K)) w :
  with_blocks (<[b := l2]>) (with_blocks (<[b := l1]>) w) = with_blocks (<[b := l2]>) w.
Proof. unfold with_blocks; simpl. by rewrite insert_insert_eq. Qed.

Lemma fill_S l off k vals :
  fill l off (S k) vals = <[off + k := vals k]> (fill l off k vals).
Proof. unfold fill. by rewrite seq_S, foldl_app. Qed.

Lemma fill_ext l off k vals1 vals2 :
  (forall i, i < k -> vals1 i = vals2 i) -> fill l off k vals1 = fill l off k vals2.
Proof.
  intros Hv. unfold fill. apply foldl_ext_in. intros l' i Hi%elem_of_seq.
  rewrite Hv by lia. done.
Qed.

Lemma fill_length l off k vals : Datatypes.length (fill l off k vals) = Datatypes.length l.
Proof. induction k; [done|]. by rewrite fill_S, length_insert. Qed.

Lemma fill_lookup l off k vals j :
  fill l off k vals !! j =
    if decide (off <= j < off + k /\ j < Datatypes.length l) then Some (vals (j - off)) else l !! j.
Proof.
  induction k as [|k IH]; [by rewrite decide_False by lia|].
  rewrite fill_S, list_lookup_insert, fill_length, IH.
  repeat case_decide; try (f_equal; f_equal; lia); try lia; done.
Qed.

Lemma with_blocks_id b l w : blocks w !! b = Some l -> with_blocks (<[b := l]>) w = w.
Proof. intros Hb. destruct w; unfold with_blocks; simpl in *. by rewrite insert_id. Qed.

Lemma read_cells_Addr w b off n (xs : list K) :
  read_cells w (Addr b off) n = Some xs <->
  exists l, blocks w !! b = Some l /\ Datatypes.length xs = n /\
            forall i x, xs !! i = Some x -> l !! (off + i) = Some (Some x).
Proof.
  simpl. split.
  - intros (l & Hb & Hm)%bind_Some. exists l. apply mapM_Some in Hm. split; [done|].
    split; [by rewrite <- (Forall2_length _ _ _ Hm), length_seq|].
    intros i x Hx. destruct (Forall2_lookup_r _ _ _ _ _ Hm Hx) as (j & Hj & Hjx).
    apply lookup_seq in Hj as [-> _]. simpl in Hjx.
    destruct (l !! (off + i)) as [[]|]; simplify_eq/=; done.
  - intros (l & Hb & Hlen & Hc). rewrite Hb. simpl.
    apply mapM_Some, Forall2_same_length_lookup. split; [by rewrite length_seq|].
    intros i j x Hj Hx. apply lookup_seq in Hj as [-> _]. simpl. by rewrite (Hc i x Hx).
Qed.

Lemma get_obj_Some o pt w : objs w !! o = Some pt -> get_obj o w = inr (pt, w).
Proof. unfold get_obj. by intros ->. Qed.

Lemma load_Some b off i l c w :
  blocks w !! b = Some l -> l !! (off + i) = Some c -> load (Addr b off) i w = inr (c, w).
Proof. intros Hb Hc. unfold load. by rewrite Hb; simpl; rewrite Hc. Qed.

Lemma load_val_Some b off i l x w :
  blocks w !! b = Some l -> l !! (off + i) = Some (Some x) ->
  load_val (Addr b off) i w = inr (x, w).
Proof.
  intros Hb Hc. unfold load_val, mbind, PM_bind. by rewrite (load_Some _ _ _ _ _ _ Hb Hc).
Qed.

(** The in-place write loop: when, before the write of cell [i], the body
    computes [vals i] without changing the world, the loop writes
    [fill l off k vals] into the array. *)
Lemma mfor_write b off l k (rd : nat -> PM K (option K)) vals w :
  blocks w !! b = Some l -> (forall i, i < k -> off + i < Datatypes.length l) ->
  (forall i, i < k ->
     rd i (with_blocks (<[b := fill l off i vals]>) w) =
       inr (vals i, with_blocks (<[b := fill l off i vals]>) w)) ->
  mfor (seq 0 k) (fun i => c ← rd i; store (Addr b off) i c) w =
    inr (tt, with_blocks (<[b := fill l off k vals]>) w).
Proof.
  intros Hb. induction k as [|k IH]; intros Hk Hrd.
  - simpl. by rewrite with_blocks_id.
  - rewrite seq_S, mfor_app, IH by (intros; (apply Hk || apply Hrd); lia).
    cbn [mfor]. unfold mbind, PM_bind. rewrite Hrd by lia.
    unfold store. simpl. rewrite lookup_insert_eq, decide_True by (rewrite fill_length; apply Hk; lia).
    by rewrite with_blocks_insert_insert, fill_S.
Qed.

(** The read loop with an accumulator: when each step computes [g a i]
    without changing the world, the loop is [foldl g]. *)
Lemma mfold_read {A} (f : A -> nat -> PM K A) (g : A -> nat -> A) (a : A) (l : list nat) w :
  (forall a i, i ∈ l -> f a i w = inr (g a i, w)) -> mfold f a l w = inr (foldl g a l, w).
Proof.
  revert a. induction l as [|i l IH]; intros a Hf; [done|].
  cbn [mfold foldl]. unfold mbind, PM_bind. rewrite Hf by set_solver.
  apply IH. intros; apply Hf; set_solver.
Qed.

(** A [foldl] over the indices of a list is a [foldl] over its elements. *)
Lemma foldl_seq_lookup {A B} `{Inhabited B} (h : A -> B -> A) (a : A) (xs : list B) :
  foldl (fun a i => h a (xs !!! i)) a (seq 0 (Datatypes.length xs)) = foldl h a xs.
Proof.
  revert a. induction xs as [|x xs IH] using rev_ind; intros a; [done|].
  rewrite length_app, Nat.add_1_r, seq_S, !foldl_app. simpl.
  rewrite lookup_total_app_r, Nat.sub_diag by lia. simpl. f_equal.
  rewrite <- IH. apply foldl_ext_in. intros b i Hi%elem_of_seq.
  rewrite lookup_total_app_l by lia. done.
Qed.

(** A read depends only on the array it reads. *)
Lemma load_local b off i c w w' :
  blocks w' !! b = blocks w !! b ->
  load (Addr b off) i w = inr (c, w) -> load (Addr b off) i w' = inr (c, w').
Proof.
  unfold load. intros ->. destruct (blocks w !! b ≫= _); congruence.
Qed.

Lemma load_val_local b off i x w w' :
  blocks w' !! b = blocks w !! b ->
  load_val (Addr b off) i w = inr (x, w) -> load_val (Addr b off) i w' = inr (x, w').
Proof.
  intros Hb. unfold load_val, mbind, PM_bind.
  destruct (load (Addr b off) i w) as [e|[c w1]] eqn:E; [done|].
  assert (w1 = w) as ->.
  { unfold load in E. destruct (blocks w !! b ≫= _); congruence. }
  rewrite (load_local _ _ _ _ _ _ Hb E). destruct c; unfold mret, PM_ret, throw; congruence.
Qed.

Lemma fill_replicate `{Inhabited K} (xs : list K) :
  fill (replicate (Datatypes.length xs) None) 0 (Datatypes.length xs) (fun i => Some (xs !!! i)) =
    Some <$> xs.
Proof.
  apply list_eq. intros j. rewrite fill_lookup, length_replicate, list_lookup_fmap.
  case_decide as Hj.
  - rewrite Nat.sub_0_r. destruct (lookup_lt_is_Some_2 xs j) as [x Hx]; [lia|].
    rewrite Hx. simpl. by rewrite (list_lookup_total_correct _ _ _ Hx).
  - rewrite !lookup_ge_None_2 by (rewrite ?length_replicate; lia). done.
Qed.
End MemoryLemmas.

(** ** Functional behaviour of the member functions *)

(** The reference scalar product: [sum x_i * y_i], left to right. *)
Definition dotprod {K} `{Scalar K} (xs ys : list K) : K :=
  foldl (fun s '(x, y) => sadd s (smul x y)) szero (zip xs ys).

(** Equal by cases on the effects: both sides run the same reads. *)
Ltac pm_cases :=
  unfold mbind, PM_bind, mret, PM_ret; repeat (case_match; simplify_eq/=); try done.

(** The reference cross product of two 3D vectors. *)
Definition cross3 {K} `{Scalar K} (xs ys : list K) : list K :=
  [ssub (smul (xs !!! 1) (ys !!! 2)) (smul (xs !!! 2) (ys !!! 1));
   ssub (smul (xs !!! 2) (ys !!! 0)) (smul (xs !!! 0) (ys !!! 2));
   ssub (smul (xs !!! 0) (ys !!! 1)) (smul (xs !!! 1) (ys !!! 0))].

Section Specs.
Context {K : Type} `{Scalar K} `{ScalarOrd K}.
Implicit Types (w : World K) (xs ys : list K).

Lemma DEBUG_ERROR_IF_false debug : @DEBUG_ERROR_IF K debug false = mret tt.
Proof. unfold DEBUG_ERROR_IF. by rewrite andb_false_r. Qed.

Lemma DEBUG_ERROR_IF_release c : @DEBUG_ERROR_IF K false c = mret tt.
Proof. done. Qed.

(** A successful read does not change the world. *)
Lemma load_val_world p i x w w' : @load_val K p i w = inr (x, w') -> w' = w.
Proof.
  unfold load_val, load, mbind, PM_bind, throw, mret, PM_ret.
  destruct p as [|b off]; [done|].
  repeat case_match; intros; simplify_eq; done.
Qed.

(** The cells of a point with a value read as that value. *)
Lemma value_load w o xs :
  value w o = Some xs ->
  exists pt, objs w !! o = Some pt /\ n_ pt = Datatypes.length xs /\
    forall i x, xs !! i = Some x -> load_val (pstart_ pt) i w = inr (x, w).
Proof.
  unfold value. intros (pt & Ho & Hr)%bind_Some. exists pt. split; [done|].
  destruct (pstart_ pt) as [|b off] eqn:Hp; simpl in Hr.
  - case_decide; simplify_eq/=. split; [done|]. by intros ? ? ?.
  - apply (read_cells_Addr w b off) in Hr as (l & Hb & Hlen & Hc).
    split; [done|]. intros i x Hx. exact (load_val_Some _ _ _ _ _ _ Hb (Hc i x Hx)).
Qed.

Lemma foldl_seq_zip {A} (h : A -> K -> K -> A) (a : A) xs ys :
  Datatypes.length xs = Datatypes.length ys ->
  foldl (fun a i => h a (xs !!! i) (ys !!! i)) a (seq 0 (Datatypes.length xs)) =
    foldl (fun a '(x, y) => h a x y) a (zip xs ys).
Proof.
  intros Hlen. rewrite <- (foldl_seq_lookup _ a (zip xs ys)).
  assert (E : seq 0 (Datatypes.length (zip xs ys)) = seq 0 (Datatypes.length xs))
    by (f_equal; rewrite length_zip; lia).
  rewrite E.
  apply foldl_ext_in. intros b i Hi%elem_of_seq.
  destruct (lookup_lt_is_Some_2 xs i) as [x Hx]; [lia|].
  destruct (lookup_lt_is_Some_2 ys i) as [y Hy]; [lia|].
  rewrite !list_lookup_total_alt, lookup_zip_with, Hx, Hy. done.
Qed.

Lemma value_load_total w o xs :
  value w o = Some xs ->
  exists pt, objs w !! o = Some pt /\ n_ pt = Datatypes.length xs /\
    forall i, i < Datatypes.length xs -> load_val (pstart_ pt) i w = inr (xs !!! i, w).
Proof.
  intros (pt & Ho & Hn & Hx)%value_load. exists pt. do 2 (split; [done|]).
  intros i Hi. apply Hx. by apply list_lookup_lookup_total_lt.
Qed.

(** The scalar product of two points with values of one dimension is the
    reference [dotprod]. *)
Lemma dot_value debug o v w xs ys :
  value w o = Some xs -> value w v = Some ys -> Datatypes.length xs = Datatypes.length ys ->
  dot debug o v w = inr (dotprod xs ys, w).
Proof.
  intros (pt & Ho & Hn & Hx)%value_load_total (pv & Hv & Hnv & Hy)%value_load_total Hlen.
  unfold dot, mbind, PM_bind at 1 2 3.
  rewrite (get_obj_Some _ _ _ Ho), (get_obj_Some _ _ _ Hv), Hn, Hnv, <- Hlen, Nat.eqb_refl.
  simpl negb. rewrite DEBUG_ERROR_IF_false. unfold mret, PM_ret.
  rewrite (mfold_read _ (fun r i => sadd r (smul (xs !!! i) (ys !!! i)))).
  - unfold dotprod. f_equal. f_equal.
    exact (foldl_seq_zip (fun r x y => sadd r (smul x y)) szero xs ys Hlen).
  - intros r i Hi%elem_of_seq. unfold mbind, PM_bind.
    rewrite Hx, Hy by lia. done.
Qed.

(** C25. The scalar product [operator *(const Point&)] of two points of one
    dimension returns the reference [dotprod] of their values (the sum of
    [x_i * y_i] from left to right) and changes nothing, in both builds. *)
Theorem dot_spec debug o v w xs ys :
  value w o = Some xs -> value w v = Some ys -> Datatypes.length xs = Datatypes.length ys ->
  dot debug o v w = inr (dotprod xs ys, w).
Proof. apply dot_value. Qed.

(** C26. [length2()] is [this * this] on every point and every world, for
    any scalar type (machine doubles included) and with or without debug
    checks: the same reads, products and sums in the same order, and the
    same undefined reads; on a point with a value it is the reference
    [dotprod] of the value with itself. *)
Theorem length2_dot debug o w :
  length2 o w = dot debug o o w /\
  forall xs, value w o = Some xs -> length2 o w = inr (dotprod xs xs, w).
Proof.
  enough (E : length2 o w = dot debug o o w).
  { split; [done|]. intros xs Hv. rewrite E. by apply dot_value. }
  unfold length2, dot, get_obj, mbind, PM_bind at 1 2 3 4.
  destruct (objs w !! o) as [pt|] eqn:Ho; [|done]. rewrite Ho, Nat.eqb_refl.
  simpl negb. rewrite DEBUG_ERROR_IF_false.
  apply mfold_ext. intros r i w'. unfold mbind, PM_bind, mret, PM_ret.
  destruct (load_val (pstart_ pt) i w') as [e|[x w'']] eqn:E; [done|].
  pose proof (load_val_world _ _ _ _ _ E) as ->. by rewrite E.
Qed.

(** The cells of a point with a value, in its array. *)
Lemma value_cells w o pt b off xs :
  objs w !! o = Some pt -> pstart_ pt = Addr b off -> value w o = Some xs ->
  exists l, blocks w !! b = Some l /\ n_ pt = Datatypes.length xs /\
    forall i, i < Datatypes.length xs -> l !! (off + i) = Some (Some (xs !!! i)).
Proof.
  unfold value. intros Ho Hp. rewrite Ho. simpl. rewrite Hp.
  intros (l & Hb & Hlen & Hc)%read_cells_Addr. exists l. split; [done|]. split; [done|].
  intros i Hi. apply Hc. by apply list_lookup_lookup_total_lt.
Qed.

Lemma cells_in_bounds (l : list (option K)) off n (f : nat -> option K) :
  (forall i, i < n -> l !! (off + i) = Some (f i)) -> forall i, i < n -> off + i < Datatypes.length l.
Proof. intros Hc i Hi. apply lookup_lt_Some with (f i). by apply Hc. Qed.

(** After the array of [o] is overwritten with [zs], [o] has value [zs]. *)
Lemma value_fill w o pt b off l (zs : list K) :
  objs w !! o = Some pt -> pstart_ pt = Addr b off -> n_ pt = Datatypes.length zs ->
  blocks w !! b = Some l -> (forall i, i < Datatypes.length zs -> off + i < Datatypes.length l) ->
  value (with_blocks (<[b := fill l off (Datatypes.length zs) (fun i => Some (zs !!! i))]>) w) o = Some zs.
Proof.
  intros Ho Hp Hn Hb Hin. unfold value. simpl. rewrite Ho. simpl. rewrite Hp, Hn.
  apply read_cells_Addr. eexists. split; [apply lookup_insert_eq|]. split; [done|].
  intros i x Hx. pose proof (lookup_lt_Some _ _ _ Hx) as Hi.
  rewrite fill_lookup, decide_True by (split; [lia|by apply Hin]).
  rewrite Nat.add_comm, Nat.add_sub. by rewrite (list_lookup_total_correct _ _ _ Hx).
Qed.

(** Writing one array leaves the value of every point that does not use it. *)
Lemma value_other_block w o pt b l' :
  objs w !! o = Some pt -> (forall off, pstart_ pt <> Addr b off) ->
  value (with_blocks (<[b := l']>) w) o = value w o.
Proof.
  intros Ho Hp. unfold value. simpl. rewrite Ho. simpl.
  destruct (pstart_ pt) as [|b' off] eqn:E; [done|]. simpl.
  rewrite lookup_insert_ne; [done|]. intros ->. by apply (Hp off).
Qed.

(** Two pointers into different arrays (a null pointer is into none). *)
Definition apart (p q : Ptr) : Prop :=
  match p, q with Addr b _, Addr b' _ => b <> b' | _, _ => True end.

(** A cell not yet written by the loop still reads as before. *)
Lemma load_val_fill_before w b off l k vals i x :
  blocks w !! b = Some l -> k <= i -> l !! (off + i) = Some (Some x) ->
  load_val (Addr b off) i (with_blocks (<[b := fill l off k vals]>) w) =
    inr (x, with_blocks (<[b := fill l off k vals]>) w).
Proof.
  intros Hb Hk Hc. apply (load_val_Some _ _ _ (fill l off k vals)); [apply lookup_insert_eq|].
  rewrite fill_lookup, decide_False by lia. done.
Qed.

(** A cell of another array still reads as before. *)
Lemma load_val_other_block w b b' off' l' i x :
  b <> b' -> load_val (Addr b' off') i w = inr (x, w) ->
  load_val (Addr b' off') i (with_blocks (<[b := l']>) w) = inr (x, with_blocks (<[b := l']>) w).
Proof. intros Hne. apply load_val_local. simpl. by rewrite lookup_insert_ne. Qed.

(** [operator +=] and [operator -=] as a whole: with the dimensions equal,
    [o]'s array is overwritten with [f x_i y_i]; this holds when [v] is
    [o] itself or uses another array. *)
Lemma zip_assign_fill debug f o v w pt pv b off l xs ys :
  objs w !! o = Some pt -> objs w !! v = Some pv -> pstart_ pt = Addr b off ->
  value w o = Some xs -> value w v = Some ys -> Datatypes.length xs = Datatypes.length ys ->
  blocks w !! b = Some l ->
  pstart_ pv = pstart_ pt \/ apart (pstart_ pt) (pstart_ pv) ->
  zip_assign debug f o v w =
    inr (tt, with_blocks (<[b := fill l off (Datatypes.length xs)
                                   (fun i => Some (f (xs !!! i) (ys !!! i)))]>) w).
Proof.
  intros Ho Hv Hp Hxs Hys Hlen Hb Hsep.
  destruct (value_cells _ _ _ _ _ _ Ho Hp Hxs) as (l0 & Hb0 & Hn & Hx). simplify_eq.
  destruct (value_load_total _ _ _ Hys) as (pv' & Hv' & Hnv & Hy). simplify_eq.
  unfold zip_assign, mbind, PM_bind at 1 2 3.
  rewrite (get_obj_Some _ _ _ Ho), (get_obj_Some _ _ _ Hv), Hn, Hnv, <- Hlen, Nat.eqb_refl.
  simpl negb. rewrite DEBUG_ERROR_IF_false. unfold mret at 1, PM_ret at 1. rewrite Hp.
  rewrite (mfor_ext _ _ (fun i => c ← (a ← load_val (Addr b off) i; c ← load_val (pstart_ pv) i;
                                         mret (Some (f a c))); store (Addr b off) i c)).
  2:{ intros i w'. unfold mbind, PM_bind, mret, PM_ret.
      destruct (load_val (Addr b off) i w') as [|[a w1]]; [done|].
      by destruct (load_val (pstart_ pv) i w1) as [|[c w2]]. }
  apply mfor_write; [done|apply (cells_in_bounds _ _ _ _ Hx)|].
  intros i Hi. unfold mbind, PM_bind at 1.
  set (vals := fun j => Some (f (xs !!! j) (ys !!! j))).
  rewrite (load_val_fill_before w b off l i vals i (xs !!! i) Hb) by (lia || by apply Hx).
  unfold mbind, PM_bind.
  destruct Hsep as [Heq|Hap].
  - rewrite Heq, Hp, (load_val_fill_before w b off l i vals i (xs !!! i) Hb) by (lia || by apply Hx).
    enough (xs !!! i = ys !!! i) as -> by done.
    specialize (Hy i ltac:(lia)). rewrite Heq, Hp, (load_val_Some _ _ _ _ (xs !!! i) _ Hb (Hx i Hi)) in Hy.
    by simplify_eq.
  - rewrite Hp in Hap. destruct (pstart_ pv) as [|b' off'] eqn:Epv.
    + simpl in Hy. specialize (Hy i ltac:(lia)). unfold load_val, load, mbind, PM_bind, throw in Hy. done.
    + rewrite (load_val_other_block _ _ _ _ _ _ (ys !!! i) Hap) by (apply Hy; lia). done.
Qed.

Lemma apart_Addr b off p : apart (Addr b off) p -> forall off', p <> Addr b off'.
Proof. destruct p; simpl; congruence. Qed.

(** The loop of [operator +=] / [operator -=] on values: [o] gets
    [zip_with f xs ys] and every point using another array keeps its
    value; [v] may be [o] itself. *)
Lemma zip_assign_value debug f o v w pt xs ys :
  objs w !! o = Some pt -> value w o = Some xs -> value w v = Some ys ->
  Datatypes.length xs = Datatypes.length ys ->
  (v = o \/ forall pv, objs w !! v = Some pv -> apart (pstart_ pt) (pstart_ pv)) ->
  exists w', zip_assign debug f o v w = inr (tt, w') /\
    value w' o = Some (zip_with f xs ys) /\
    forall o' pt', objs w !! o' = Some pt' -> apart (pstart_ pt) (pstart_ pt') ->
      value w' o' = value w o'.
Proof.
  intros Ho Hxs Hys Hlen Hsep.
  destruct (value_load_total _ _ _ Hys) as (pv & Hv & Hnv & _).
  destruct (pstart_ pt) as [|b off] eqn:Hp.
  - (* no array: dimension 0 *)
    unfold value in Hxs. rewrite Ho in Hxs. simpl in Hxs. rewrite Hp in Hxs. simpl in Hxs.
    case_decide as Hn0; simplify_eq/=. exists w.
    unfold zip_assign, mbind, PM_bind.
    rewrite (get_obj_Some _ _ _ Ho), (get_obj_Some _ _ _ Hv), Hn0, Hnv, <- Hlen.
    simpl. rewrite DEBUG_ERROR_IF_false. split; [reflexivity|]. split; [|done].
    unfold value. rewrite Ho. simpl. rewrite Hp. simpl. by rewrite decide_True.
  - destruct (value_cells _ _ _ _ _ _ Ho Hp Hxs) as (l & Hb & Hn & Hx).
    eexists. split.
    + apply (zip_assign_fill _ _ _ _ _ pt pv b off l); try done.
      destruct Hsep as [->|Hap]; [left; congruence|right; rewrite Hp; by apply Hap].
    + split.
      * rewrite (fill_ext _ _ _ _ (fun i => Some (zip_with f xs ys !!! i))).
        { rewrite <- (length_zip_with_l_eq f xs ys Hlen).
          apply (value_fill _ _ pt); try done.
          - by rewrite length_zip_with_l_eq.
          - rewrite length_zip_with_l_eq by done. apply (cells_in_bounds _ _ _ _ Hx). }
        intros i Hi. by rewrite (@lookup_total_zip_with K K K f K_inhabited K_inhabited K_inhabited) by lia.
      * intros o' pt' Ho' Hap. apply value_other_block with pt'; [done|].
        by apply (apart_Addr b off).
Qed.

(** C18. [operator +=] on values: [this] gets the pointwise sum of the two
    values and every point on another array keeps its value; the argument
    may be [this] itself ([p += p] doubles [p]) or any point on another
    array. *)
Theorem add_assign_value debug o v w pt xs ys :
  objs w !! o = Some pt -> value w o = Some xs -> value w v = Some ys ->
  Datatypes.length xs = Datatypes.length ys ->
  (v = o \/ forall pv, objs w !! v = Some pv -> apart (pstart_ pt) (pstart_ pv)) ->
  exists w', add_assign debug o v w = inr (tt, w') /\
    value w' o = Some (zip_with sadd xs ys) /\
    forall o' pt', objs w !! o' = Some pt' -> apart (pstart_ pt) (pstart_ pt') ->
      value w' o' = value w o'.
Proof. apply zip_assign_value. Qed.

(** The scan of [operator <] over two lists of values, from index [i - 1]
    down to [0]. *)
Fixpoint lt_scan (xs ys : list K) (i : nat) : bool :=
  match i with
  | 0 => false
  | S i' => if sltb (ys !!! i') (xs !!! i') then false
            else if sltb (xs !!! i') (ys !!! i') then true
            else lt_scan xs ys i'
  end.

Lemma lt_loop_scan w p1 p2 xs ys i :
  i <= Datatypes.length xs -> i <= Datatypes.length ys ->
  (forall j, j < Datatypes.length xs -> load_val p1 j w = inr (xs !!! j, w)) ->
  (forall j, j < Datatypes.length ys -> load_val p2 j w = inr (ys !!! j, w)) ->
  lt_loop p1 p2 i w = inr (lt_scan xs ys i, w).
Proof.
  intros Hi1 Hi2 Hx Hy. induction i as [|i IH]; [done|]. simpl.
  unfold mbind, PM_bind. rewrite Hx, Hy by lia.
  destruct (sltb _ _); [done|]. destruct (sltb _ _); [done|]. apply IH; lia.
Qed.

(** [operator <] on two points with values: the scan of their values. *)
Lemma Point_lt_scan debug o1 o2 w xs ys :
  value w o1 = Some xs -> value w o2 = Some ys -> Datatypes.length xs = Datatypes.length ys ->
  Point_lt debug o1 o2 w = inr (lt_scan xs ys (Datatypes.length xs), w).
Proof.
  intros (p1 & Ho1 & Hn1 & Hx)%value_load_total (p2 & Ho2 & Hn2 & Hy)%value_load_total Hlen.
  unfold Point_lt, mbind, PM_bind at 1 2 3.
  rewrite (get_obj_Some _ _ _ Ho1), (get_obj_Some _ _ _ Ho2), Hn1, Hn2, Hlen, Nat.eqb_refl.
  simpl negb. rewrite DEBUG_ERROR_IF_false. unfold mret at 1, PM_ret at 1.
  rewrite <- Hlen. apply lt_loop_scan; auto with lia.
Qed.

(** The raw cells of a point with a value read as that value. *)
Lemma value_load_raw w o pt xs i :
  objs w !! o = Some pt -> value w o = Some xs -> i < Datatypes.length xs ->
  load (pstart_ pt) i w = inr (Some (xs !!! i), w).
Proof.
  intros Ho Hv Hi. destruct (pstart_ pt) as [|b off] eqn:Hp.
  - unfold value in Hv. rewrite Ho in Hv. simpl in Hv. rewrite Hp in Hv. simpl in Hv.
    case_decide; simplify_eq/=. lia.
  - destruct (value_cells _ _ _ _ _ _ Ho Hp Hv) as (l & Hb & _ & Hx).
    exact (load_Some _ _ _ _ _ _ Hb (Hx i Hi)).
Qed.

(** The world after allocating a new array holding [xs] and a new owning
    point on it. *)
Definition world_with_copy w (xs : list K) : World K :=
  Build_World (<[next_blk w := Some <$> xs]> (blocks w)) (S (next_blk w))
    (<[next_obj w := {| pstart_ := Addr (next_blk w) 0; n_ := Datatypes.length xs; owns_ := true |}]>
       (objs w))
    (S (next_obj w)).

(** The copy constructor [Point(const Point& v)] copies [v]'s value into a
    fresh array owned by a fresh point. *)
Lemma Point_copy_spec v w xs :
  value w v = Some xs -> blocks w !! next_blk w = None ->
  Point_copy v w = inr (next_obj w, world_with_copy w xs).
Proof.
  intros Hv Hfresh. destruct (value_load_total _ _ _ Hv) as (pv & Ho & Hn & _).
  unfold Point_copy, mbind, PM_bind at 1 2 3. rewrite (get_obj_Some _ _ _ Ho), Hn.
  unfold new_array. unfold copy_cells.
  set (w1 := Build_World _ _ _ _).
  rewrite (mfor_write (next_blk w) 0 (replicate (Datatypes.length xs) None) _ _
             (fun i => Some (xs !!! i)) w1); cycle 1.
  - simpl. apply lookup_insert_eq.
  - intros i Hi. rewrite length_replicate. lia.
  - intros i Hi. destruct (pstart_ pv) as [|b off] eqn:Hp.
    + pose proof (value_load_raw _ _ _ _ i Ho Hv Hi) as E. rewrite Hp in E. done.
    + apply (load_local _ _ _ _ w); [|rewrite <- Hp; by apply (value_load_raw _ v)].
      simpl. rewrite !lookup_insert_ne; [done|..]; intros <-.
      * destruct (value_cells _ _ _ _ _ _ Ho Hp Hv) as (l & Hb & _). congruence.
      * destruct (value_cells _ _ _ _ _ _ Ho Hp Hv) as (l & Hb & _). congruence.
  - rewrite fill_replicate. unfold new_obj, world_with_copy. simpl.
    by rewrite insert_insert_eq.
Qed.

(** The array a point frees when destroyed. *)
Definition release_blocks (pt : Point) (bs : gmap nat (list (option K))) : gmap nat (list (option K)) :=
  match owns_ pt, pstart_ pt with true, Addr b _ => delete b bs | _, _ => bs end.

(** A destructor may free only a null pointer or the start of a live
    array: what an owning point holds. *)
Definition owned_ok (w : World K) (pt : Point) : Prop :=
  owns_ pt = true -> pstart_ pt = Null \/ exists b, pstart_ pt = Addr b 0 /\ is_Some (blocks w !! b).

(** The tail [swap(temp); ~temp()] of [operator =] and [resize]: [o] takes
    [temp]'s members, [temp] is gone, and [o]'s old array is freed when it
    owned it. *)
Lemma swap_destroy o t w pt pt_t :
  objs w !! o = Some pt -> objs w !! t = Some pt_t -> o <> t -> owned_ok w pt ->
  (swap o t;; Point_destroy t) w =
    inr (tt, Build_World (release_blocks pt (blocks w)) (next_blk w)
                         (<[o := pt_t]> (delete t (objs w))) (next_obj w)).
Proof.
  intros Ho Ht Hne Hown.
  unfold swap, Point_destroy, get_obj, set_obj, del_obj, mbind, PM_bind, mret, PM_ret.
  rewrite Ho, Ht. simpl. rewrite lookup_insert_eq. simpl.
  assert (Hobjs : delete t (<[t := pt]> (<[o := pt_t]> (objs w))) = <[o := pt_t]> (delete t (objs w)))
    by (by rewrite delete_insert_eq, delete_insert_ne).
  unfold release_blocks. destruct (owns_ pt) eqn:Eo.
  - destruct (Hown Eo) as [Hn|(b & Hb & Hs)]; rewrite ?Hn, ?Hb; simpl;
      [|rewrite decide_True by done]; unfold with_objs, with_blocks; simpl; by rewrite Hobjs.
  - unfold with_objs. simpl. by rewrite Hobjs.
Qed.

(** The value of a point whose array is a fresh copy of [ys]. *)
Lemma value_fresh_array (w : World K) o nb ys :
  objs w !! o = Some {| pstart_ := Addr nb 0; n_ := Datatypes.length ys; owns_ := true |} ->
  blocks w !! nb = Some (Some <$> ys) -> value w o = Some ys.
Proof.
  intros Ho Hb. unfold value. rewrite Ho.
  apply (read_cells_Addr w nb 0 (Datatypes.length ys) ys). exists (Some <$> ys).
  split; [done|]. split; [done|]. intros i x Hx. simpl. by rewrite list_lookup_fmap, Hx.
Qed.

(** C19. [operator =(const Point& v)] by copy and swap: [this] ends up
    owning a fresh copy of [v]'s value, its old array is freed when it
    owned one, the temporary is gone, and no other point changes.  [v] may
    be [this] itself: self-assignment keeps the value and leaks nothing. *)
Theorem assign_spec o v w pt ys :
  objs w !! o = Some pt -> value w v = Some ys ->
  blocks w !! next_blk w = None -> objs w !! next_obj w = None -> owned_ok w pt ->
  assign o v w =
    inr (tt, Build_World (<[next_blk w := Some <$> ys]> (release_blocks pt (blocks w)))
               (S (next_blk w))
               (<[o := {| pstart_ := Addr (next_blk w) 0; n_ := Datatypes.length ys;
                          owns_ := true |}]> (objs w))
               (S (next_obj w))) /\
    value (Build_World (<[next_blk w := Some <$> ys]> (release_blocks pt (blocks w)))
               (S (next_blk w))
               (<[o := {| pstart_ := Addr (next_blk w) 0; n_ := Datatypes.length ys;
                          owns_ := true |}]> (objs w))
               (S (next_obj w))) o = Some ys.
Proof.
  intros Ho Hv Hfb Hfo Hown. assert (Hne : o <> next_obj w) by congruence.
  split; [|apply (value_fresh_array _ _ (next_blk w)); apply lookup_insert_eq].
  unfold assign. rewrite (PM_bind_inr _ _ _ _ _ (Point_copy_spec v w ys Hv Hfb)).
  unfold world_with_copy. cbv beta.
  rewrite (swap_destroy o (next_obj w) _ pt {| pstart_ := Addr (next_blk w) 0; n_ := Datatypes.length ys; owns_ := true |}); cycle 1.
  - simpl. by rewrite lookup_insert_ne.
  - apply lookup_insert_eq.
  - done.
  - intros Eo. destruct (Hown Eo) as [Hn|(b & Hb & Hs)]; [by left|right; exists b].
    split; [done|]. simpl. rewrite lookup_insert_ne; [done|]. intros <-.
    destruct Hs; congruence.
  - simpl. do 3 f_equal.
    + unfold release_blocks. destruct (owns_ pt) eqn:Eo; [|done].
      destruct (pstart_ pt) as [|b off] eqn:Hp; [done|].
      destruct (Hown Eo) as [?|(b' & Hb' & Hs)]; [congruence|]. simplify_eq.
      rewrite delete_insert_ne; [done|]. intros Heq. subst. destruct Hs; congruence.
    + by rewrite delete_insert_id by done.
Qed.

(** [Point(int dim)]: a fresh array of [dim] uninitialised cells owned by
    a fresh point. *)
Lemma Point_dim_spec d w :
  Point_dim d w =
    inr (next_obj w,
         Build_World (<[next_blk w := replicate d None]> (blocks w)) (S (next_blk w))
           (<[next_obj w := {| pstart_ := Addr (next_blk w) 0; n_ := d; owns_ := true |}]> (objs w))
           (S (next_obj w))).
Proof. done. Qed.

(** Shrinking keeps the array: the point keeps the first [d] values. *)
Lemma resize_shrink o d w pt xs :
  objs w !! o = Some pt -> value w o = Some xs -> d <= Datatypes.length xs ->
  resize o d w = inr (tt, with_objs (<[o := {| pstart_ := pstart_ pt; n_ := d; owns_ := owns_ pt |}]>) w) /\
  value (with_objs (<[o := {| pstart_ := pstart_ pt; n_ := d; owns_ := owns_ pt |}]>) w) o =
    Some (take d xs).
Proof.
  intros Ho Hv Hd. destruct (value_load_total _ _ _ Hv) as (pt' & Ho' & Hn & _). simplify_eq.
  split.
  - unfold resize. rewrite (PM_bind_inr _ _ _ _ _ (get_obj_Some _ _ _ Ho)).
    rewrite decide_False by lia. reflexivity.
  - unfold value. simpl. rewrite lookup_insert_eq. simpl.
    destruct (pstart_ pt) as [|b off] eqn:Hp.
    + unfold value in Hv. rewrite Ho in Hv. simpl in Hv. rewrite Hp in Hv. simpl in Hv.
      case_decide; simplify_eq/=. rewrite decide_True by lia. by rewrite take_nil.
    + destruct (value_cells _ _ _ _ _ _ Ho Hp Hv) as (l & Hb & _ & Hx).
      apply (read_cells_Addr (with_objs _ w) b off d (take d xs)). exists l.
      split; [done|]. split; [rewrite length_take; lia|].
      intros i x Hi. apply lookup_take_Some in Hi as [Hi Hlt].
      rewrite (Hx i) by (apply lookup_lt_Some in Hi; lia).
      by rewrite (list_lookup_total_correct _ _ _ Hi).
Qed.

(** Growing swaps in a fresh array of [d] uninitialised cells and frees the
    old one when owned. *)
Lemma resize_grow o d w pt :
  objs w !! o = Some pt -> n_ pt < d ->
  blocks w !! next_blk w = None -> objs w !! next_obj w = None -> owned_ok w pt ->
  resize o d w =
    inr (tt, Build_World (<[next_blk w := replicate d None]> (release_blocks pt (blocks w)))
               (S (next_blk w))
               (<[o := {| pstart_ := Addr (next_blk w) 0; n_ := d; owns_ := true |}]> (objs w))
               (S (next_obj w))).
Proof.
  intros Ho Hd Hfb Hfo Hown. assert (Hne : o <> next_obj w) by congruence.
  unfold resize. rewrite (PM_bind_inr _ _ _ _ _ (get_obj_Some _ _ _ Ho)).
  rewrite decide_True by done. rewrite (PM_bind_inr _ _ _ _ _ (Point_dim_spec d w)).
  rewrite (swap_destroy o (next_obj w) _ pt {| pstart_ := Addr (next_blk w) 0; n_ := d; owns_ := true |}).
  - simpl. do 3 f_equal.
    + unfold release_blocks. destruct (owns_ pt) eqn:Eo; [|done].
      destruct (pstart_ pt) as [|b off] eqn:Hp; [done|].
      destruct (Hown Eo) as [?|(b' & Hb' & Hs)]; [congruence|]. simplify_eq.
      rewrite delete_insert_ne; [done|]. intros Heq. subst. destruct Hs; congruence.
    + by rewrite delete_insert_id by done.
  - simpl. by rewrite lookup_insert_ne.
  - apply lookup_insert_eq.
  - done.
  - intros Eo. destruct (Hown Eo) as [Hn|(b & Hb & Hs)]; [by left|right; exists b].
    split; [done|]. simpl. rewrite lookup_insert_ne; [done|]. intros <-.
    destruct Hs; congruence.
Qed.

(** C20. [resize(d)]: when [d] is at most the dimension the point keeps its
    array and its first [d] coordinates (the header's "This loses all info
    in the point" does not hold); when [d] is larger the point gets a
    fresh array of [d] uninitialised coordinates, so that every read
    [p[i]] is undefined. *)
Theorem resize_spec o d w pt xs :
  objs w !! o = Some pt -> value w o = Some xs ->
  blocks w !! next_blk w = None -> objs w !! next_obj w = None -> owned_ok w pt ->
  (d <= Datatypes.length xs ->
     exists w', resize o d w = inr (tt, w') /\ value w' o = Some (take d xs)) /\
  (Datatypes.length xs < d ->
     exists w', resize o d w = inr (tt, w') /\ size o w' = inr (d, w') /\
       forall i, get o i w' = inl UndefinedBehaviour).
Proof.
  intros Ho Hv Hfb Hfo Hown. split.
  - intros Hd. destruct (resize_shrink o d w pt xs Ho Hv Hd) as [E V]. by eexists.
  - intros Hd. destruct (value_load_total _ _ _ Hv) as (pt' & Ho' & Hn & _). simplify_eq.
    eexists. split; [apply resize_grow; (done || lia)|]. split.
    + unfold size. rewrite (PM_bind_inr _ _ _ _ _ (get_obj_Some _ _ _ (lookup_insert_eq _ _ _))).
      done.
    + intros i. unfold get. rewrite (PM_bind_inr _ _ _ _ _ (get_obj_Some _ _ _ (lookup_insert_eq _ _ _))).
      case_decide; [done|]. cbn [pstart_]. unfold load_val, load, mbind, PM_bind. simpl.
      rewrite lookup_insert_eq. simpl.
      destruct (decide (Z.to_nat i < d)).
      * by rewrite lookup_replicate_2 by lia.
      * by rewrite lookup_ge_None_2 by (rewrite length_replicate; lia).
Qed.

(** [Point(x, y, z)]. *)
Lemma Point_xyz_spec x y z w :
  Point_xyz x y z w =
    inr (next_obj w,
         Build_World (<[next_blk w := [Some x; Some y; Some z]]> (blocks w)) (S (next_blk w))
           (<[next_obj w := {| pstart_ := Addr (next_blk w) 0; n_ := 3; owns_ := true |}]> (objs w))
           (S (next_obj w))).
Proof.
  unfold Point_xyz, new_array, store, new_obj, mbind, PM_bind, mret, PM_ret. simpl.
  unfold with_blocks. repeat progress (simpl; rewrite ?lookup_insert_eq, ?insert_insert_eq).
  done.
Qed.

(** A freshly allocated array does not change the value of an existing
    point. *)
Lemma value_alloc w o nb l pt' no xs :
  blocks w !! nb = None -> o <> no -> value w o = Some xs ->
  value (Build_World (<[nb := l]> (blocks w)) (S nb) (<[no := pt']> (objs w)) (S no)) o = Some xs.
Proof.
  intros Hnb Hne Hv. unfold value in *. simpl. rewrite lookup_insert_ne by done.
  destruct (objs w !! o) as [pt|] eqn:Ho; [|done]. simpl in *.
  destruct (pstart_ pt) as [|b off]; [done|]. simpl in *.
  rewrite lookup_insert_ne; [done|]. intros ->. by rewrite Hnb in Hv.
Qed.

(** [Point(first, last)] copies the values into a fresh owning array. *)
Lemma Point_of_values_spec vals w :
  Point_of_values vals w =
    inr (next_obj w,
         Build_World (<[next_blk w := Some <$> vals]> (blocks w)) (S (next_blk w))
           (<[next_obj w := {| pstart_ := Addr (next_blk w) 0; n_ := Datatypes.length vals;
                               owns_ := true |}]> (objs w))
           (S (next_obj w))).
Proof.
  set (n := Datatypes.length vals).
  set (w1 := Build_World (<[next_blk w := replicate n None]> (blocks w)) (S (next_blk w))
                         (objs w) (next_obj w)).
  unfold Point_of_values. rewrite (PM_bind_inr _ _ w (Addr (next_blk w) 0) w1 eq_refl).
  assert (Hm : mfor (seq 0 n) (fun i => store (Addr (next_blk w) 0) i (vals !! i)) w1 =
                inr (tt, with_blocks (<[next_blk w := fill (replicate n None) 0 n (vals !!.)]>) w1)).
  { rewrite (mfor_ext _ _ (fun i => c ← mret (vals !! i); store (Addr (next_blk w) 0) i c))
      by done.
    apply mfor_write; [apply lookup_insert_eq| |done].
    intros i Hi. rewrite length_replicate. lia. }
  rewrite (PM_bind_inr _ _ _ _ _ Hm).
  enough (Hf : fill (replicate n None) 0 n (vals !!.) = Some <$> vals).
  { unfold new_obj, with_blocks. simpl. by rewrite insert_insert_eq, Hf. }
  apply list_eq. intros j. rewrite fill_lookup, length_replicate, list_lookup_fmap.
  case_decide as Hj.
  - rewrite Nat.sub_0_r. by destruct (lookup_lt_is_Some_2 vals j) as [x ->]; [lia|].
  - by rewrite !lookup_ge_None_2 by (rewrite ?length_replicate; lia).
Qed.

(** The write [p[i] = x] on a point with a value: the array is [l] with
    cell [off + i] replaced, and the point's value is updated at [i]. *)
Lemma set_value o i x w xs :
  value w o = Some xs -> (0 <= i < Z.of_nat (Datatypes.length xs))%Z ->
  exists w', set o i x w = inr (tt, w') /\ value w' o = Some (<[Z.to_nat i := x]> xs) /\
             objs w' = objs w.
Proof.
  intros Hv Hi. destruct (value_load w o xs Hv) as (pt & Ho & Hn & _).
  destruct (pstart_ pt) as [|b off] eqn:Hp.
  { unfold value in Hv. rewrite Ho in Hv. simpl in Hv. rewrite Hp in Hv. simpl in Hv.
    case_decide; simplify_eq/=; lia. }
  destruct (value_cells w o pt b off xs Ho Hp Hv) as (l & Hb & _ & Hc).
  assert (Hin : off + Z.to_nat i < Datatypes.length l)
    by (apply (cells_in_bounds l off (Datatypes.length xs) (fun j => Some (xs !!! j))); [done|lia]).
  eexists. unfold set. rewrite (PM_bind_inr _ _ _ _ _ (get_obj_Some _ _ _ Ho)), Hp.
  rewrite decide_False by lia. unfold store. rewrite Hb, decide_True by done.
  split; [done|]. split; [|done].
  unfold value. simpl. rewrite Ho. simpl. rewrite Hp, Hn.
  apply read_cells_Addr. eexists. split; [apply lookup_insert_eq|].
  rewrite length_insert. split; [done|]. intros j y Hy.
  rewrite list_lookup_insert by done. destruct (decide (j = Z.to_nat i)) as [->|Hne].
  - rewrite decide_True by done. by rewrite list_lookup_insert_eq in Hy by lia; simplify_eq.
  - rewrite decide_False by lia. rewrite list_lookup_insert_ne in Hy by done.
    rewrite Hc by (eapply lookup_lt_Some; eauto). by rewrite (list_lookup_total_correct _ _ _ Hy).
Qed.

(** C21. Construct and read back: [Point(first, last)] never fails,
    whatever the world; the new point, at the next free address, has
    exactly the values of the range, and, when the next array is fresh,
    every other point keeps its value. *)
Theorem Point_of_values_roundtrip vals w :
  exists w', Point_of_values vals w = inr (next_obj w, w') /\
    value w' (next_obj w) = Some vals /\
    (forall o xs, blocks w !! next_blk w = None -> o <> next_obj w ->
       value w o = Some xs -> value w' o = Some xs).
Proof.
  eexists. split; [apply Point_of_values_spec|]. split.
  - apply (value_fresh_array _ _ (next_blk w)); simpl; by rewrite lookup_insert_eq.
  - intros o xs Hb Hne Hv. by apply (value_alloc w o (next_blk w)).
Qed.

(** C22. Write and read back: on a point with a value [xs], for
    [0 <= i < size()], [p[i] = x] succeeds, [p[i]] then reads [x], and the
    value is [xs] with entry [i] replaced. *)
Theorem set_get_roundtrip o i x w xs :
  value w o = Some xs -> (0 <= i < Z.of_nat (Datatypes.length xs))%Z ->
  exists w', set o i x w = inr (tt, w') /\ get o i w' = inr (x, w') /\
             value w' o = Some (<[Z.to_nat i := x]> xs).
Proof.
  intros Hv Hi. destruct (set_value o i x w xs Hv Hi) as (w' & Es & Hv' & Hobjs).
  exists w'. split; [done|]. split; [|done].
  destruct (value_load w' o _ Hv') as (pt & Ho & _ & Hl).
  unfold get. rewrite (PM_bind_inr _ _ _ _ _ (get_obj_Some _ _ _ Ho)), decide_False by lia.
  apply Hl. apply list_lookup_insert_eq. lia.
Qed.

(** [operator %(const Point& v)] on 3D points: a fresh point holding the
    cross product. *)
Lemma cross_spec debug o v w xs ys :
  value w o = Some xs -> value w v = Some ys ->
  Datatypes.length xs = 3 -> Datatypes.length ys = 3 ->
  cross debug o v w =
    inr (next_obj w,
         Build_World (<[next_blk w := Some <$> cross3 xs ys]> (blocks w)) (S (next_blk w))
           (<[next_obj w := {| pstart_ := Addr (next_blk w) 0; n_ := 3; owns_ := true |}]> (objs w))
           (S (next_obj w))).
Proof.
  intros (pt & Ho & Hn & Hx)%value_load_total (pv & Hv & Hnv & Hy)%value_load_total Hl1 Hl2.
  unfold cross. rewrite (PM_bind_inr _ _ _ _ _ (get_obj_Some _ _ _ Ho)),
    (PM_bind_inr _ _ _ _ _ (get_obj_Some _ _ _ Hv)), Hn, Hnv, Hl1, Hl2. simpl.
  rewrite DEBUG_ERROR_IF_false.
  rewrite (PM_bind_inr _ _ _ _ _ (eq_refl (inr (tt, w)))).
  rewrite (PM_bind_inr _ _ _ _ _ (Hx 0 ltac:(lia))), (PM_bind_inr _ _ _ _ _ (Hx 1 ltac:(lia))),
    (PM_bind_inr _ _ _ _ _ (Hx 2 ltac:(lia))), (PM_bind_inr _ _ _ _ _ (Hy 0 ltac:(lia))),
    (PM_bind_inr _ _ _ _ _ (Hy 1 ltac:(lia))), (PM_bind_inr _ _ _ _ _ (Hy 2 ltac:(lia))).
  apply Point_xyz_spec.
Qed.

(** One statement of [setToCrossProd]. *)
Lemma cross_cell_spec o u v k i j w pt b off l pu pv ui uj vi vj :
  objs w !! o = Some pt -> pstart_ pt = Addr b off -> blocks w !! b = Some l ->
  off + k < Datatypes.length l -> objs w !! u = Some pu -> objs w !! v = Some pv ->
  load_val (pstart_ pu) i w = inr (ui, w) -> load_val (pstart_ pv) j w = inr (vj, w) ->
  load_val (pstart_ pu) j w = inr (uj, w) -> load_val (pstart_ pv) i w = inr (vi, w) ->
  cross_cell o u v k i j w =
    inr (tt, with_blocks (<[b := <[off + k := Some (ssub (smul ui vj) (smul uj vi))]> l]>) w).
Proof.
  intros Ho Hp Hb Hk Hu Hv H1 H2 H3 H4. unfold cross_cell.
  rewrite (PM_bind_inr _ _ _ _ _ (get_obj_Some _ _ _ Ho)), (PM_bind_inr _ _ _ _ _ (get_obj_Some _ _ _ Hu)),
    (PM_bind_inr _ _ _ _ _ (get_obj_Some _ _ _ Hv)), (PM_bind_inr _ _ _ _ _ H1),
    (PM_bind_inr _ _ _ _ _ H2), (PM_bind_inr _ _ _ _ _ H3), (PM_bind_inr _ _ _ _ _ H4), Hp.
  unfold store. rewrite Hb, decide_True by done. done.
Qed.

(** The reads of a 3D point whose array is not [b] survive writes to [b]. *)
Lemma reads_apart w o pt b off xs :
  objs w !! o = Some pt -> value w o = Some xs -> Datatypes.length xs = 3 ->
  apart (Addr b off) (pstart_ pt) ->
  exists b' off', pstart_ pt = Addr b' off' /\ b <> b' /\
    forall i l', i < 3 -> load_val (pstart_ pt) i (with_blocks (<[b := l']>) w) =
                           inr (xs !!! i, with_blocks (<[b := l']>) w).
Proof.
  intros Ho Hv Hl Hap. destruct (value_load_total _ _ _ Hv) as (pt' & Ho' & Hn & Hx).
  rewrite Ho in Ho'. injection Ho' as <-.
  destruct (pstart_ pt) as [|b' off'] eqn:Hp.
  - specialize (Hx 0 ltac:(lia)). rewrite ?Hp in Hx.
    cbv [load_val load mbind PM_bind throw] in Hx. discriminate.
  - exists b', off'. split; [done|]. split; [done|]. intros i l' Hi.
    apply load_val_other_block; [done|]. specialize (Hx i ltac:(lia)). by rewrite ?Hp in Hx.
Qed.

(** The side conditions of [cross_cell_spec] inside [cross_cells]. *)
Local Ltac cc_side Ru0 Rv0 Ru Rv :=
  first [done | (apply Ru0; lia) | (apply Rv0; lia) | (apply Ru; lia) | (apply Rv; lia)
        | apply lookup_insert_eq | (rewrite ?length_insert; lia)].

(** The three statements of [setToCrossProd] writing into an array [b]
    that neither argument uses. *)
Lemma cross_cells w o u v pt b off l pu pv us vs :
  objs w !! o = Some pt -> pstart_ pt = Addr b off -> blocks w !! b = Some l ->
  off + 3 <= Datatypes.length l ->
  objs w !! u = Some pu -> objs w !! v = Some pv -> value w u = Some us -> value w v = Some vs ->
  Datatypes.length us = 3 -> Datatypes.length vs = 3 ->
  apart (Addr b off) (pstart_ pu) -> apart (Addr b off) (pstart_ pv) ->
  (cross_cell o u v 0 1 2;; cross_cell o u v 1 2 0;; cross_cell o u v 2 0 1) w =
    inr (tt, with_blocks (<[b := fill l off 3 (fun k => Some (cross3 us vs !!! k))]>) w).
Proof.
  intros Ho Hp Hb Hl Hu Hv Hus Hvs L1 L2 A1 A2.
  destruct (reads_apart _ _ _ _ _ _ Hu Hus L1 A1) as (bu & ou & Epu & Nu & Ru).
  destruct (reads_apart _ _ _ _ _ _ Hv Hvs L2 A2) as (bv & ov & Epv & Nv & Rv).
  assert (Ru0 : forall i, i < 3 -> load_val (pstart_ pu) i w = inr (us !!! i, w))
    by (intros i Hi; pose proof (Ru i l Hi) as E; by rewrite with_blocks_id in E).
  assert (Rv0 : forall i, i < 3 -> load_val (pstart_ pv) i w = inr (vs !!! i, w))
    by (intros i Hi; pose proof (Rv i l Hi) as E; by rewrite with_blocks_id in E).
  erewrite PM_bind_inr; [|apply (cross_cell_spec o u v 0 1 2 w pt b off l pu pv);
                          cc_side Ru0 Rv0 Ru Rv].
  erewrite PM_bind_inr; [|eapply (cross_cell_spec o u v 1 2 0 _ pt b off _ pu pv);
                          cc_side Ru0 Rv0 Ru Rv].
  rewrite with_blocks_insert_insert.
  erewrite cross_cell_spec; [|cc_side Ru0 Rv0 Ru Rv..].
  rewrite with_blocks_insert_insert. done.
Qed.

(** The array of a point holds at least its [n_] cells. *)
Definition cap_ok (w : World K) (pt : Point) : Prop :=
  match pstart_ pt with
  | Null => n_ pt = 0
  | Addr b off => exists l, blocks w !! b = Some l /\ off + n_ pt <= Datatypes.length l
  end.

(** A point's value depends only on its members and its array. *)
Lemma value_frame w w' o pt :
  objs w !! o = Some pt -> objs w' !! o = Some pt ->
  (forall b off, pstart_ pt = Addr b off -> blocks w' !! b = blocks w !! b) ->
  value w' o = value w o.
Proof.
  intros Ho Ho' Hb. unfold value. rewrite Ho, Ho'. simpl.
  destruct (pstart_ pt) as [|b off] eqn:Hp; [done|]. simpl. by rewrite (Hb b off).
Qed.

Lemma value_array w o pt xs b off :
  objs w !! o = Some pt -> value w o = Some xs -> pstart_ pt = Addr b off -> is_Some (blocks w !! b).
Proof. intros Ho Hv Hp. destruct (value_cells _ _ _ _ _ _ Ho Hp Hv) as (l & Hb & _). by exists l. Qed.

(** The three statements of [setToCrossProd] on values: [o] gets the cross
    product in its array [b] and the arguments, on other arrays, keep
    theirs. *)
Lemma cross_into w o u v pt b off l pu pv us vs :
  objs w !! o = Some pt -> pstart_ pt = Addr b off -> n_ pt = 3 -> blocks w !! b = Some l ->
  off + 3 <= Datatypes.length l ->
  objs w !! u = Some pu -> objs w !! v = Some pv -> value w u = Some us -> value w v = Some vs ->
  Datatypes.length us = 3 -> Datatypes.length vs = 3 ->
  apart (Addr b off) (pstart_ pu) -> apart (Addr b off) (pstart_ pv) ->
  exists w', (cross_cell o u v 0 1 2;; cross_cell o u v 1 2 0;; cross_cell o u v 2 0 1) w = inr (tt, w') /\
    value w' o = Some (cross3 us vs) /\ value w' u = Some us /\ value w' v = Some vs.
Proof.
  intros Ho Hp Hn Hb Hl Hu Hv Hus Hvs L1 L2 A1 A2.
  rewrite (cross_cells w o u v pt b off l pu pv us vs) by done.
  eexists. split; [done|]. split; [|split].
  - apply (value_fill _ _ pt); [done..|simpl; intros; lia].
  - rewrite (value_other_block _ _ pu); [done|done|]. by apply apart_Addr with off.
  - rewrite (value_other_block _ _ pv); [done|done|]. by apply apart_Addr with off.
Qed.

(** [temp = Point(3); swap(temp); ~temp()] in [setToCrossProd]: [o] gets a
    fresh array of three uninitialised cells and its old one is freed
    when it owned it. *)
Lemma swap_in_fresh o w pt :
  objs w !! o = Some pt -> owned_ok w pt -> blocks w !! next_blk w = None ->
  objs w !! next_obj w = None ->
  (temp ← Point_dim 3; swap o temp;; Point_destroy temp) w =
    inr (tt, Build_World (release_blocks pt (<[next_blk w := replicate 3 None]> (blocks w)))
               (S (next_blk w))
               (<[o := {| pstart_ := Addr (next_blk w) 0; n_ := 3; owns_ := true |}]> (objs w))
               (S (next_obj w))).
Proof.
  intros Ho Hown Hfb Hfo.
  rewrite (PM_bind_inr _ _ _ _ _ (Point_dim_spec 3 w)).
  rewrite (swap_destroy o (next_obj w) _ pt {| pstart_ := Addr (next_blk w) 0; n_ := 3; owns_ := true |}).
  - simpl. by rewrite delete_insert_id.
  - simpl. rewrite lookup_insert_ne; [done|congruence].
  - apply lookup_insert_eq.
  - congruence.
  - intros Eo. destruct (Hown Eo) as [Hn|(b & Hb & Hs)]; [by left|right; exists b].
    split; [done|]. simpl. rewrite lookup_insert_ne; [done|]. intros <-. destruct Hs; congruence.
Qed.

(** After [swap_in_fresh], a point apart from [o]'s old array keeps its
    value and is apart from the new one. *)
Lemma fresh_keeps w o pt pt1 p q zs :
  blocks w !! next_blk w = None -> objs w !! p = Some q -> p <> o -> value w p = Some zs ->
  apart (pstart_ pt) (pstart_ q) ->
  value (Build_World (release_blocks pt (<[next_blk w := replicate 3 None]> (blocks w)))
           (S (next_blk w)) (<[o := pt1]> (objs w)) (S (next_obj w))) p = Some zs /\
  apart (Addr (next_blk w) 0) (pstart_ q).
Proof.
  intros Hfb Hq Hpo Hz Hap. destruct (pstart_ q) as [|bq oq] eqn:Hpq.
  - split; [|done]. rewrite <- Hz. apply (value_frame _ _ _ q); [done| |by rewrite Hpq].
    simpl. by rewrite lookup_insert_ne.
  - destruct (value_array _ _ _ _ _ _ Hq Hz Hpq) as [lq Hlq].
    assert (bq <> next_blk w) by congruence.
    split; [|done]. rewrite <- Hz. apply (value_frame _ _ _ q); [done| |].
    + simpl. by rewrite lookup_insert_ne.
    + intros b off Hq'. rewrite Hpq in Hq'. injection Hq' as <- <-.
      simpl. unfold release_blocks.
      destruct (owns_ pt), (pstart_ pt) as [|b' off']; simpl in Hap;
        rewrite ?lookup_delete_ne by done; by rewrite lookup_insert_ne by congruence.
Qed.

(** The fresh array survives the release of the old one. *)
Lemma fresh_block w pt :
  owned_ok w pt -> blocks w !! next_blk w = None ->
  release_blocks pt (<[next_blk w := replicate 3 None]> (blocks w)) !! next_blk w =
    Some (replicate 3 None).
Proof.
  intros Hown Hfb. unfold release_blocks. destruct (owns_ pt) eqn:Eo; [|apply lookup_insert_eq].
  destruct (pstart_ pt) as [|b off] eqn:Hp; [apply lookup_insert_eq|].
  rewrite lookup_delete_ne; [apply lookup_insert_eq|]. intros ->.
  destruct (Hown Eo) as [?|(b' & Hb' & Hs)]; [congruence|]. rewrite Hp in Hb'.
  injection Hb' as <- _. destruct Hs; congruence.
Qed.

(** C16. [setToCrossProd(u, v)] on 3D points, when [this] is neither
    argument and shares no array with them: [this] holds the cross
    product, in its own array when it owns at least three cells and in a
    fresh one otherwise, and the arguments are unchanged. *)
Theorem setToCrossProd_spec debug o u v w pt us vs :
  objs w !! o = Some pt -> value w u = Some us -> value w v = Some vs ->
  Datatypes.length us = 3 -> Datatypes.length vs = 3 -> o <> u -> o <> v ->
  (forall pu, objs w !! u = Some pu -> apart (pstart_ pt) (pstart_ pu)) ->
  (forall pv, objs w !! v = Some pv -> apart (pstart_ pt) (pstart_ pv)) ->
  cap_ok w pt -> owned_ok w pt -> blocks w !! next_blk w = None -> objs w !! next_obj w = None ->
  exists w', setToCrossProd debug o u v w = inr (tt, w') /\
    value w' o = Some (cross3 us vs) /\ value w' u = Some us /\ value w' v = Some vs.
Proof.
  intros Ho Hus Hvs L1 L2 Nou Nov Au Av Hcap Hown Hfb Hfo.
  destruct (value_load_total _ _ _ Hus) as (pu & Hu & Hnu & _).
  destruct (value_load_total _ _ _ Hvs) as (pv & Hv & Hnv & _).
  specialize (Au pu Hu). specialize (Av pv Hv).
  unfold setToCrossProd.
  rewrite (PM_bind_inr _ _ _ _ _ (get_obj_Some _ _ _ Hu)), (PM_bind_inr _ _ _ _ _ (get_obj_Some _ _ _ Hv)),
    Hnu, Hnv, L1, L2. simpl. rewrite !DEBUG_ERROR_IF_false.
  rewrite (PM_bind_inr _ _ _ _ _ (eq_refl (inr (tt, w)))), (PM_bind_inr _ _ _ _ _ (eq_refl (inr (tt, w)))).
  rewrite (PM_bind_inr _ _ _ _ _ (get_obj_Some _ _ _ Ho)).
  destruct (owns_ pt && bool_decide (3 <= n_ pt)) eqn:Ereuse.
  - (* the array is reused *)
    apply andb_prop in Ereuse as [Eown Ecap%bool_decide_eq_true_1].
    unfold cap_ok in Hcap. destruct (pstart_ pt) as [|b off] eqn:Hp; [lia|].
    destruct Hcap as (l & Hb & Hl).
    set (pt1 := {| pstart_ := Addr b off; n_ := 3; owns_ := owns_ pt |}).
    rewrite (PM_bind_inr _ _ _ _ _ (eq_refl (inr (tt, with_objs (<[o := pt1]>) w)))).
    apply (cross_into _ o u v pt1 b off l pu pv); try (simpl; apply lookup_insert_eq); try done; try lia;
      try (simpl; by rewrite lookup_insert_ne); [rewrite <- Hus|rewrite <- Hvs];
      eapply value_frame; try done; simpl; by rewrite lookup_insert_ne.
  - (* a fresh array is swapped in *)
    cbv iota. rewrite (PM_bind_inr _ _ _ _ _ (swap_in_fresh o w pt Ho Hown Hfb Hfo)).
    destruct (fresh_keeps w o pt {| pstart_ := Addr (next_blk w) 0; n_ := 3; owns_ := true |} u pu us)
      as [Vu1 Au1]; [done..|].
    destruct (fresh_keeps w o pt {| pstart_ := Addr (next_blk w) 0; n_ := 3; owns_ := true |} v pv vs)
      as [Vv1 Av1]; [done..|].
    apply (cross_into _ o u v {| pstart_ := Addr (next_blk w) 0; n_ := 3; owns_ := true |}
      (next_blk w) 0 (replicate 3 None) pu pv); try done;
      try (simpl; apply lookup_insert_eq); try (simpl; by rewrite lookup_insert_ne);
      first [by apply fresh_block | rewrite length_replicate; lia].
Qed.

(** The array of a 3D point [o] whose cells [off + m] hold [zs !!! m]. *)
Definition holds3 (l : list (option K)) (off : nat) (zs : list K) : Prop :=
  forall m, m < 3 -> l !! (off + m) = Some (Some (zs !!! m)).

Lemma holds3_insert l off (zs : list K) k x :
  k < 3 -> Datatypes.length zs = 3 -> holds3 l off zs ->
  holds3 (<[off + k := Some x]> l) off (<[k := x]> zs).
Proof.
  intros Hk Hz Hl m Hm. destruct (decide (m = k)) as [->|Hne].
  - rewrite list_lookup_insert_eq by (eapply lookup_lt_Some, Hl; lia).
    by rewrite list_lookup_total_insert_eq by lia.
  - rewrite list_lookup_insert_ne by lia. rewrite list_lookup_total_insert_ne by done. by apply Hl.
Qed.

(** One statement of [p.setToCrossProd(p, v)]: it reads [p]'s cells as they
    are when it runs and writes cell [k]. *)
Lemma cross_cell_self o v k i j w pt b off l pv (zs vs : list K) :
  objs w !! o = Some pt -> pstart_ pt = Addr b off -> blocks w !! b = Some l -> holds3 l off zs ->
  objs w !! v = Some pv -> (forall m, m < 3 -> load_val (pstart_ pv) m w = inr (vs !!! m, w)) ->
  k < 3 -> i < 3 -> j < 3 ->
  cross_cell o o v k i j w =
    inr (tt, with_blocks (<[b := <[off + k := Some (ssub (smul (zs !!! i) (vs !!! j))
                                                         (smul (zs !!! j) (vs !!! i)))]> l]>) w).
Proof.
  intros Ho Hp Hb Hl Hv Rv Hk Hi Hj.
  apply (cross_cell_spec o o v k i j w pt b off l pt pv); try done; try (apply Rv; done);
    try (rewrite Hp; apply (load_val_Some _ _ _ l); [done|by apply Hl]).
  eapply lookup_lt_Some, Hl; done.
Qed.

(** C17. [setToCrossProd] into one of its own arguments: for any 3D point
    [p] that owns its array and any 3D point [q] on another array, in both
    builds [p.setToCrossProd(p, q)] writes [c0 = p1 q2 - p2 q1] as the
    cross product would, but the next statement reads the new [p[0]] and
    the last one the new [p[0]] and [p[1]]: [p] ends up [(c0, c1, c2)]
    with [c1 = p2 q0 - c0 q2] and [c2 = c0 q1 - c1 q0], and [q] is
    unchanged. *)
Theorem setToCrossProd_self debug o v w pt (us vs : list K) :
  objs w !! o = Some pt -> owns_ pt = true -> value w o = Some us -> value w v = Some vs ->
  Datatypes.length us = 3 -> Datatypes.length vs = 3 ->
  (forall pv, objs w !! v = Some pv -> apart (pstart_ pt) (pstart_ pv)) ->
  let c0 := ssub (smul (us !!! 1) (vs !!! 2)) (smul (us !!! 2) (vs !!! 1)) in
  let c1 := ssub (smul (us !!! 2) (vs !!! 0)) (smul c0 (vs !!! 2)) in
  let c2 := ssub (smul c0 (vs !!! 1)) (smul c1 (vs !!! 0)) in
  exists w', setToCrossProd debug o o v w = inr (tt, w') /\
    value w' o = Some [c0; c1; c2] /\ value w' v = Some vs.
Proof.
  intros Ho Hown Hus Hvs L1 L2 Av c0 c1 c2.
  destruct (value_load_total _ _ _ Hvs) as (pv & Hv & Hnv & _).
  specialize (Av pv Hv).
  destruct (pstart_ pt) as [|b off] eqn:Hp.
  { unfold value in Hus. rewrite Ho in Hus. simpl in Hus. rewrite Hp in Hus. simpl in Hus.
    case_decide; simplify_eq/=. }
  destruct (value_cells w o pt b off us Ho Hp Hus) as (l & Hb & Hn & Hc).
  assert (Hh0 : holds3 l off us) by (intros m Hm; apply Hc; lia).
  destruct (reads_apart _ _ _ _ _ _ Hv Hvs L2 Av) as (bv & ov & Epv & Nv & Rv).
  assert (Rv0 : forall m, m < 3 -> load_val (pstart_ pv) m w = inr (vs !!! m, w))
    by (intros m Hm; pose proof (Rv m l Hm) as E; by rewrite with_blocks_id in E).
  assert (Hpt : {| pstart_ := pstart_ pt; n_ := 3; owns_ := owns_ pt |} = pt)
    by (destruct pt; simpl in *; congruence).
  unfold setToCrossProd.
  rewrite (PM_bind_inr _ _ _ _ _ (get_obj_Some _ _ _ Ho)), (PM_bind_inr _ _ _ _ _ (get_obj_Some _ _ _ Hv)),
    Hn, Hnv, L1, L2. simpl. rewrite !DEBUG_ERROR_IF_false.
  rewrite (PM_bind_inr _ _ _ _ _ (eq_refl (inr (tt, w)))), (PM_bind_inr _ _ _ _ _ (eq_refl (inr (tt, w)))).
  rewrite (PM_bind_inr _ _ _ _ _ (get_obj_Some _ _ _ Ho)), Hown, Hn, L1, bool_decide_true by lia.
  simpl. rewrite Hown in Hpt. rewrite Hpt.
  assert (Hw : with_objs (<[o := pt]>) w = w) by (destruct w; unfold with_objs; simpl in *; by rewrite insert_id).
  rewrite (PM_bind_inr (set_obj o pt) _ w tt w) by (unfold set_obj; by rewrite Hw).
  destruct us as [|u0 [|u1 [|u2 [|]]]]; simpl in L1; try lia.
  set (l1 := <[off + 0 := Some c0]> l). set (l2 := <[off + 1 := Some c1]> l1).
  set (l3 := <[off + 2 := Some c2]> l2).
  assert (Hh1 : holds3 l1 off [c0; u1; u2]) by (exact (holds3_insert l off [u0; u1; u2] 0 c0 ltac:(lia) eq_refl Hh0)).
  assert (Hh2 : holds3 l2 off [c0; c1; u2]) by (exact (holds3_insert l1 off [c0; u1; u2] 1 c1 ltac:(lia) eq_refl Hh1)).
  assert (Hh3 : holds3 l3 off [c0; c1; c2]) by (exact (holds3_insert l2 off [c0; c1; u2] 2 c2 ltac:(lia) eq_refl Hh2)).
  assert (E1 : cross_cell o o v 0 1 2 w = inr (tt, with_blocks (<[b := l1]>) w))
    by exact (cross_cell_self o v 0 1 2 w pt b off l pv _ vs Ho Hp Hb Hh0 Hv Rv0
                ltac:(lia) ltac:(lia) ltac:(lia)).
  assert (E2 : cross_cell o o v 1 2 0 (with_blocks (<[b := l1]>) w) =
               inr (tt, with_blocks (<[b := l2]>) (with_blocks (<[b := l1]>) w)))
    by exact (cross_cell_self o v 1 2 0 (with_blocks (<[b := l1]>) w) pt b off l1 pv _ vs Ho Hp
                (lookup_insert_eq _ _ _) Hh1 Hv (fun m Hm => Rv m l1 Hm) ltac:(lia) ltac:(lia) ltac:(lia)).
  assert (E3 : cross_cell o o v 2 0 1 (with_blocks (<[b := l2]>) w) =
               inr (tt, with_blocks (<[b := l3]>) (with_blocks (<[b := l2]>) w)))
    by exact (cross_cell_self o v 2 0 1 (with_blocks (<[b := l2]>) w) pt b off l2 pv _ vs Ho Hp
                (lookup_insert_eq _ _ _) Hh2 Hv (fun m Hm => Rv m l2 Hm) ltac:(lia) ltac:(lia) ltac:(lia)).
  rewrite (PM_bind_inr _ _ _ _ _ E1), (PM_bind_inr _ _ _ _ _ E2), with_blocks_insert_insert, E3.
  rewrite with_blocks_insert_insert. eexists. split; [reflexivity|]. split.
  - unfold value. simpl. rewrite Ho. simpl. rewrite Hp, Hn.
    apply read_cells_Addr. eexists. split; [apply lookup_insert_eq|]. split; [done|].
    intros m x Hx. pose proof (lookup_lt_Some _ _ _ Hx) as Hm. simpl in Hm.
    rewrite (Hh3 m Hm). by rewrite (list_lookup_total_correct _ _ _ Hx).
  - rewrite (value_other_block _ _ pv); [done|done|]. by apply apart_Addr with off.
Qed.
End Specs.


(** ** The cross product over exact arithmetic *)
Section CrossRing.
Context {K : Type} `{Scalar K} `{ScalarOrd K}.
Context (Kring : ring_theory szero sone sadd smul ssub sopp (@eq K)).
Add Ring Kr : Kring.

Lemma value_some_obj (w : World K) o xs : value w o = Some xs -> is_Some (objs w !! o).
Proof. unfold value. intros (pt & Ho & _)%bind_Some. by exists pt. Qed.

(** C27. [p % q] over exact arithmetic is orthogonal to both [p] and [q]:
    the scalar products [p * (p % q)] and [q * (p % q)] computed by
    [operator *] are zero. *)
Theorem cross_orthogonal debug o v (w : World K) xs ys :
  value w o = Some xs -> value w v = Some ys ->
  Datatypes.length xs = 3 -> Datatypes.length ys = 3 ->
  blocks w !! next_blk w = None -> objs w !! next_obj w = None ->
  exists r w', cross debug o v w = inr (r, w') /\
    dot debug o r w' = inr (szero, w') /\ dot debug v r w' = inr (szero, w').
Proof.
  intros Hx Hy Hl1 Hl2 Hfb Hfo. do 2 eexists. split; [by apply cross_spec|].
  assert (Hne : forall o', value w o' <> None -> o' <> next_obj w).
  { intros o' Hv ->. destruct (value w (next_obj w)) eqn:E; [|done].
    destruct (value_some_obj _ _ _ E). congruence. }
  assert (Hr : value (Build_World (<[next_blk w := Some <$> cross3 xs ys]> (blocks w))
     (S (next_blk w)) (<[next_obj w := {| pstart_ := Addr (next_blk w) 0; n_ := 3; owns_ := true |}]>
     (objs w)) (S (next_obj w))) (next_obj w) = Some (cross3 xs ys)).
  { apply (value_fresh_array _ _ (next_blk w)); apply lookup_insert_eq. }
  destruct xs as [|x0 [|x1 [|x2 [|]]]]; try discriminate.
  destruct ys as [|y0 [|y1 [|y2 [|]]]]; try discriminate.
  split; (erewrite dot_value; [|apply value_alloc; [done|apply Hne; congruence|done]|exact Hr|done]);
    do 2 f_equal; unfold dotprod, cross3; simpl; ring.
Qed.
End CrossRing.

(** ** [operator <] over exact scalars *)
Section ExactOrder.
Implicit Types (xs ys zs : list Qc).

(** The order [operator <] is meant to be: the last coordinate where the
    points differ decides. *)
Definition colex_lt xs ys : Prop :=
  exists k, k < Datatypes.length xs /\ (xs !!! k < ys !!! k)%Qc /\
    forall j, k < j < Datatypes.length xs -> xs !!! j = ys !!! j.

Lemma Qc_trichotomy (x y : Qc) : sltb y x = false -> sltb x y = false -> x = y.
Proof.
  intros H1 H2. destruct (Qc_dec x y) as [[Hlt|Hlt]|Heq]; [| |done].
  - apply Qc_sltb_spec in Hlt. congruence.
  - apply Qc_sltb_spec in Hlt. congruence.
Qed.

Lemma lt_scan_colex xs ys i :
  lt_scan xs ys i = true <->
  exists k, k < i /\ (xs !!! k < ys !!! k)%Qc /\ forall j, k < j < i -> xs !!! j = ys !!! j.
Proof.
  induction i as [|i IH]; cbn [lt_scan].
  - split; [intros [=]|]. intros (k & Hk & _). lia.
  - destruct (sltb (ys !!! i) (xs !!! i)) eqn:E1.
    + apply Qc_sltb_spec in E1. split; [intros [=]|]. intros (k & Hk & Hlt & Heq).
      destruct (decide (k = i)) as [->|Hne].
      * exfalso. by apply (Qclt_not_le _ _ Hlt), Qclt_le_weak.
      * exfalso. rewrite (Heq i) in E1 by lia. by apply (Qclt_not_le _ _ E1), Qcle_refl.
    + destruct (sltb (xs !!! i) (ys !!! i)) eqn:E2.
      * apply Qc_sltb_spec in E2. split; [|done]. intros _. exists i. split; [lia|].
        split; [done|]. lia.
      * pose proof (Qc_trichotomy _ _ E1 E2) as Hxy. rewrite IH. split.
        -- intros (k & Hk & Hlt & Heq). exists k. do 2 (split; [lia || done|]).
           intros j Hj. destruct (decide (j = i)) as [->|]; [done|]. apply Heq; lia.
        -- intros (k & Hk & Hlt & Heq). destruct (decide (k = i)) as [->|Hne].
           ++ exfalso. rewrite Hxy in Hlt. by apply Qclt_not_eq in Hlt.
           ++ exists k. do 2 (split; [lia || done|]). intros j Hj. apply Heq; lia.
Qed.

(** C23. [operator <] over exact scalars decides the colexicographic order
    of the values: the last coordinate where the points differ. *)
Theorem Point_lt_colex debug o1 o2 (w : World Qc) xs ys :
  value w o1 = Some xs -> value w o2 = Some ys -> Datatypes.length xs = Datatypes.length ys ->
  exists b, Point_lt debug o1 o2 w = inr (b, w) /\ (b = true <-> colex_lt xs ys).
Proof.
  intros Hx Hy Hlen. eexists. split; [by apply Point_lt_scan|]. apply lt_scan_colex.
Qed.

Lemma colex_irrefl xs : ~ colex_lt xs xs.
Proof. intros (k & _ & Hlt & _). by apply Qclt_not_eq in Hlt. Qed.

Lemma colex_trans xs ys zs :
  Datatypes.length xs = Datatypes.length ys -> Datatypes.length ys = Datatypes.length zs ->
  colex_lt xs ys -> colex_lt ys zs -> colex_lt xs zs.
Proof.
  intros Hl1 Hl2 (k1 & Hk1 & Hlt1 & Heq1) (k2 & Hk2 & Hlt2 & Heq2).
  exists (k1 `max` k2). split; [lia|]. split.
  - destruct (decide (k1 = k2)) as [->|Hne].
    + rewrite Nat.max_id. by apply Qclt_trans with (ys !!! k2).
    + destruct (decide (k1 < k2)).
      * rewrite Nat.max_r by lia. rewrite Heq1 by lia. done.
      * rewrite Nat.max_l by lia. rewrite <- (Heq2 k1) by lia. done.
  - intros j Hj. rewrite Heq1, Heq2 by lia. done.
Qed.

Lemma lt_scan_both_false xs ys i :
  lt_scan xs ys i = false -> lt_scan ys xs i = false -> forall j, j < i -> xs !!! j = ys !!! j.
Proof.
  induction i as [|i IH]; cbn [lt_scan]; [lia|].
  destruct (sltb (ys !!! i) (xs !!! i)) eqn:E1, (sltb (xs !!! i) (ys !!! i)) eqn:E2;
    try discriminate.
  - apply Qc_sltb_spec in E1, E2. exfalso. by apply (Qclt_not_le _ _ E1), Qclt_le_weak.
  - intros H1 H2 j Hj. destruct (decide (j = i)) as [->|]; [by apply Qc_trichotomy|].
    apply IH; [done|done|lia].
Qed.

Lemma colex_total xs ys :
  Datatypes.length xs = Datatypes.length ys -> xs <> ys -> colex_lt xs ys \/ colex_lt ys xs.
Proof.
  intros Hlen Hne. unfold colex_lt. rewrite <- (lt_scan_colex xs ys), <- (lt_scan_colex ys xs), <- Hlen.
  destruct (lt_scan xs ys _) eqn:E1; [by left|]. destruct (lt_scan ys xs _) eqn:E2; [by right|].
  exfalso. apply Hne. apply list_eq_same_length with (Datatypes.length xs); [done|done|].
  intros j x y Hj Hx Hy. pose proof (lt_scan_both_false _ _ _ E1 E2 j Hj) as Hxy.
  rewrite !list_lookup_total_alt, Hx, Hy in Hxy. done.
Qed.

(** C24. Over exact scalars, [operator <] on points of one dimension is a
    strict total order: irreflexive, transitive, and any two points with
    different values are ordered one way or the other. *)
Theorem Point_lt_strict_total debug (w : World Qc) o1 o2 o3 xs ys zs :
  value w o1 = Some xs -> value w o2 = Some ys -> value w o3 = Some zs ->
  Datatypes.length xs = Datatypes.length ys -> Datatypes.length ys = Datatypes.length zs ->
  Point_lt debug o1 o1 w = inr (false, w) /\
  (Point_lt debug o1 o2 w = inr (true, w) -> Point_lt debug o2 o3 w = inr (true, w) ->
   Point_lt debug o1 o3 w = inr (true, w)) /\
  (xs <> ys -> Point_lt debug o1 o2 w = inr (true, w) \/ Point_lt debug o2 o1 w = inr (true, w)).
Proof.
  intros H1 H2 H3 L12 L23.
  rewrite !(Point_lt_scan debug _ _ w xs xs), (Point_lt_scan debug _ _ w xs ys),
    (Point_lt_scan debug _ _ w ys zs), (Point_lt_scan debug _ _ w xs zs),
    (Point_lt_scan debug _ _ w ys xs) by (done || lia).
  split; [|split].
  - destruct (lt_scan xs xs _) eqn:E; [|done]. apply lt_scan_colex in E. by apply colex_irrefl in E.
  - intros [= E1%lt_scan_colex] [= E2%lt_scan_colex]. do 2 f_equal.
    apply lt_scan_colex. exact (colex_trans xs ys zs L12 L23 E1 E2).
  - intros Hne. destruct (colex_total xs ys L12 Hne) as [E|E]; apply lt_scan_colex in E.
    + left. by rewrite E.
    + right. by rewrite E.
Qed.
End ExactOrder.
