(* ===== verification/PointHeap.v ===== *)
(** * PointHeap: the ownership invariant of [Go::Point]'s memory

    A world is well formed ([heap_wf]) when the addresses from [next_blk]
    and [next_obj] on are free, every owning point holds either the null
    pointer with dimension [0] or the start of a live array of at least
    [n_] cells, and no two owning points hold the same array.  Non-owning
    points (the views made by [Point(begin, end, false)]) are not
    constrained: they may outlive the array they view, as in C++.

    The member functions fall in two groups.  The in-place ones ([operator
    []], [setValue], [operator +=], the norms, ...) keep the shape of the
    world: the same objects and arrays of the same lengths ([stays
    same_shape]); the readers among them leave the world unchanged ([stays
    eq]).  The constructors, [operator =], [resize], [swap], the
    destructor and [setToCrossProd] change objects and arrays; each of them
    preserves [heap_wf] ([preserves]). *)

From Stdlib Require Import ZArith.
From stdpp Require Import base list gmap.
From S2P Require Import Prelude Point PointProps.
Import Go.

(** ** Computations that keep a preorder on worlds *)
Section Stays.
Context {K : Type} (R : World K -> World K -> Prop) `{!PreOrder R}.

(** Every successful run of [m] ends in a world related to its start. *)
Definition stays {A} (m : PM K A) : Prop :=
  forall w a w', m w = inr (a, w') -> R w w'.

Lemma stays_ret {A} (a : A) : stays (mret a).
Proof. intros w b w' E. cbv [mret PM_ret] in E. simplify_eq. reflexivity. Qed.

Lemma stays_bind {A B} (m : PM K A) (f : A -> PM K B) :
  stays m -> (forall a, stays (f a)) -> stays (x ← m; f x).
Proof.
  intros Hm Hf w b w'. unfold mbind, PM_bind.
  destruct (m w) as [e|[a w1]] eqn:E; [done|]. intros E'.
  transitivity w1; [by eapply Hm|by eapply Hf].
Qed.

Lemma stays_throw {A} e : stays (@throw K A e).
Proof. by intros ???. Qed.

Lemma stays_get_obj o : stays (@get_obj K o).
Proof. intros w pt w'. unfold get_obj. case_match; intros E; simplify_eq. reflexivity. Qed.

Lemma stays_load p i : stays (@load K p i).
Proof.
  intros w c w'. unfold load. repeat case_match; intros E; simplify_eq; reflexivity.
Qed.

Lemma stays_load_val p i : stays (@load_val K p i).
Proof. intros w x w' E. rewrite (load_val_world _ _ _ _ _ E). reflexivity. Qed.

Lemma stays_mfor l body : (forall i, stays (body i)) -> stays (@mfor K l body).
Proof.
  intros Hb. induction l as [|i l IH]; simpl; [apply stays_ret|].
  apply stays_bind; [apply Hb|intros; apply IH].
Qed.

Lemma stays_mfold {A} (f : A -> nat -> PM K A) a l :
  (forall a i, stays (f a i)) -> stays (mfold f a l).
Proof.
  intros Hf. revert a. induction l as [|i l IH]; intros a; simpl; [apply stays_ret|].
  apply stays_bind; [apply Hf|intros; apply IH].
Qed.
End Stays.

(** ** Shapes *)
Section Shape.
Context {K : Type}.
Implicit Types (w : World K).

(** The same objects and counters, and arrays at the same addresses with
    the same lengths: what a write to an existing cell keeps. *)
Definition same_shape w w' : Prop :=
  objs w' = objs w /\ next_blk w' = next_blk w /\ next_obj w' = next_obj w /\
  forall b, Datatypes.length <$> blocks w' !! b = Datatypes.length <$> blocks w !! b.

#[export] Instance same_shape_preorder : PreOrder same_shape.
Proof.
  split.
  - intros w. by split_and!.
  - intros w1 w2 w3 (?&?&?&Hb1) (?&?&?&Hb2). split_and!; congruence.
Qed.

Lemma stays_store p i c : stays same_shape (@store K p i c).
Proof.
  intros w u w'. unfold store. destruct p as [|b off]; [done|].
  destruct (blocks w !! b) as [l|] eqn:Hb; [|done]. case_decide; [|done].
  intros E; simplify_eq. unfold same_shape, with_blocks; simpl. split_and!; [done..|].
  intros b'. destruct (decide (b' = b)) as [->|].
  - rewrite lookup_insert_eq, Hb. simpl. by rewrite length_insert.
  - by rewrite lookup_insert_ne.
Qed.

(** Reading leaves the world as it is, hence keeps its shape. *)
Lemma stays_eq_shape {A} (m : PM K A) : stays eq m -> stays same_shape m.
Proof. intros Hm w a w' E. rewrite <- (Hm _ _ _ E). reflexivity. Qed.
End Shape.

Create HintDb stays.
#[export] Hint Extern 0 (PreOrder _) => typeclasses eauto : stays.
#[export] Hint Resolve stays_ret stays_throw stays_get_obj stays_load stays_load_val
  stays_store : stays.

(** One step of a [stays] proof: split a bind or a loop, close a primitive,
    or case on a condition. *)
Ltac stays_step :=
  match goal with
  | |- PreOrder _ => typeclasses eauto
  | |- forall _, _ => intros ?
  | |- stays _ (@mbind _ _ _ _ _ _) => apply stays_bind
  | |- stays _ (mfor _ _) => apply stays_mfor
  | |- stays _ (mfold _ _ _) => apply stays_mfold
  | |- stays _ _ => solve [eauto with stays]
  | |- stays _ _ => case_match
  end.

Ltac stays_solve := repeat stays_step.

(** ** The in-place member functions *)
Section InPlace.
Context {K : Type} `{Scalar K} `{ScalarOrd K}.

Lemma stays_DEBUG R `{!PreOrder R} debug c : stays R (@DEBUG_ERROR_IF K debug c).
Proof. unfold DEBUG_ERROR_IF. stays_solve. Qed.

Lemma stays_lt_loop R `{!PreOrder R} p1 p2 i : stays R (lt_loop (K:=K) p1 p2 i).
Proof. induction i as [|i IH]; simpl; stays_solve. Qed.

#[local] Hint Resolve stays_DEBUG stays_lt_loop : stays.

Lemma stays_zip_assign debug f o v : stays same_shape (zip_assign (K:=K) debug f o v).
Proof. unfold zip_assign. stays_solve. Qed.

Lemma stays_map_assign f o : stays same_shape (map_assign (K:=K) f o).
Proof. unfold map_assign. stays_solve. Qed.

Lemma stays_dot R `{!PreOrder R} debug o v : stays R (dot (K:=K) debug o v).
Proof. unfold dot. stays_solve. Qed.

Lemma stays_length2 R `{!PreOrder R} o : stays R (length2 (K:=K) o).
Proof. unfold length2. stays_solve. Qed.
End InPlace.

#[export] Hint Resolve stays_DEBUG stays_lt_loop stays_dot stays_length2 stays_zip_assign
  stays_map_assign : stays.

Section InPlaceClaims.
Context {K : Type} `{Scalar K} `{ScalarOrd K} `{ScalarSqrt K}.

(** C30. The readers of [Go::Point] leave the world unchanged on every
    successful run: [operator[] const], [size()], [length2()], [length()],
    [lengthInf()], [dist2()], [dist()], [distInf()], the scalar product,
    [cosAngle()] and [operator <], in both builds. *)
Theorem readers_leave_world debug o v (i : Z) :
  stays eq (get (K:=K) o i) /\ stays eq (size (K:=K) o) /\ stays eq (length2 (K:=K) o) /\
  stays eq (length (K:=K) o) /\ stays eq (lengthInf (K:=K) o) /\
  stays eq (dist2 (K:=K) o v) /\ stays eq (dist (K:=K) o v) /\ stays eq (distInf (K:=K) o v) /\
  stays eq (dot (K:=K) debug o v) /\ stays eq (cosAngle (K:=K) debug o v) /\
  stays eq (Point_lt (K:=K) debug o v).
Proof.
  split_and!; unfold cosAngle, dist, length, get, size, length2, lengthInf, dist2, distInf, dot,
    Point_lt; stays_solve.
Qed.

(** C31. The in-place member functions keep the shape of the world: no
    object is created, changed or destroyed and no array is allocated,
    freed or resized; only cells are written.  This holds for
    [operator[]], the [setValue] that copies an array or a value,
    [resetValue], [operator +=], [operator -=], [operator *=],
    [operator /=], [normalize()] and [normalize_checked()], in both
    builds. *)
Theorem inplace_keep_shape debug o v (i : Z) (x : K) (p : Ptr) :
  stays same_shape (set (K:=K) o i x) /\ stays same_shape (setValue_array (K:=K) o p) /\
  stays same_shape (setValue_val (K:=K) o x) /\ stays same_shape (resetValue (K:=K) debug o i x) /\
  stays same_shape (add_assign (K:=K) debug o v) /\ stays same_shape (sub_assign (K:=K) debug o v) /\
  stays same_shape (mul_assign (K:=K) o x) /\ stays same_shape (div_assign (K:=K) o x) /\
  stays same_shape (normalize (K:=K) debug o) /\ stays same_shape (normalize_checked (K:=K) o).
Proof.
  split_and!; unfold set, setValue_array, setValue_val, resetValue, add_assign, sub_assign,
    zip_assign, normalize, normalize_checked, length, length2, mul_assign, div_assign, map_assign;
    stays_solve.
Qed.
End InPlaceClaims.

(** ** The ownership invariant *)
Section Heap.
Context {K : Type}.
Implicit Types (w : World K).

(** What an owning point holds: null with dimension [0], or the start of
    a live array of at least [n_] cells. *)
Definition owner_ok w (pt : Point) : Prop :=
  match pstart_ pt with
  | Null => n_ pt = 0
  | Addr b off => off = 0 /\ exists l, blocks w !! b = Some l /\ n_ pt <= Datatypes.length l
  end.

Record heap_wf w : Prop := {
  wf_blocks_fresh : forall b, next_blk w <= b -> blocks w !! b = None;
  wf_objs_fresh : forall o, next_obj w <= o -> objs w !! o = None;
  wf_owners : forall o pt, objs w !! o = Some pt -> owns_ pt = true -> owner_ok w pt;
  wf_unique : forall o o' pt pt' b, objs w !! o = Some pt -> objs w !! o' = Some pt' ->
    owns_ pt = true -> owns_ pt' = true -> pstart_ pt = Addr b 0 -> pstart_ pt' = Addr b 0 ->
    o = o'
}.

(** [{P} m {Q}]: every successful run of [m] from a world satisfying [P]
    ends in a world satisfying [Q] of its result. *)
Definition hoare {A} (P : World K -> Prop) (m : PM K A) (Q : A -> World K -> Prop) : Prop :=
  forall w a w', P w -> m w = inr (a, w') -> Q a w'.

Definition preserves {A} (m : PM K A) : Prop := hoare heap_wf m (fun _ => heap_wf).

Lemma hoare_bind {A B} P (m : PM K A) Q (f : A -> PM K B) R :
  hoare P m Q -> (forall a, hoare (Q a) (f a) R) -> hoare P (x ← m; f x) R.
Proof.
  intros Hm Hf w b w' HP. unfold mbind, PM_bind.
  destruct (m w) as [e|[a w1]] eqn:E; [done|]. intros E'. by eapply Hf, E'; eapply Hm.
Qed.

Lemma hoare_ret {A} P (a : A) (Q : A -> World K -> Prop) :
  (forall w, P w -> Q a w) -> hoare P (mret a) Q.
Proof. intros HQ w b w' HP E. cbv [mret PM_ret] in E. simplify_eq. by apply HQ. Qed.

(** The predicates that only look at the shape of a world. *)
Class ShapeStable (P : World K -> Prop) :=
  shape_stable : forall w w', same_shape w w' -> P w -> P w'.

Lemma hoare_stays {A} P `{!ShapeStable P} (m : PM K A) :
  stays same_shape m -> hoare P m (fun _ => P).
Proof. intros Hm w a w' HP E. by eapply shape_stable, HP; eapply Hm. Qed.

Lemma owner_ok_lengths w w' pt :
  (forall b, Datatypes.length <$> blocks w' !! b = Datatypes.length <$> blocks w !! b) ->
  owner_ok w pt -> owner_ok w' pt.
Proof.
  intros Hb. unfold owner_ok. destruct (pstart_ pt) as [|b off]; [done|].
  intros [-> (l & Hl & Hn)]. split; [done|]. specialize (Hb b). rewrite Hl in Hb.
  destruct (blocks w' !! b) as [l'|]; simplify_eq/=. eexists; split; [done|]. lia.
Qed.

#[export] Instance heap_wf_shape : ShapeStable heap_wf.
Proof.
  intros w w' (Ho & Hnb & Hno & Hb) [F1 F2 Own U]. split.
  - intros b Hge. specialize (Hb b). rewrite (F1 b) in Hb by lia. simpl in Hb.
    by apply fmap_None in Hb.
  - rewrite Ho, Hno. done.
  - rewrite Ho. intros o pt Hpt Hown. eapply owner_ok_lengths; [done|]. by apply (Own o).
  - rewrite Ho. done.
Qed.

Lemma preserves_stays {A} (m : PM K A) : stays same_shape m -> preserves m.
Proof. intros Hm. exact (hoare_stays heap_wf m Hm). Qed.

(** An owning point's array is live. *)
Lemma wf_owner_live w o pt b off :
  heap_wf w -> objs w !! o = Some pt -> owns_ pt = true -> pstart_ pt = Addr b off ->
  off = 0 /\ exists l, blocks w !! b = Some l /\ n_ pt <= Datatypes.length l.
Proof. intros Hwf Ho Hown Hp. pose proof (wf_owners _ Hwf o pt Ho Hown) as Hok. unfold owner_ok in Hok. by rewrite Hp in Hok. Qed.

Lemma wf_owner_not_fresh w o pt off :
  heap_wf w -> objs w !! o = Some pt -> owns_ pt = true -> pstart_ pt <> Addr (next_blk w) off.
Proof.
  intros Hwf Ho Hown Hp. destruct (wf_owner_live w o pt _ _ Hwf Ho Hown Hp) as (_ & l & Hl & _).
  by rewrite (wf_blocks_fresh _ Hwf) in Hl.
Qed.

Lemma wf_obj_lt w o pt : heap_wf w -> objs w !! o = Some pt -> o < next_obj w.
Proof.
  intros Hwf Ho. destruct (decide (o < next_obj w)); [done|].
  by rewrite (wf_objs_fresh _ Hwf) in Ho by lia.
Qed.
End Heap.

(** ** Allocation, swap and destruction *)
Section HeapOps.
Context {K : Type}.
Implicit Types (w : World K).

(** [p] is the start of a live array of [d] cells that no owning point
    holds yet: the state between [new double[d]] and the constructor's
    end. *)
Definition alloc_ok (p : Ptr) (d : nat) w : Prop :=
  heap_wf w /\ exists nb l, p = Addr nb 0 /\ blocks w !! nb = Some l /\ Datatypes.length l = d /\
    forall o pt off, objs w !! o = Some pt -> owns_ pt = true -> pstart_ pt <> Addr nb off.

#[export] Instance alloc_ok_shape p d : ShapeStable (alloc_ok p d).
Proof.
  intros w w' Hs [Hwf (nb & l & -> & Hl & Hlen & Hno)]. split; [by eapply shape_stable|].
  destruct Hs as (Ho & _ & _ & Hb). specialize (Hb nb). rewrite Hl in Hb.
  destruct (blocks w' !! nb) as [l'|] eqn:E; simplify_eq/=.
  exists nb, l'. split_and!; [done|done|lia|]. by rewrite Ho.
Qed.

Lemma hoare_new_array d : hoare heap_wf (@new_array K d) (fun p => alloc_ok p d).
Proof.
  intros w p w' Hwf E. unfold new_array in E. simplify_eq. split.
  - pose proof Hwf as [F1 F2 Own U]. split; simpl; [|done| |done].
    + intros b Hb. rewrite lookup_insert_ne by lia. apply F1; lia.
    + intros o pt Ho Hown. destruct (pstart_ pt) as [|b off] eqn:Hp.
      * pose proof (Own o pt Ho Hown) as Hok. unfold owner_ok in *. by rewrite Hp in *.
      * destruct (wf_owner_live w o pt b off Hwf Ho Hown Hp) as (-> & l & Hl & Hn).
        unfold owner_ok. rewrite Hp. split; [done|]. exists l. split; [|done].
        simpl. rewrite lookup_insert_ne; [done|]. intros <-. by rewrite (F1 _ (le_n _)) in Hl.
  - exists (next_blk w), (replicate d None). split_and!; [done|apply lookup_insert_eq|apply length_replicate|].
    simpl. intros o pt off Ho Hown. by apply (wf_owner_not_fresh w o pt off).
Qed.

(** The fresh object of [new_obj] is the only one at its address. *)
Lemma new_obj_lookup w pt o :
  <[next_obj w := pt]> (objs w) !! o = if decide (o = next_obj w) then Some pt else objs w !! o.
Proof. case_decide as E; [subst; apply lookup_insert_eq|by apply lookup_insert_ne]. Qed.

Lemma hoare_new_obj_alloc p d :
  hoare (alloc_ok p d) (new_obj {| pstart_ := p; n_ := d; owns_ := true |}) (fun _ => @heap_wf K).
Proof.
  intros w o w' [Hwf (nb & l & -> & Hl & Hlen & Hno)] E. unfold new_obj in E. simplify_eq.
  destruct Hwf as [F1 F2 Own U]. split; simpl; [done| | |]; intros o; rewrite ?new_obj_lookup.
  - intros Ho. case_decide; [lia|]. apply F2; lia.
  - intros pt. case_decide.
    + intros [= <-] _. unfold owner_ok; simpl. split; [done|]. exists l. split; [done|lia].
    + apply Own.
  - intros o' pt pt' b. rewrite <- new_obj_lookup.
    destruct (decide (o = next_obj w)) as [->|], (decide (o' = next_obj w)) as [->|];
      rewrite ?lookup_insert_eq, ?lookup_insert_ne by done.
    + by intros.
    + intros [= <-] Ho' _ Hown' Hp Hp'. simpl in Hp.
      injection Hp as <-. by destruct (Hno o' pt' 0 Ho' Hown').
    + intros Ho [= <-] Hown _ Hp Hp'. simpl in Hp'.
      injection Hp' as <-. by destruct (Hno o pt 0 Ho Hown).
    + apply U.
Qed.

(** A view, or an owning null point of dimension [0]. *)
Lemma hoare_new_obj_plain pt :
  owns_ pt = false \/ (pstart_ pt = Null /\ n_ pt = 0) -> preserves (@new_obj K pt).
Proof.
  intros Hpt w o w' Hwf E. unfold new_obj in E. simplify_eq.
  destruct Hwf as [F1 F2 Own U]. split; simpl; [done| | |]; intros o; rewrite ?new_obj_lookup.
  - intros Ho. case_decide; [lia|]. apply F2; lia.
  - intros pt'. case_decide.
    + intros [= <-] Hown. destruct Hpt as [Ho|[Hp Hn]]; [congruence|]. unfold owner_ok. by rewrite Hp.
    + apply Own.
  - intros o' pt1 pt2 b. rewrite <- new_obj_lookup.
    destruct (decide (o = next_obj w)) as [->|], (decide (o' = next_obj w)) as [->|];
      rewrite ?lookup_insert_eq, ?lookup_insert_ne by done.
    + by intros.
    + intros [= <-] _ Hown _ Hp _.
      destruct Hpt as [Ho|[Hp' _]]; congruence.
    + intros _ [= <-] _ Hown _ Hp.
      destruct Hpt as [Ho|[Hp' _]]; congruence.
    + apply U.
Qed.

(** [swap(o, t)] permutes the object store: [o] and [t] trade places. *)
Definition swap_idx (o t x : nat) : nat :=
  if decide (x = t) then o else if decide (x = o) then t else x.

Lemma swap_objs (m : gmap nat Point) o t a b x :
  m !! o = Some a -> m !! t = Some b -> <[t := a]> (<[o := b]> m) !! x = m !! swap_idx o t x.
Proof.
  intros Ha Hb. unfold swap_idx. destruct (decide (x = t)) as [->|]; [by rewrite lookup_insert_eq|].
  rewrite lookup_insert_ne by done.
  destruct (decide (x = o)) as [->|]; [by rewrite lookup_insert_eq|]. by rewrite lookup_insert_ne.
Qed.

Lemma swap_idx_inj o t x y : swap_idx o t x = swap_idx o t y -> x = y.
Proof. unfold swap_idx. repeat case_decide; congruence. Qed.

Lemma hoare_swap o t : preserves (@swap K o t).
Proof.
  intros w u w' Hwf E. unfold swap, get_obj, set_obj, mbind, PM_bind in E.
  destruct (objs w !! o) as [a|] eqn:Ha; [|done]. destruct (objs w !! t) as [b|] eqn:Hb; [|done].
  simpl in E. simplify_eq. pose proof (wf_obj_lt w o a Hwf Ha). pose proof (wf_obj_lt w t b Hwf Hb).
  destruct Hwf as [F1 F2 Own U]. split; simpl; [done|..]; intros x; rewrite (swap_objs _ o t a b x) by done.
  - intros Hx. unfold swap_idx. repeat case_decide; try lia. by apply F2.
  - apply Own.
  - intros y pt1 pt2 c. rewrite (swap_objs _ o t a b y) by done. intros. apply (swap_idx_inj o t).
    by eapply U.
Qed.

(** Removing an object keeps the invariant. *)
Lemma wf_del_obj w o : heap_wf w -> heap_wf (with_objs (delete o) w).
Proof.
  intros [F1 F2 Own U]. split; simpl; [done|..].
  - intros x Hx. apply lookup_delete_None. right. by apply F2.
  - intros x pt (_ & Hx)%lookup_delete_Some. by apply (Own x).
  - intros x y pt1 pt2 c (_ & Hx)%lookup_delete_Some (_ & Hy)%lookup_delete_Some. by apply U.
Qed.

(** Freeing the array of an owning point and removing the point. *)
Lemma wf_free w o pt b :
  heap_wf w -> objs w !! o = Some pt -> owns_ pt = true -> pstart_ pt = Addr b 0 ->
  heap_wf (with_objs (delete o) (with_blocks (delete b) w)).
Proof.
  intros Hwf Ho Hown Hp. pose proof Hwf as [F1 F2 Own U]. split; simpl.
  - intros x Hx. apply lookup_delete_None. right. by apply F1.
  - intros x Hx. apply lookup_delete_None. right. by apply F2.
  - intros x pt' (Hne & Hx)%lookup_delete_Some Hown'. pose proof (Own x pt' Hx Hown') as Hok.
    unfold owner_ok in *. destruct (pstart_ pt') as [|c off] eqn:Hp'; [done|].
    destruct Hok as [-> Hok]. split; [done|].
    simpl. rewrite lookup_delete_ne; [done|]. intros <-. by apply Hne, (U o x pt pt' b).
  - intros x y pt1 pt2 c (_ & Hx)%lookup_delete_Some (_ & Hy)%lookup_delete_Some. by apply U.
Qed.

Lemma hoare_destroy o : preserves (@Point_destroy K o).
Proof.
  intros w u w' Hwf E.
  unfold Point_destroy, get_obj, del_obj, delete_array, mbind, PM_bind, mret, PM_ret in E.
  destruct (objs w !! o) as [pt|] eqn:Ho; [|done].
  destruct (owns_ pt) eqn:Hown; [|simplify_eq; by apply wf_del_obj].
  destruct (pstart_ pt) as [|b [|off]] eqn:Hp; [simplify_eq; by apply wf_del_obj| |done].
  case_decide; [|done]. simplify_eq. by apply (wf_free w o pt b).
Qed.

(** Fewer cells of the same array. *)
Lemma owner_ok_dim w pt d :
  owner_ok w pt -> d <= n_ pt -> owner_ok w {| pstart_ := pstart_ pt; n_ := d; owns_ := owns_ pt |}.
Proof.
  unfold owner_ok; simpl. destruct (pstart_ pt); [lia|].
  intros [-> (l & ? & ?)] ?. split; [done|]. exists l. split; [done|lia].
Qed.

(** Changing an object's members without giving it a new array, as long
    as an owning object still owns its array and its cells. *)
Lemma wf_set_obj w o pt pt' :
  heap_wf w -> objs w !! o = Some pt ->
  (owns_ pt' = true -> owns_ pt = true /\ pstart_ pt' = pstart_ pt /\ owner_ok w pt') ->
  heap_wf (with_objs (<[o := pt']>) w).
Proof.
  intros Hwf Ho Hpt'. pose proof (wf_obj_lt w o pt Hwf Ho). pose proof Hwf as [F1 F2 Own U].
  split; simpl; [done| | |].
  - intros x Hx. rewrite lookup_insert_ne by lia. by apply F2.
  - intros x pt1. destruct (decide (x = o)) as [->|];
      [rewrite lookup_insert_eq|rewrite lookup_insert_ne by done; apply Own].
    intros [= <-] Hown'. by destruct (Hpt' Hown') as (_ & _ & Hok).
  - intros x y pt1 pt2 c.
    destruct (decide (x = o)) as [->|], (decide (y = o)) as [->|];
      rewrite ?lookup_insert_eq, ?lookup_insert_ne by done; [by intros| | |apply U].
    + intros [= <-] Hy Hown1 Hown2 Hp1 Hp2. destruct (Hpt' Hown1) as (Hown & Hp & _).
      rewrite Hp in Hp1. by apply (U o y pt pt2 c).
    + intros Hx [= <-] Hown1 Hown2 Hp1 Hp2. destruct (Hpt' Hown2) as (Hown & Hp & _).
      rewrite Hp in Hp2. by apply (U x o pt1 pt c).
Qed.

(** An owning point given a new dimension over the same array: the world
    is well formed again, once the cells are there, whatever the writes
    to cells in between. *)
Lemma wf_redim w w' o pt pt1 :
  heap_wf w -> objs w !! o = Some pt -> owns_ pt = true -> pstart_ pt1 = pstart_ pt ->
  owns_ pt1 = true -> same_shape (with_objs (<[o := pt1]>) w) w' -> owner_ok w' pt1 -> heap_wf w'.
Proof.
  intros Hwf Ho Hown Hp1 Hown1 Hs Hok.
  set (pt0 := {| pstart_ := pstart_ pt; n_ := 0; owns_ := owns_ pt |}).
  assert (H0 : heap_wf (with_objs (<[o := pt0]>) w)).
  { apply (wf_set_obj w o pt); [done|done|]. intros _. split_and!; [done|done|].
    apply owner_ok_dim; [by apply (wf_owners _ Hwf o)|lia]. }
  destruct Hs as (Ho' & Hnb & Hno & Hb).
  assert (H1 : heap_wf (with_objs (<[o := pt0]>) w')).
  { eapply shape_stable; [|exact H0]. split_and!; try done. simpl. rewrite Ho'. simpl.
    by rewrite insert_insert_eq. }
  assert (Ew : w' = with_objs (<[o := pt1]>) (with_objs (<[o := pt0]>) w')).
  { destruct w' as [bs nb os no]. unfold with_objs; simpl in *. rewrite insert_insert_eq, insert_id; [done|].
    rewrite Ho'. apply lookup_insert_eq. }
  rewrite Ew. apply (wf_set_obj _ o pt0); [done|simpl; apply lookup_insert_eq|].
  intros _. by split_and!.
Qed.
End HeapOps.

Create HintDb heap.

(** Proof steps for [preserves]: split binds, use the lemmas of the
    primitives and of the member functions already shown, and treat the
    shape-preserving steps with [stays_solve]. *)
Ltac hoare_step :=
  match goal with
  | |- preserves _ => unfold preserves
  | |- forall _, _ => intros ?; cbv beta
  | |- hoare _ (@mbind _ _ _ _ _ _) _ => eapply hoare_bind
  | |- hoare _ (new_array _) _ => apply hoare_new_array
  | |- hoare _ (new_obj _) _ =>
      first [apply hoare_new_obj_alloc | apply hoare_new_obj_plain; by (left + right)]
  | |- hoare _ (swap _ _) _ => apply hoare_swap
  | |- hoare _ (Point_destroy _) _ => apply hoare_destroy
  | |- hoare _ (mret _) _ => apply hoare_ret; by intros
  | |- hoare _ _ _ => solve [eauto with heap]
  | |- hoare _ _ _ => solve [eapply (hoare_stays _); stays_solve]
  | |- hoare _ _ _ => case_match
  end.

Ltac hoare_solve := repeat hoare_step.

(** ** The member functions that allocate, free or change objects *)
Section PreserveOps.
Context {K : Type} `{Scalar K} `{ScalarOrd K}.

Lemma preserves_Point_dim d : preserves (Point_dim (K:=K) d).
Proof. unfold Point_dim. hoare_solve. Qed.

#[local] Hint Extern 1 (hoare _ (Point_dim _) _) => apply preserves_Point_dim : heap.

Lemma preserves_Point_copy v : preserves (Point_copy (K:=K) v).
Proof. unfold Point_copy, copy_cells. hoare_solve. Qed.

Lemma preserves_Point_xyz x y z : preserves (Point_xyz (K:=K) x y z).
Proof. unfold Point_xyz. hoare_solve. Qed.

#[local] Hint Extern 1 (hoare _ (Point_copy _) _) => apply preserves_Point_copy : heap.
#[local] Hint Extern 1 (hoare _ (Point_xyz _ _ _) _) => apply preserves_Point_xyz : heap.

Lemma preserves_resize o d : preserves (resize (K:=K) o d).
Proof.
  intros w u w' Hwf E. destruct (objs w !! o) as [pt|] eqn:Ho;
    [|by unfold resize, get_obj, mbind, PM_bind in E; rewrite Ho in E].
  unfold resize in E. rewrite (PM_bind_inr _ _ _ _ _ (get_obj_Some _ _ _ Ho)) in E. case_decide.
  - clear Ho. revert w u w' Hwf E. change (preserves (temp ← Point_dim (K:=K) d; swap o temp;; Point_destroy temp)).
    hoare_solve.
  - unfold set_obj in E. simplify_eq. apply (wf_set_obj w o pt); [done|done|simpl; intros Hown].
    split_and!; [done|done|]. apply owner_ok_dim; [by apply (wf_owners _ Hwf o)|lia].
Qed.

#[local] Hint Extern 1 (hoare _ (resize _ _) _) => apply preserves_resize : heap.

Lemma bind_inr_inv {A B} (m : PM K A) (f : A -> PM K B) w b w' :
  (x ← m; f x) w = inr (b, w') -> exists a w1, m w = inr (a, w1) /\ f a w1 = inr (b, w').
Proof. unfold mbind, PM_bind. destruct (m w) as [e|[a w1]]; [done|]. eauto. Qed.

Lemma bind_eq_inv {A B} (m : PM K A) (f : A -> PM K B) w b w' :
  stays eq m -> (x ← m; f x) w = inr (b, w') -> exists a, f a w = inr (b, w').
Proof. intros Hm (a & w1 & E1 & E2)%bind_inr_inv. rewrite <- (Hm _ _ _ E1) in E2. eauto. Qed.

Lemma store_inr p i c w u w' :
  store (K:=K) p i c w = inr (u, w') ->
  exists b off l, p = Addr b off /\ blocks w !! b = Some l /\ off + i < Datatypes.length l.
Proof.
  unfold store. destruct p as [|b off]; [done|]. destruct (blocks w !! b) as [l|] eqn:Hb; [|done].
  case_decide; [|done]. intros _. by exists b, off, l.
Qed.

Lemma stays_cross_cell o u v k i j : stays same_shape (cross_cell (K:=K) o u v k i j).
Proof. unfold cross_cell. stays_solve. Qed.

#[local] Hint Resolve stays_cross_cell : stays.

(** A statement of [setToCrossProd] that succeeds wrote inside the array. *)
Lemma cross_cell_store o u v k i j w w' pt :
  cross_cell (K:=K) o u v k i j w = inr (tt, w') -> objs w !! o = Some pt ->
  exists b off l, pstart_ pt = Addr b off /\ blocks w !! b = Some l /\ off + k < Datatypes.length l.
Proof.
  intros E Ho. unfold cross_cell in E. rewrite (PM_bind_inr _ _ _ _ _ (get_obj_Some _ _ _ Ho)) in E.
  repeat (eapply bind_eq_inv in E; [destruct E as [? E]|solve [stays_solve]]).
  by apply store_inr in E.
Qed.

(** [setToCrossProd] keeps the invariant in both builds: in a release
    build with 2D arguments the reused array may be too short for the
    third coordinate, but then the write to it is undefined and the run
    does not succeed. *)
Lemma preserves_setToCrossProd debug o u v : preserves (setToCrossProd (K:=K) debug o u v).
Proof.
  intros w r w' Hwf E. unfold setToCrossProd in E.
  do 4 (eapply bind_eq_inv in E; [destruct E as [? E]|solve [stays_solve]]).
  destruct (objs w !! o) as [pt|] eqn:Ho; [|by unfold get_obj, mbind, PM_bind in E; rewrite Ho in E].
  rewrite (PM_bind_inr _ _ _ _ _ (get_obj_Some _ _ _ Ho)) in E.
  destruct (owns_ pt && bool_decide _) eqn:Hre.
  - apply andb_prop in Hre as [Hown _].
    set (pt1 := {| pstart_ := pstart_ pt; n_ := 3; owns_ := owns_ pt |}) in E.
    rewrite (PM_bind_inr (set_obj o pt1) _ w tt (with_objs (<[o := pt1]>) w) eq_refl) in E.
    apply bind_inr_inv in E as ([] & wa & Ea & E). apply bind_inr_inv in E as ([] & wb & Eb & Ec).
    destruct r.
    pose proof (stays_cross_cell _ _ _ _ _ _ _ _ _ Ea) as Sa.
    pose proof (stays_cross_cell _ _ _ _ _ _ _ _ _ Eb) as Sb.
    pose proof (stays_cross_cell _ _ _ _ _ _ _ _ _ Ec) as Sc.
    assert (Sw : same_shape (with_objs (<[o := pt1]>) w) w') by (do 2 etrans; done).
    apply (wf_redim w w' o pt pt1); try done.
    assert (Hob : objs wb !! o = Some pt1).
    { destruct Sb as [-> _], Sa as [-> _]. simpl. apply lookup_insert_eq. }
    destruct (cross_cell_store _ _ _ _ _ _ _ _ _ Ec Hob) as (b & off & l & Hp & Hl & Hk).
    destruct (wf_owner_live w o pt b off Hwf Ho Hown Hp) as (-> & _).
    unfold owner_ok. rewrite Hp. split; [done|].
    destruct Sc as (_ & _ & _ & Hbc). specialize (Hbc b). rewrite Hl in Hbc.
    destruct (blocks w' !! b) as [l'|]; simplify_eq/=. exists l'. split; [done|simpl; lia].
  - assert (Hp : preserves ((temp ← Point_dim (K:=K) 3; swap o temp;; Point_destroy temp);;
      cross_cell o u v 0 1 2;; cross_cell o u v 1 2 0;; cross_cell o u v 2 0 1)) by hoare_solve.
    exact (Hp w r w' Hwf E).
Qed.

(** C32. Every member function of [Go::Point] that allocates, frees or
    changes objects keeps the ownership invariant [heap_wf], in both
    builds: the constructors, the copy constructor, [operator =], [swap],
    the destructor, [resize], the [setValue] that resize, the arithmetic
    operators that return a new point, [operator %] and [setToCrossProd].
    So no sequence of these calls, started from a well-formed world, makes
    two owning points share an array or gives an owning point fewer cells
    than its dimension. *)
Theorem Point_ops_preserve_heap_wf (debug own : bool) (o u v t d len : nat) (x y z : K)
    (vals : list K) (p : Ptr) :
  preserves (Point_default (K:=K)) /\ preserves (Point_dim (K:=K) d) /\
  preserves (Point_xy x y) /\ preserves (Point_xyz x y z) /\ preserves (Point_of_values vals) /\
  preserves (Point_range (K:=K) p len own) /\ preserves (Point_copy (K:=K) v) /\
  preserves (assign (K:=K) o v) /\ preserves (swap (K:=K) o t) /\
  preserves (Point_destroy (K:=K) o) /\ preserves (resize (K:=K) o d) /\
  preserves (setValue2 o x y) /\ preserves (setValue3 o x y z) /\
  preserves (add debug o v) /\ preserves (sub debug o v) /\ preserves (mul o x) /\
  preserves (div o x) /\ preserves (scalar_mul x o) /\ preserves (neg o) /\
  preserves (cross debug o v) /\ preserves (setToCrossProd debug o u v).
Proof.
  split_and!; try apply preserves_setToCrossProd;
    unfold Point_default, Point_xy, Point_of_values, Point_range, assign, setValue2, setValue3,
      scalar_mul, add, sub, mul, div, neg, cross, copy_cells, add_assign, sub_assign, mul_assign,
      div_assign; hoare_solve.
Qed.
End PreserveOps.

(** ** What the invariant gives *)
Section HeapUse.
Context {K : Type}.

(** C33. [operator[]] on a well-formed world: for an owning point and
    [0 <= i < n_], [p[i] = x] always succeeds (it neither touches freed
    memory nor runs past the array, whatever the build), keeps the world
    well formed, and [p[i]] then reads [x]. *)
Theorem heap_wf_index_live `{Scalar K} `{ScalarOrd K} (w : World K) o pt (i : Z) (x : K) :
  heap_wf w -> objs w !! o = Some pt -> owns_ pt = true -> (0 <= i < Z.of_nat (n_ pt))%Z ->
  exists w', set o i x w = inr (tt, w') /\ heap_wf w' /\ get o i w' = inr (x, w').
Proof.
  intros Hwf Ho Hown Hi. pose proof (wf_owners _ Hwf o pt Ho Hown) as Hok. unfold owner_ok in Hok.
  destruct (pstart_ pt) as [|b off] eqn:Hp; [lia|]. destruct Hok as [-> (l & Hl & Hn)].
  set (w' := with_blocks (<[b := <[Z.to_nat i := Some x]> l]>) w).
  assert (E : set o i x w = inr (tt, w')).
  { unfold set. rewrite (PM_bind_inr _ _ _ _ _ (get_obj_Some _ _ _ Ho)), Hp, decide_False by lia.
    unfold store. rewrite Hl, decide_True by lia. done. }
  exists w'. split; [done|]. split.
  - assert (Hs : stays same_shape (set (K:=K) o i x)) by (unfold set; stays_solve).
    apply (shape_stable w); [exact (Hs _ _ _ E)|done].
  - unfold get. rewrite (PM_bind_inr _ _ _ _ _ (get_obj_Some o pt w' Ho)), Hp, decide_False by lia.
    apply (load_val_Some _ _ _ (<[Z.to_nat i := Some x]> l)); [apply lookup_insert_eq|].
    apply list_lookup_insert_eq. lia.
Qed.

(** The empty world is well formed. *)
Lemma heap_wf_empty : heap_wf (Build_World (K:=K) ∅ 0 ∅ 0).
Proof. split; simpl; intros; by rewrite ?lookup_empty in *. Qed.

(** The memory hypotheses of the specifications of [PointProps] hold for
    owning points of a well-formed world. *)
Lemma heap_wf_owned (w : World K) o pt :
  heap_wf w -> objs w !! o = Some pt -> owns_ pt = true ->
  owned_ok w pt /\ cap_ok w pt /\ blocks w !! next_blk w = None /\ objs w !! next_obj w = None.
Proof.
  intros Hwf Ho Hown. pose proof (wf_owners _ Hwf o pt Ho Hown) as Hok.
  split_and!; [|..|by apply (wf_blocks_fresh _ Hwf)|by apply (wf_objs_fresh _ Hwf)].
  - intros _. unfold owner_ok in Hok. destruct (pstart_ pt) as [|b off]; [by left|right].
    destruct Hok as [-> (l & Hl & _)]. exists b. split; [done|]. by exists l.
  - unfold owner_ok, cap_ok in *. destruct (pstart_ pt) as [|b off]; [done|].
    destruct Hok as [-> (l & Hl & Hn)]. exists l. split; [done|lia].
Qed.
End HeapUse.
