(* ===== verification/PointAngle.v ===== *)
(** * PointAngle: iterators and angles of [Go::Point]

    The members [angle] and [angle_smallest] of [gotools_core/Point.h],
    modelled over any [acos] (of [<math.h>], which the code only calls),
    and the range of the value each passes to [acos]: [cosAngle] clamps
    its quotient by [std::min(1.0, std::max(-1.0, res))] and
    [angle_smallest] takes [std::min(1.0, fabs(...))], so [acos] is called
    on [[-1, 1]] and on [[0, 1]].  The bound needs no Cauchy-Schwarz and
    no exact [sqrt]: it follows from the clamps and the order laws of [<]
    alone (irreflexive, asymmetric, transitive, [-1 < 0 < 1], [fabs]
    never negative), which hold on [Qc] and on every non-NaN double; a
    NaN quotient compares false with everything and is clamped to an end
    point. *)

From Stdlib Require Import ZArith QArith Qcanon Qcabs.
From stdpp Require Import base list gmap.
From S2P Require Import Prelude Scalars Point PointHeap.
Import Go.

(** ** The angle members *)
Section PointAngle.
Context {K : Type} `{Scalar K} `{ScalarOrd K} `{ScalarSqrt K}.
Context (debug : bool) (acos : K -> K).
Local Open Scope scalar_scope.

(** [angle(v)]: [acos(cosAngle(v))]. *)
Definition angle (o v : nat) : PM K K := c ← cosAngle debug o v; mret (acos c).

(** [angle_smallest(v)]: the zero-length check is a debug check only; the
    cosine is [fabs] of the quotient, capped by [std::min(1.0, tcos)]. *)
Definition angle_smallest (o v : nat) : PM K K :=
  tl1 ← length o; tl2 ← length v;
  DEBUG_ERROR_IF debug (seqb (tl1 * tl2) szero);;
  d ← dot debug o v;
  mret (acos (std_min sone (sabs (sdiv d (tl1 * tl2))))).
End PointAngle.

(** [a <= b] as the C++ code would test it, [a < b || a == b]: false as
    soon as one side is a NaN. *)
Definition sle {K} `{ScalarOrd K} (a b : K) : Prop := (sltb a b || seqb a b) = true.

(** [x] lies in [[lo, hi]]: [lo <= x] and [x <= hi].  On doubles a NaN is
    never in a range. *)
Definition within {K} `{ScalarOrd K} (lo hi x : K) : Prop := sle lo x /\ sle x hi.

(** ** The argument of [acos]

    The hypotheses are the order facts of [-1], [0] and [1] (closed, so
    they hold on doubles by evaluation), and that an [fabs(x)] comparable
    with anything is at least [0]; a NaN compares false with everything
    and is then ruled out by the clamps themselves. *)
Section AngleBounds.
Context {K : Type} `{Scalar K} `{ScalarOrd K} `{ScalarSqrt K}.
Local Open Scope scalar_scope.
Hypothesis lt_m1_0 : sltb (- sone) szero = true.
Hypothesis lt_0_1 : sltb szero sone = true.
Hypothesis lt_m1_1 : sltb (- sone) sone = true.
Hypothesis eq_m1 : seqb (- sone) (- sone) = true.
Hypothesis eq_1 : seqb sone sone = true.
Hypothesis abs_ordered_nonneg : forall x y : K, sltb (sabs x) y = true -> sle szero (sabs x).

Lemma sle_lt a b : sltb a b = true -> sle a b.
Proof. intros E. unfold sle. by rewrite E. Qed.

Lemma sle_eq a : seqb a a = true -> sle a a.
Proof. intros E. unfold sle. by rewrite E, orb_true_r. Qed.

Lemma std_max_m1 x : sle (- sone) (std_max (- sone) x).
Proof. unfold std_max. destruct (sltb (- sone) x) eqn:E; [by apply sle_lt|by apply sle_eq]. Qed.

Lemma within_clamp x : within (- sone) sone (std_min sone (std_max (- sone) x)).
Proof.
  unfold std_min. destruct (sltb (std_max (- sone) x) sone) eqn:E.
  - split; [apply std_max_m1|by apply sle_lt].
  - split; [by apply sle_lt|by apply sle_eq].
Qed.

Lemma within_zero : within (- sone) sone szero.
Proof. split; by apply sle_lt. Qed.

Lemma within_cap x : within szero sone (std_min sone (sabs x)).
Proof.
  unfold std_min. destruct (sltb (sabs x) sone) eqn:E.
  - split; [by apply (abs_ordered_nonneg x sone)|by apply sle_lt].
  - split; [by apply sle_lt|by apply sle_eq].
Qed.

(** What [cosAngle] returns: [0.0] or a clamped quotient. *)
Lemma cosAngle_result debug o v (w w' : World K) c :
  cosAngle debug o v w = inr (c, w') ->
  c = szero \/ exists x, c = std_min sone (std_max (- sone) x).
Proof.
  unfold cosAngle. intros (tl1 & w1 & _ & E)%bind_inr_inv.
  apply bind_inr_inv in E as (tl2 & w2 & _ & E).
  destruct (seqb (smul tl1 tl2) szero).
  - injection E as <- _. by left.
  - apply bind_inr_inv in E as (d & w3 & _ & E). injection E as <- _. right. eauto.
Qed.

Lemma cosAngle_within debug o v (w w' : World K) c :
  cosAngle debug o v w = inr (c, w') -> within (- sone) sone c.
Proof.
  intros [-> | [x ->]]%cosAngle_result; [apply within_zero|apply within_clamp].
Qed.

(** C28. [acos] is called in its domain: whatever the world and the
    build, a value returned by [angle] is [acos c] with [-1 <= c <= 1],
    and a value returned by [angle_smallest] is [acos t] with
    [0 <= t <= 1], for any [sqrt]; the bounds are tested as the code
    would ([<] or [==]), so on doubles [c] and [t] are never NaN: the
    clamps of [cosAngle] and [angle_smallest] turn a NaN quotient into an
    end point. *)
Theorem angle_acos_domain debug (acos : K -> K) o v (w w' : World K) r :
  (angle debug acos o v w = inr (r, w') ->
     exists c, r = acos c /\ within (- sone) sone c) /\
  (angle_smallest debug acos o v w = inr (r, w') ->
     exists t, r = acos t /\ within szero sone t).
Proof.
  split.
  - unfold angle. intros (c & w1 & Ec & E)%bind_inr_inv. injection E as <- _.
    exists c. split; [done|]. by eapply cosAngle_within.
  - unfold angle_smallest. intros E.
    do 4 (apply bind_inr_inv in E as (? & ? & _ & E)).
    injection E as <- _. eexists. split; [done|apply within_cap].
Qed.
End AngleBounds.

(** ** The order facts on exact scalars *)
Section QcOrder.
Local Open Scope Qc_scope.

Lemma Qc_abs_ordered_nonneg (x y : Qc) : sltb (sabs x) y = true -> sle szero (sabs x).
Proof.
  intros _. unfold sle. destruct (Qc_eq_dec (sabs x) szero) as [E|Hne].
  - rewrite E. apply orb_true_iff. right. by apply Qc_seqb_spec.
  - apply orb_true_iff. left. apply Qc_sltb_spec.
    pose proof (Qcabs_nonneg x) as Hle. apply Qcle_lt_or_eq in Hle as [Hlt|Heq]; [done|].
    exfalso. apply Hne. symmetry. exact Heq.
Qed.
End QcOrder.
