(* ===== verification/PointBuilds.v ===== *)
(** * PointBuilds: what [DEBUG_ERROR_IF] changes in [Go::Point]

    [DEBUG_ERROR_IF] (of [errormacros.h]) is the only source of the error
    [DimensionMismatch]: in a release build it does nothing, so a member
    function can then fail only by undefined behaviour (a read past an
    array, of an uninitialised cell, of freed memory), while in a debug
    build the same call stops at its check.  [only_ub m] says that every
    failure of [m] is undefined behaviour; it composes through [bind] and
    the loops, with the tactic [ub_solve] and the hint database [builds]. *)

From Stdlib Require Import ZArith.
From stdpp Require Import base list gmap.
From S2P Require Import Prelude Point PointProps PointAngle.
Import Go.

(** ** Computations whose only failure is undefined behaviour *)
Section OnlyUB.
Context {K : Type}.

Definition only_ub {A} (m : PM K A) : Prop :=
  forall w e, m w = inl e -> e = UndefinedBehaviour.

Lemma only_ub_ret {A} (a : A) : only_ub (mret a).
Proof. by intros w e. Qed.

Lemma only_ub_bind {A B} (m : PM K A) (f : A -> PM K B) :
  only_ub m -> (forall a, only_ub (f a)) -> only_ub (x ← m; f x).
Proof.
  intros Hm Hf w e. unfold mbind, PM_bind.
  destruct (m w) as [e'|[a w1]] eqn:E; [intros [= <-]; by eapply Hm|apply Hf].
Qed.

Lemma only_ub_throw {A} : only_ub (@throw K A UndefinedBehaviour).
Proof. by intros w e [= <-]. Qed.

Lemma only_ub_get_obj o : only_ub (@get_obj K o).
Proof. intros w e. unfold get_obj. case_match; congruence. Qed.

Lemma only_ub_set_obj o pt : only_ub (@set_obj K o pt).
Proof. by intros w e. Qed.

Lemma only_ub_new_obj pt : only_ub (@new_obj K pt).
Proof. by intros w e. Qed.

Lemma only_ub_del_obj o : only_ub (@del_obj K o).
Proof. by intros w e. Qed.

Lemma only_ub_new_array d : only_ub (@new_array K d).
Proof. by intros w e. Qed.

Lemma only_ub_delete_array p : only_ub (@delete_array K p).
Proof. intros w e. unfold delete_array. repeat case_match; congruence. Qed.

Lemma only_ub_load p i : only_ub (@load K p i).
Proof. intros w e. unfold load. repeat case_match; congruence. Qed.

Lemma only_ub_store p i c : only_ub (@store K p i c).
Proof. intros w e. unfold store. repeat case_match; congruence. Qed.

Lemma only_ub_mfor l body : (forall i, only_ub (body i)) -> only_ub (@mfor K l body).
Proof.
  intros Hb. induction l as [|i l IH]; simpl; [apply only_ub_ret|].
  apply only_ub_bind; [apply Hb|intros; apply IH].
Qed.

Lemma only_ub_mfold {A} (f : A -> nat -> PM K A) a l :
  (forall a i, only_ub (f a i)) -> only_ub (mfold f a l).
Proof.
  intros Hf. revert a. induction l as [|i l IH]; intros a; simpl; [apply only_ub_ret|].
  apply only_ub_bind; [apply Hf|intros; apply IH].
Qed.
End OnlyUB.

Create HintDb builds.
#[export] Hint Resolve only_ub_ret only_ub_throw only_ub_get_obj only_ub_set_obj only_ub_new_obj
  only_ub_del_obj only_ub_new_array only_ub_delete_array only_ub_load only_ub_store : builds.

Ltac ub_step :=
  match goal with
  | |- forall _, _ => intros ?
  | |- only_ub (@mbind _ _ _ _ _ _) => apply only_ub_bind
  | |- only_ub (mfor _ _) => apply only_ub_mfor
  | |- only_ub (mfold _ _ _) => apply only_ub_mfold
  | |- only_ub _ => solve [eauto with builds]
  | |- only_ub _ => case_match
  end.

Ltac ub_solve := repeat ub_step.

(** ** The members in a release build *)
Section Release.
Context {K : Type} `{Scalar K} `{ScalarOrd K}.

Lemma only_ub_DEBUG_release c : only_ub (@DEBUG_ERROR_IF K false c).
Proof. unfold DEBUG_ERROR_IF. apply only_ub_ret. Qed.

Lemma only_ub_load_val p i : only_ub (@load_val K p i).
Proof. unfold load_val. ub_solve. Qed.

#[local] Hint Resolve only_ub_DEBUG_release only_ub_load_val : builds.

Lemma only_ub_Point_dim d : only_ub (@Point_dim K d).
Proof. unfold Point_dim. ub_solve. Qed.

Lemma only_ub_Point_xyz x y z : only_ub (@Point_xyz K x y z).
Proof. unfold Point_xyz. ub_solve. Qed.

Lemma only_ub_Point_destroy o : only_ub (@Point_destroy K o).
Proof. unfold Point_destroy. ub_solve. Qed.

Lemma only_ub_swap o o' : only_ub (@swap K o o').
Proof. unfold swap. ub_solve. Qed.

Lemma only_ub_Point_copy v : only_ub (@Point_copy K v).
Proof. unfold Point_copy, copy_cells. ub_solve. Qed.

Lemma only_ub_cross_cell o u v k i j : only_ub (cross_cell (K:=K) o u v k i j).
Proof. unfold cross_cell. ub_solve. Qed.

Lemma only_ub_lt_loop p1 p2 i : only_ub (lt_loop (K:=K) p1 p2 i).
Proof. induction i as [|i IH]; simpl; ub_solve. Qed.

Lemma only_ub_map_assign f o : only_ub (map_assign (K:=K) f o).
Proof. unfold map_assign. ub_solve. Qed.

Lemma only_ub_zip_assign f o v : only_ub (zip_assign (K:=K) false f o v).
Proof. unfold zip_assign. ub_solve. Qed.

Lemma only_ub_dot o v : only_ub (dot (K:=K) false o v).
Proof. unfold dot. ub_solve. Qed.

Lemma only_ub_length2 o : only_ub (length2 (K:=K) o).
Proof. unfold length2. ub_solve. Qed.
End Release.

#[export] Hint Resolve only_ub_DEBUG_release only_ub_load_val only_ub_Point_dim only_ub_Point_xyz
  only_ub_Point_destroy only_ub_swap only_ub_Point_copy only_ub_cross_cell only_ub_lt_loop only_ub_map_assign
  only_ub_zip_assign only_ub_dot only_ub_length2 : builds.

(** ** The two builds *)
Section Builds.
Context {K : Type} `{Scalar K} `{ScalarOrd K} `{ScalarSqrt K}.

Lemma DEBUG_ERROR_IF_fires {A} (f : unit -> PM K A) (w : World K) :
  (x ← DEBUG_ERROR_IF true true; f x) w = inl DimensionMismatch.
Proof. done. Qed.

(** The members that open with [DEBUG_ERROR_IF] on the dimensions of two
    points [o] and [v]: a debug build stops there. *)
Lemma debug_two_points {A} (g : Point -> Point -> bool) (k : Point -> Point -> unit -> PM K A)
      o v (w : World K) pt pv :
  objs w !! o = Some pt -> objs w !! v = Some pv -> g pt pv = true ->
  (pt ← get_obj o; pv ← get_obj v; x ← DEBUG_ERROR_IF true (g pt pv); k pt pv x) w =
    inl DimensionMismatch.
Proof.
  intros Ho Hv Hg. rewrite (PM_bind_inr _ _ _ _ _ (get_obj_Some _ _ _ Ho)),
    (PM_bind_inr _ _ _ _ _ (get_obj_Some _ _ _ Hv)), Hg. done.
Qed.

Lemma negb_eqb_true (m n : nat) : m <> n -> negb (m =? n) = true.
Proof. intros Hne. apply negb_true_iff, Nat.eqb_neq, Hne. Qed.

(** C29. The dimension checks exist only in debug builds.  In a release
    build no member function with a [DEBUG_ERROR_IF] ever fails with
    [DimensionMismatch], in any world: it runs on and can only fail by
    undefined behaviour (reading past an array, for instance).  In a debug
    build, [p += q], [p -= q], [p * q] and [p < q] on points of different
    dimensions, [p % q] and [p.setToCrossProd(u, v)] off three dimensions,
    and [resetValue(idx, .)] with [idx] outside [[0, n_)] all throw
    [DimensionMismatch]. *)
Theorem debug_checks_only (acos : K -> K) (w : World K) o v u (idx : Z) (x : K) pt pv pu :
  (only_ub (add_assign false o v) /\ only_ub (sub_assign false o v) /\ only_ub (dot false o v) /\
   only_ub (cross false o v) /\ only_ub (setToCrossProd false o u v) /\
   only_ub (Point_lt false o v) /\ only_ub (resetValue false o idx x) /\
   only_ub (normalize false o) /\ only_ub (cosAngle false o v) /\
   only_ub (angle false acos o v) /\ only_ub (angle_smallest false acos o v)) /\
  (objs w !! o = Some pt -> objs w !! v = Some pv -> n_ pt <> n_ pv ->
     add_assign true o v w = inl DimensionMismatch /\ sub_assign true o v w = inl DimensionMismatch /\
     dot true o v w = inl DimensionMismatch /\ Point_lt true o v w = inl DimensionMismatch) /\
  (objs w !! o = Some pt -> objs w !! v = Some pv -> (n_ pt <> 3 \/ n_ pv <> 3) ->
     cross true o v w = inl DimensionMismatch) /\
  (objs w !! u = Some pu -> objs w !! v = Some pv -> (n_ pu <> n_ pv \/ n_ pu <> 3) ->
     setToCrossProd true o u v w = inl DimensionMismatch) /\
  (objs w !! o = Some pt -> ((idx < 0)%Z \/ (Z.of_nat (n_ pt) <= idx)%Z) ->
     resetValue true o idx x w = inl DimensionMismatch).
Proof.
  split_and!.
  all: try (unfold angle, add_assign, sub_assign, cross, setToCrossProd, Point_lt, resetValue, normalize,
              cosAngle, angle_smallest, length, div_assign; solve [ub_solve]).
  - intros Ho Hv Hne. unfold add_assign, sub_assign, zip_assign, dot, Point_lt.
    split_and!; (apply (debug_two_points _ _ o v w pt pv); [done|done|]); by apply negb_eqb_true.
  - intros Ho Hv Hne. unfold cross. apply (debug_two_points _ _ o v w pt pv); [done|done|].
    apply orb_true_iff. destruct Hne; [left|right]; by apply negb_eqb_true.
  - intros Hu Hv Hne. unfold setToCrossProd.
    rewrite (PM_bind_inr _ _ _ _ _ (get_obj_Some _ _ _ Hu)), (PM_bind_inr _ _ _ _ _ (get_obj_Some _ _ _ Hv)).
    destruct (decide (n_ pu = n_ pv)) as [Heq|Hne'].
    + assert (n_ pu <> 3) by tauto. rewrite (proj2 (Nat.eqb_eq _ _) Heq), negb_eqb_true by done. done.
    + rewrite (negb_eqb_true (n_ pu) (n_ pv) Hne'). reflexivity.
  - intros Ho Hidx. unfold resetValue. rewrite (PM_bind_inr _ _ _ _ _ (get_obj_Some _ _ _ Ho)).
    destruct Hidx as [Hi|Hi].
    + by rewrite bool_decide_true by done.
    + by rewrite (bool_decide_true (_ <= _)%Z), orb_true_r by done.
Qed.
End Builds.
