(* ===== verification/PointScenario.v ===== *)
(** * PointScenario: concrete runs of [Go::Point]

    Small programs over the member functions, run from the empty world by
    the kernel: the order [operator <] and the max-norm on doubles with a
    NaN, and the two angles of a zero vector in a release build.  They
    also instantiate the general theorems of [PointProps], [PointHeap],
    [PointAngle] and [PointBuilds] at concrete points (the witnesses). *)

From Stdlib Require Import ZArith QArith Qcanon PrimFloat.
From stdpp Require Import base list gmap.
From S2P Require Import Prelude Scalars Point PointProps PointHeap PointAngle PointBuilds.
Import Go.
Local Close Scope Qc_scope.
Local Close Scope Q_scope.

(** The empty world: no array, no point. *)
Definition w0 {K} : World K := Build_World ∅ 0 ∅ 0.

(** The final world of a run, or the empty one on an error. *)
Definition final {K A} (r : PointErr + (A * World K)) : World K :=
  match r with inr (_, w) => w | inl _ => w0 end.

(** Points [p = (1, 2, 3)] (address 0), [q = (4, 5, 6)] (address 1) and
    [r = (0, 0, 0)] (address 2), each owning its array. *)
Definition pqr : World Qc :=
  final ((_ ← Point_xyz (qc 1) (qc 2) (qc 3); _ ← Point_xyz (qc 4) (qc 5) (qc 6);
          Point_xyz 0%Qc 0%Qc 0%Qc) w0).

(** ** Doubles with a NaN *)

(** Points [(1)], [(NaN)] and [(2)] at addresses 0, 1, 2. *)
Definition nan_world : World float :=
  final ((_ ← Point_of_values [1%float]; _ ← Point_of_values [nan];
          Point_of_values [2%float]) w0).

Definition lt_in (w : World float) (a b : nat) : PointErr + bool :=
  match Point_lt true a b w with inr (r, _) => inr r | inl e => inl e end.

(** With doubles, [operator <] is not a strict weak order (the
    requirement of [std::sort] and [std::map]): [(NaN)] is unordered with
    both [(1)] and [(2)], yet [(1) < (2)]. *)
Example Point_lt_nan_not_weak_order :
  lt_in nan_world 0 2 = inr true /\
  lt_in nan_world 0 1 = inr false /\ lt_in nan_world 1 0 = inr false /\
  lt_in nan_world 1 2 = inr false /\ lt_in nan_world 2 1 = inr false.
Proof. vm_compute. repeat split. Qed.

(** [lengthInf()] skips a NaN coordinate: [std::max(linf, NaN)] keeps
    [linf], so the max-norm of [(NaN, 1)] and of [(1, NaN)] is [1]. *)
Example lengthInf_ignores_nan :
  (p ← Point_of_values [nan; 1%float]; lengthInf p) w0 =
    inr (1%float, final (Point_of_values [nan; 1%float] w0)) /\
  (p ← Point_of_values [1%float; nan]; lengthInf p) w0 =
    inr (1%float, final (Point_of_values [1%float; nan] w0)).
Proof. vm_compute. split; reflexivity. Qed.

(** ** Instances of the general theorems *)

Definition p_pt : Point := {| pstart_ := Addr 0 0; n_ := 3; owns_ := true |}.
Definition r_pt : Point := {| pstart_ := Addr 2 0; n_ := 3; owns_ := true |}.

Lemma pqr_objs : objs pqr !! 0 = Some p_pt /\ objs pqr !! 2 = Some r_pt.
Proof. vm_compute. split; reflexivity. Qed.

Lemma pqr_values :
  value pqr 0 = Some [qc 1; qc 2; qc 3] /\ value pqr 1 = Some [qc 4; qc 5; qc 6] /\
  value pqr 2 = Some [0%Qc; 0%Qc; 0%Qc].
Proof. vm_compute. repeat split. Qed.

Lemma pqr_fresh : blocks pqr !! next_blk pqr = None /\ objs pqr !! next_obj pqr = None.
Proof. vm_compute. split; reflexivity. Qed.

(** [p += p] doubles [p]. *)
Lemma add_assign_value_witness :
  exists w', add_assign true 0 0 pqr = inr (tt, w') /\
    value w' 0 = Some (zip_with sadd [qc 1; qc 2; qc 3] [qc 1; qc 2; qc 3]) /\
    forall o' pt', objs pqr !! o' = Some pt' -> apart (pstart_ p_pt) (pstart_ pt') ->
      value w' o' = value pqr o'.
Proof.
  apply add_assign_value; [apply pqr_objs|apply pqr_values|apply pqr_values|done|by left].
Defined.

Lemma Point_lt_colex_witness :
  exists b, Point_lt true 0 1 pqr = inr (b, pqr) /\ (b = true <-> colex_lt [qc 1; qc 2; qc 3] [qc 4; qc 5; qc 6]).
Proof. apply Point_lt_colex; [apply pqr_values|apply pqr_values|done]. Defined.

Lemma Point_lt_strict_total_witness :
  Point_lt true 0 0 pqr = inr (false, pqr) /\
  (Point_lt true 0 1 pqr = inr (true, pqr) -> Point_lt true 1 2 pqr = inr (true, pqr) ->
   Point_lt true 0 2 pqr = inr (true, pqr)) /\
  ([qc 1; qc 2; qc 3] <> [qc 4; qc 5; qc 6] ->
   Point_lt true 0 1 pqr = inr (true, pqr) \/ Point_lt true 1 0 pqr = inr (true, pqr)).
Proof.
  apply (Point_lt_strict_total true pqr 0 1 2 _ _ [0%Qc; 0%Qc; 0%Qc]); try apply pqr_values; done.
Defined.

Lemma pqr_owned : owned_ok pqr p_pt /\ owned_ok pqr r_pt.
Proof. split; intros _; right; eexists; (split; [reflexivity|]); vm_compute; by eexists. Qed.

Lemma resize_spec_witness :
  (2 <= 3 -> exists w', resize 0 2 pqr = inr (tt, w') /\ value w' 0 = Some (take 2 [qc 1; qc 2; qc 3])) /\
  (3 < 5 -> exists w', resize 0 5 pqr = inr (tt, w') /\ size 0 w' = inr (5, w') /\
     forall i, get 0 i w' = inl UndefinedBehaviour).
Proof.
  split; [apply (resize_spec 0 2 pqr p_pt [qc 1; qc 2; qc 3])|apply (resize_spec 0 5 pqr p_pt [qc 1; qc 2; qc 3])];
    try apply pqr_objs; try apply pqr_values; try apply pqr_fresh; apply pqr_owned.
Defined.

Lemma cross_orthogonal_witness :
  exists r w', cross true 0 1 pqr = inr (r, w') /\
    dot true 0 r w' = inr (szero, w') /\ dot true 1 r w' = inr (szero, w').
Proof.
  apply (cross_orthogonal Qc_ring true 0 1 pqr [qc 1; qc 2; qc 3] [qc 4; qc 5; qc 6]);
    try apply pqr_values; try apply pqr_fresh; done.
Defined.

Lemma setToCrossProd_spec_witness :
  exists w', setToCrossProd true 2 0 1 pqr = inr (tt, w') /\
    value w' 2 = Some (cross3 [qc 1; qc 2; qc 3] [qc 4; qc 5; qc 6]) /\
    value w' 0 = Some [qc 1; qc 2; qc 3] /\ value w' 1 = Some [qc 4; qc 5; qc 6].
Proof.
  apply (setToCrossProd_spec true 2 0 1 pqr r_pt); try apply pqr_objs; try apply pqr_values;
    try apply pqr_fresh; try apply pqr_owned; try done.
  - intros pu Hpu. vm_compute in Hpu. injection Hpu as <-. simpl. lia.
  - intros pv Hpv. vm_compute in Hpv. injection Hpv as <-. simpl. lia.
  - exists [Some 0%Qc; Some 0%Qc; Some 0%Qc]. split; [vm_compute; reflexivity|simpl; lia].
Defined.

(** [p.setToCrossProd(p, q)] with [p = (1, 2, 3)] and [q = (4, 5, 6)]:
    [p] becomes [(-3, 30, -135)], not the cross product [(-3, 6, -3)]. *)
Lemma setToCrossProd_self_witness :
  cross3 [qc 1; qc 2; qc 3] [qc 4; qc 5; qc 6] = [qc (-3); qc 6; qc (-3)] /\
  exists w', setToCrossProd true 0 0 1 pqr = inr (tt, w') /\
    value w' 0 = Some [qc (-3); qc 30; qc (-135)] /\ value w' 1 = Some [qc 4; qc 5; qc 6].
Proof.
  split; [by_decide|].
  destruct (setToCrossProd_self true 0 1 pqr p_pt [qc 1; qc 2; qc 3] [qc 4; qc 5; qc 6])
    as (w' & E & V0 & V1);
    [apply pqr_objs|done|apply pqr_values|apply pqr_values|done|done
    |intros pv Hpv; vm_compute in Hpv; injection Hpv as <-; simpl; lia|].
  exists w'. split; [exact E|split; [rewrite V0; by_decide|exact V1]].
Defined.

Lemma dot_spec_witness :
  dot true 0 1 pqr = inr (dotprod [qc 1; qc 2; qc 3] [qc 4; qc 5; qc 6], pqr).
Proof. apply dot_spec; [apply pqr_values|apply pqr_values|done]. Defined.

(** [p = p]. *)
Lemma assign_spec_witness :
  assign 0 0 pqr =
    inr (tt, Build_World (<[next_blk pqr := Some <$> [qc 1; qc 2; qc 3]]> (release_blocks p_pt (blocks pqr)))
               (S (next_blk pqr))
               (<[0 := {| pstart_ := Addr (next_blk pqr) 0; n_ := 3; owns_ := true |}]> (objs pqr))
               (S (next_obj pqr))) /\
    value (Build_World (<[next_blk pqr := Some <$> [qc 1; qc 2; qc 3]]> (release_blocks p_pt (blocks pqr)))
               (S (next_blk pqr))
               (<[0 := {| pstart_ := Addr (next_blk pqr) 0; n_ := 3; owns_ := true |}]> (objs pqr))
               (S (next_obj pqr))) 0 = Some [qc 1; qc 2; qc 3].
Proof.
  apply (assign_spec 0 0 pqr p_pt); try apply pqr_objs; try apply pqr_values; try apply pqr_fresh.
  apply pqr_owned.
Defined.

(** [pqr] is reached from the empty world by three constructors, so it is
    well formed. *)
Lemma pqr_wf : heap_wf pqr.
Proof.
  assert (Hp : preserves (K:=Qc) (_ ← Point_xyz (qc 1) (qc 2) (qc 3); _ ← Point_xyz (qc 4) (qc 5) (qc 6);
                                  Point_xyz 0%Qc 0%Qc 0%Qc)).
  { eapply hoare_bind; [apply preserves_Point_xyz|intros ?].
    eapply hoare_bind; [apply preserves_Point_xyz|intros ?]. apply preserves_Point_xyz. }
  assert (E : (_ ← Point_xyz (qc 1) (qc 2) (qc 3); _ ← Point_xyz (qc 4) (qc 5) (qc 6);
               Point_xyz 0%Qc 0%Qc 0%Qc) w0 = inr (2, pqr)) by (vm_compute; reflexivity).
  exact (Hp w0 2 pqr heap_wf_empty E).
Qed.

(** [p[2]] is inside [p]'s array. *)
(** [p[2] = 7] on [p = (1, 2, 3)] in the well-formed world of [p], [q], [r]. *)
Lemma heap_wf_index_live_witness :
  exists w', set 0 2%Z (qc 7) pqr = inr (tt, w') /\ heap_wf w' /\ get 0 2%Z w' = inr (qc 7, w').
Proof.
  apply (heap_wf_index_live pqr 0 p_pt 2%Z (qc 7));
    [apply pqr_wf|apply pqr_objs|done|simpl; lia].
Defined.

(** ** The argument of [acos] *)

(** [p.angle(q)] and [p.angle_smallest(q)] on [p = (1, 2, 3)] and
    [q = (4, 5, 6)], with the integer square root of [Qc_sqrt] ([3] for
    [|p|^2 = 14], [8] for [|q|^2 = 77]): the quotient [32/24] is above [1]
    and both clamps cut it to [1]. *)
Lemma angle_acos_domain_witness :
  angle (K:=Qc) false id 0 1 pqr = inr (1%Qc, pqr) /\
  angle_smallest (K:=Qc) false id 0 1 pqr = inr (1%Qc, pqr) /\
  (exists c, (1%Qc : Qc) = id c /\ within (- sone)%K sone c) /\
  (exists t, (1%Qc : Qc) = id t /\ within szero sone t).
Proof.
  assert (Hc : angle (K:=Qc) false id 0 1 pqr = inr (1%Qc, pqr)) by (vm_compute; reflexivity).
  assert (Hs : angle_smallest (K:=Qc) false id 0 1 pqr = inr (1%Qc, pqr))
    by (vm_compute; reflexivity).
  pose proof (angle_acos_domain (K:=Qc) eq_refl eq_refl eq_refl eq_refl eq_refl Qc_abs_ordered_nonneg
                false id 0 1 pqr pqr 1%Qc) as [H1 H2].
  split; [exact Hc|split; [exact Hs|split; [exact (H1 Hc)|exact (H2 Hs)]]].
Defined.

(** [p = (1, 2, 3)] and the zero vector [z] as doubles, at addresses 0, 1. *)
Definition pz_float : World float :=
  final ((_ ← Point_xyz 1%float 2%float 3%float; Point_xyz 0%float 0%float 0%float) w0).

(** The closed order facts [angle_acos_domain] assumes hold on doubles. *)
Lemma float_angle_order_facts :
  sltb (K:=float) (- sone)%K szero = true /\ sltb (K:=float) szero sone = true /\
  sltb (K:=float) (- sone)%K sone = true /\ seqb (K:=float) (- sone)%K (- sone)%K = true /\
  seqb (K:=float) sone sone = true.
Proof. vm_compute. split_and!; reflexivity. Qed.

(** With a zero vector the two angles disagree in a release build:
    [cosAngle] returns [0.0], so [angle] is [acos(0)], a right angle,
    while [angle_smallest] divides [0.0] by [0.0], [fabs(NaN) < 1.0] is
    false and [std::min] returns [1.0], so it is [acos(1)], no angle at
    all.  A debug build stops [angle_smallest] at its check. *)
Example angle_smallest_zero_vector :
  cosAngle false 0 1 pz_float = inr (0%float, pz_float) /\
  angle_smallest false id 0 1 pz_float = inr (1%float, pz_float) /\
  angle_smallest true id 0 1 pz_float = inl DimensionMismatch.
Proof. vm_compute. split_and!; reflexivity. Qed.

(** [p(first, last)] with the range [(7, 8)] in the world of [p], [q],
    [r]: the new point is at address 3 with value [(7, 8)] and [p] keeps
    [(1, 2, 3)]. *)
Lemma Point_of_values_roundtrip_witness :
  exists w', Point_of_values [qc 7; qc 8] pqr = inr (3, w') /\
    value w' 3 = Some [qc 7; qc 8] /\ value w' 0 = Some [qc 1; qc 2; qc 3].
Proof.
  destruct (Point_of_values_roundtrip [qc 7; qc 8] pqr) as (w' & E & Hv & Hothers).
  exists w'. split; [exact E|]. split; [exact Hv|].
  apply Hothers; [vm_compute; reflexivity|vm_compute; discriminate|vm_compute; reflexivity].
Defined.

(** [p[1] = 9] on [p = (1, 2, 3)]: [p[1]] reads [9] and [p] is [(1, 9, 3)]. *)
Lemma set_get_roundtrip_witness :
  exists w', set 0 1%Z (qc 9) pqr = inr (tt, w') /\ get 0 1%Z w' = inr (qc 9, w') /\
             value w' 0 = Some [qc 1; qc 9; qc 3].
Proof.
  destruct (set_get_roundtrip 0 1%Z (qc 9) pqr [qc 1; qc 2; qc 3]) as (w' & E & G & Hv);
    [vm_compute; reflexivity|simpl; lia|].
  exists w'. split; [exact E|]. split; [exact G|]. exact Hv.
Defined.

(** ** Builds with and without [DEBUG_ERROR_IF] *)

(** [p = (1, 2, 3)] at address 0 and [q = (1, 1)] at address 1. *)
Definition pq_mismatch : World Qc :=
  final ((_ ← Point_xyz (qc 1) (qc 2) (qc 3); Point_xy (qc 1) (qc 1)) w0).

(** [p += q] and [p.resetValue(3, 9)] throw in a debug build; in a release
    build [p += q] fails only by undefined behaviour, here reading [q[2]]
    past its array. *)
Lemma debug_checks_only_witness :
  add_assign true 0 1 pq_mismatch = inl DimensionMismatch /\
  resetValue true 0 3%Z (qc 9) pq_mismatch = inl DimensionMismatch /\
  only_ub (add_assign (K:=Qc) false 0 1) /\
  add_assign false 0 1 pq_mismatch = inl UndefinedBehaviour.
Proof.
  destruct (debug_checks_only (K:=Qc) id pq_mismatch 0 1 1 3%Z (qc 9)
              {| pstart_ := Addr 0 0; n_ := 3; owns_ := true |}
              {| pstart_ := Addr 1 0; n_ := 2; owns_ := true |}
              {| pstart_ := Addr 1 0; n_ := 2; owns_ := true |}) as (Hrel & Hd & _ & _ & Hr).
  split; [apply Hd; [vm_compute; reflexivity|vm_compute; reflexivity|simpl; lia]|].
  split; [apply Hr; [vm_compute; reflexivity|simpl; lia]|].
  split; [apply Hrel|vm_compute; reflexivity].
Defined.
