(* ===== verification/Scenario.v ===== *)
(** * Scenario: concrete runs of the engine

    The single triangle of the specification (vertices 0, 1, 2; 0 pinned to
    0 and 1 pinned to 1; 2 free; Tutte weights), a degenerate mesh, and a
    solver library that checks its candidate solution before reporting
    success (so it satisfies [TaucsSound]).  Everything here is evaluated
    by the kernel over exact rationals [Qc] or machine doubles. *)

From Stdlib Require Import ZArith String QArith Qcanon PrimFloat.
From stdpp Require Import base list gmap.
From S2P Require Import Prelude Scalars Mesh Weights Sparse Assembly SymmetricSystem Solver Calculator.

(** The triangle: each vertex's one-ring is the two others, in
    counter-clockwise order. *)
Definition triangle : Polyhedron := {|
  vertices := [0; 1; 2];
  vertex_ring v := match v with 0 => [1; 2] | 1 => [2; 0] | _ => [0; 1] end
|}.

Definition tri_vc : list (ConstrianedVertex Qc) :=
  [Build_ConstrianedVertex 0 0%Qc; Build_ConstrianedVertex 1 1%Qc].

(** The geometric formulas are not exercised by these runs (Tutte). *)
#[export] Instance unit_formulas : WeightFormulas Qc := {|
  mvc_weight _ _ _ := 1%Qc; dcp_weight _ _ _ := 1%Qc;
  spring1_weight _ _ _ := 1%Qc; spring2_weight _ _ _ := 1%Qc
|}.

(** The Tutte calculator: [Calculator(2)] (no [case 2]: default). *)
Definition tutte : Calculator := Calculator_new 2.

(** The classified state of the triangle, from an empty vertex store. *)
Definition tri_st : MeshState Qc := (classify triangle tri_vc ∅).1.

Definition tri_sys : Matrix Qc * list Qc :=
  setupSystem (weight_of (m_weightOption tutte)) triangle tri_st
    (mat_new 3) (vec_new 3) tri_vc [].

(** ** A checking solver library *)

Definition solvesb {M} `{SparseMatrix M Qc} (A : M) (n : nat) (X B : list Qc) : bool :=
  (length X =? n) && forallb (fun i => bool_decide (mat_row_mul A n i X = B !!! i)) (seq 0 n).

Lemma solvesb_sound {M} `{SparseMatrix M Qc} (A : M) n X B :
  solvesb A n X B = true -> solves A n X B.
Proof.
  unfold solvesb. intros [Hl Hf]%andb_prop. split; [by apply Nat.eqb_eq|].
  intros i Hi. rewrite forallb_forall in Hf.
  apply (bool_decide_eq_true_1 (mat_row_mul A n i X = B !!! i)), Hf.
  apply in_seq. lia.
Qed.

(** Reports success exactly when the candidate [X] solves the system. *)
Definition checking_lib (X : list Qc) : TaucsLib Qc := {|
  lu_numeric_ok _ := true;
  multilu_solve A B := if solvesb A (length B) X B then (TAUCS_SUCCESS, X) else (TAUCS_ERROR, X);
  linsolve A B := if solvesb A (length B) X B then (TAUCS_SUCCESS, X) else (TAUCS_ERROR, X);
  linear_solver A B := (solvesb A (length B) X B, X, 1%Qc);
  llt_numeric _ := 0%Z;
  supernodal_solve_llt SA B :=
    if solvesb SA (length B) X B then (TAUCS_SUCCESS, X) else (TAUCS_ERROR, X)
|}.

Lemma checking_lib_sound X : TaucsSound (checking_lib X).
Proof.
  split; intros A B X' E; simpl in E; unfold TAUCS_ERROR, TAUCS_SUCCESS in E;
    destruct (solvesb _ _ _ _) eqn:Es;
    first [injection E as <-; by apply solvesb_sound | discriminate E].
Qed.

Lemma tri_vc_in vc : vc ∈ tri_vc -> m_vh vc ∈ vertices triangle.
Proof. intros Hvc. repeat (apply elem_of_cons in Hvc as [->|Hvc]); set_solver. Qed.

Lemma tri_classified : classified triangle tri_vc tri_st.
Proof.
  pose proof (classify_correct triangle tri_vc ∅ ltac:(by_decide)) as Hc.
  unfold tri_st. destruct (classify triangle tri_vc ∅) as [st n].
  apply Hc, tri_vc_in.
Qed.

Lemma tri_regular : free_vertices_regular triangle tri_vc.
Proof.
  intros v Hv Hn. repeat (apply elem_of_cons in Hv as [->|Hv]); try discriminate;
    [split; [by_decide|simpl; lia]|set_solver].
Qed.

(** The specification's triangle scenario, assembly: the free vertex's
    row of the general-form system is [w_ii = 2] and [w_ij = -1] for its
    two neighbours, with right-hand side [0]; the pinned rows are identity
    rows with right-hand sides 0 and 1. *)
Example triangle_rows :
  get_coef tri_sys.1 2 2 = qc 2 /\ get_coef tri_sys.1 2 0 = qc (-1) /\
  get_coef tri_sys.1 2 1 = qc (-1) /\ tri_sys.2 !!! 2 = 0%Qc /\
  get_coef tri_sys.1 0 0 = 1%Qc /\ get_coef tri_sys.1 0 2 = 0%Qc /\
  tri_sys.2 !!! 0 = 0%Qc /\ tri_sys.2 !!! 1 = 1%Qc.
Proof. repeat split; qc_eq. Qed.

(** [2 * s = 1] determines [s = 1/2] in the rationals. *)
Lemma Qc_half (x : Qc) : (x + x = 1)%Qc -> x = qc (1 # 2).
Proof.
  intros Hx. assert (Hh : ((1 + 1) * qc (1 # 2) = 1)%Qc) by qc_eq.
  transitivity (x * ((1 + 1) * qc (1 # 2)))%Qc; [rewrite Hh; ring|].
  transitivity ((x + x) * qc (1 # 2))%Qc; [ring|]. rewrite Hx. ring.
Qed.

(** The specification's triangle scenario, solution: for every solver
    library honouring its contract, a successful ["Taucs::lu_symbolic"]
    run with Tutte weights leaves 0 and 1 on the pinned vertices and the
    average 1/2 on the free vertex. *)
Theorem triangle_solution lib s :
  TaucsSound lib ->
  (compute tutte lib triangle tri_vc [] "Taucs::lu_symbolic" ∅ s).1.1 = 0%Z ->
  let st' := (compute tutte lib triangle tri_vc [] "Taucs::lu_symbolic" ∅ s).1.2 in
  v_s (vinfo st' 0) = 0%Qc /\ v_s (vinfo st' 1) = 1%Qc /\ v_s (vinfo st' 2) = qc (1 # 2).
Proof.
  intros Hsound Hst. cbv zeta.
  generalize (compute_lu_symbolic_harmonic Qc_ring tutte lib triangle tri_vc [] ∅ s
                ltac:(by_decide) tri_vc_in tri_regular Hsound Hst).
  generalize (compute tutte lib triangle tri_vc [] "Taucs::lu_symbolic" ∅ s).1.2 as st'.
  intros st' Hh.
  destruct (Hh 0 ltac:(by_decide)) as [_ H0]. destruct (Hh 1 ltac:(by_decide)) as [_ H1].
  destruct (Hh 2 ltac:(by_decide)) as [_ H2]. simpl in H0, H1, H2.
  split; [done|]. split; [done|].
  apply Qc_half. rewrite H0, H1 in H2. unfold ssum in H2. simpl in H2.
  set (x := v_s (vinfo st' 2)) in *. change (Q2Qc 0) with 0%Qc in H2.
  transitivity ((1 * (x - 0) + (1 * (x - 1) + 0)) + 1)%Qc; [ring|]. rewrite H2. ring.
Qed.

(** The library that checks the candidate [0, 1, 1/2] succeeds on the
    triangle: the hypotheses of C5 are satisfiable. *)
Lemma triangle_solution_witness :
  TaucsSound (checking_lib [0%Qc; 1%Qc; qc (1 # 2)]) /\
  (compute tutte (checking_lib [0%Qc; 1%Qc; qc (1 # 2)]) triangle tri_vc []
     "Taucs::lu_symbolic" ∅ ctx_init).1.1 = 0%Z /\
  v_s (vinfo (compute tutte (checking_lib [0%Qc; 1%Qc; qc (1 # 2)]) triangle tri_vc []
                "Taucs::lu_symbolic" ∅ ctx_init).1.2 2) = qc (1 # 2).
Proof.
  split; [apply checking_lib_sound|]. split; [vm_compute; reflexivity|].
  apply (triangle_solution _ ctx_init (checking_lib_sound _)). vm_compute; reflexivity.
Defined.

(** ** A free vertex with a single neighbour

    Vertex 0 hangs on vertex 1 only; 1 is pinned to 0 and 2 to 1. *)
Definition lollipop : Polyhedron := {|
  vertices := [0; 1; 2];
  vertex_ring v := match v with 0 => [1] | 1 => [0; 2] | _ => [1] end
|}.

Definition lol_vc : list (ConstrianedVertex Qc) :=
  [Build_ConstrianedVertex 1 0%Qc; Build_ConstrianedVertex 2 1%Qc].

Definition lol_st : MeshState Qc := (classify lollipop lol_vc ∅).1.

(** A degenerate free vertex is not reported: its row setup returns
    [-1], yet [compute] returns status 0 and writes back whatever value
    the solver picked for it (the row [-x_1 = 0] leaves [x_0] free; the
    solver here picks 5). *)
Example compute_degenerate_not_reported :
  (setup_inner_vertex_relations (weight_of (m_weightOption tutte)) lollipop lol_st []
     (mat_new 3 : Matrix Qc) (vec_new 3) 0).2 = (-1)%Z /\
  (compute tutte (checking_lib [qc 5; 0%Qc; 1%Qc]) lollipop lol_vc [] "Taucs::lu_symbolic"
     ∅ ctx_init).1.1 = 0%Z /\
  v_s (vinfo (compute tutte (checking_lib [qc 5; 0%Qc; 1%Qc]) lollipop lol_vc []
                "Taucs::lu_symbolic" ∅ ctx_init).1.2 0) = qc 5.
Proof. split; [vm_compute; reflexivity|]. split; [vm_compute; reflexivity|]. qc_eq. Qed.

(** ** Machine doubles

    A fan: vertex 0 with neighbours 1, 2, 3 weighted 0.1, 0.2, 0.3 by the
    mean-value option. *)
Definition fan : Polyhedron := {|
  vertices := [0; 1; 2; 3];
  vertex_ring v := match v with 0 => [1; 2; 3] | 1 => [0; 2] | 2 => [0; 3] | _ => [0; 1] end
|}.

#[export] Instance fan_formulas : WeightFormulas float := {|
  mvc_weight _ _ j := match j with 1 => 0.1 | 2 => 0.2 | _ => 0.3 end%float;
  dcp_weight _ _ _ := 1%float; spring1_weight _ _ _ := 1%float; spring2_weight _ _ _ := 1%float
|}.

Definition fan_vc : list (ConstrianedVertex float) :=
  [Build_ConstrianedVertex 1 0%float; Build_ConstrianedVertex 2 0%float;
   Build_ConstrianedVertex 3 1%float].

Definition fan_sys : Matrix float * list float :=
  setupSystem (weight_of MvcOption) fan (classify fan fan_vc ∅).1
    (mat_new 4) (vec_new 4) fan_vc [].

(** With [double] arithmetic the row-sum-zero property fails: the
    diagonal accumulated by [w_ii -= w_ij] is [0.6000000000000001] and the
    row of the free vertex sums to about [1.1e-16], not [0]. *)
Example float_row_sum_nonzero :
  PrimFloat.eqb (ssum (map (get_coef fan_sys.1 0) (seq 0 4))) 0%float = false.
Proof. vm_compute. reflexivity. Qed.

(** ** Instances of the general theorems

    Each lemma below applies one theorem of the development to the
    concrete meshes above, discharging its hypotheses by evaluation. *)

Lemma compute_refines_harmonic_witness :
  harmonic (weight_of (m_weightOption tutte)) triangle tri_vc []
    (compute tutte (checking_lib [0%Qc; 1%Qc; qc (1 # 2)]) triangle tri_vc []
       "Taucs::lu_symbolic" ∅ ctx_init).1.2.
Proof.
  apply (compute_refines_harmonic Qc_ring); [by_decide|exact tri_vc_in|exact tri_regular|
    apply checking_lib_sound|vm_compute; reflexivity].
Defined.

Lemma setupSystem_row_sum_zero_witness :
  let n := length (vertices triangle) in
  let sys := setupSystem (weight_of (m_weightOption tutte)) triangle tri_st
               (mat_new n : Matrix Qc) (vec_new n) tri_vc [] in
  ssum (map (get_coef sys.1 (v_index (vinfo tri_st 2))) (seq 0 n)) = szero.
Proof.
  apply (setupSystem_row_sum_zero Qc_ring); [by_decide|exact tri_classified|by_decide|
    vm_compute; reflexivity|by_decide|simpl; lia].
Defined.

Lemma setupSystem_free_row_witness :
  let n := length (vertices triangle) in
  let i := v_index (vinfo tri_st 2) in
  let sys := setupSystem (weight_of (m_weightOption tutte)) triangle tri_st
               (mat_new n : Matrix Qc) (vec_new n) tri_vc [] in
  get_coef sys.1 i i = ssum (map (weight_of (m_weightOption tutte) triangle 2) (vertex_ring triangle 2)) /\
  (forall u, u ∈ vertex_ring triangle 2 ->
     get_coef sys.1 i (v_index (vinfo tri_st u)) = sopp (weight_of (m_weightOption tutte) triangle 2 u)) /\
  (forall c, c <> i -> (forall u, u ∈ vertex_ring triangle 2 -> c <> v_index (vinfo tri_st u)) ->
     get_coef sys.1 i c = szero) /\
  sys.2 !!! i = if decide (([] : list Qc) = []) then szero else sabs ([] !!! i).
Proof.
  apply (setupSystem_free_row Qc_ring); [by_decide|exact tri_classified|by_decide|
    vm_compute; reflexivity|by_decide|simpl; lia].
Defined.

Lemma setupSystem_pinned_row_witness :
  let n := length (vertices triangle) in
  let i := v_index (vinfo tri_st 0) in
  let sys := setupSystem (weight_of (m_weightOption tutte)) triangle tri_st
               (mat_new n : Matrix Qc) (vec_new n) tri_vc [] in
  get_coef sys.1 i i = sone /\ (forall c, c <> i -> get_coef sys.1 i c = szero) /\
  Some (sys.2 !!! i) = last_constraint tri_vc 0.
Proof.
  apply (setupSystem_pinned_row Qc_ring); [by_decide|exact tri_classified|by_decide|
    vm_compute; reflexivity].
Defined.

Lemma setup_inner_degenerate_witness :
  let i := v_index (vinfo lol_st 0) in
  let r := setup_inner_vertex_relations (weight_of (m_weightOption tutte)) lollipop lol_st []
             (mat_new 3 : Matrix Qc) (vec_new 3) 0 in
  r.2 = (-1)%Z /\ r.1.2 = vec_new 3 /\ get_coef r.1.1 i i = get_coef (mat_new 3 : Matrix Qc) i i /\
  (forall u, u ∈ vertex_ring lollipop 0 ->
     get_coef r.1.1 i (v_index (vinfo lol_st u)) = smul (sopp sone) (weight_of (m_weightOption tutte) lollipop 0 u)).
Proof.
  apply setup_inner_degenerate; [simpl; lia|].
  intros u Hu. apply list_elem_of_singleton in Hu as ->. vm_compute. discriminate.
Defined.

Lemma compute_unsupported_witness :
  compute tutte (checking_lib [0%Qc; 1%Qc; qc (1 # 2)]) triangle tri_vc [] "general-direct" ∅ ctx_init =
    (((-1)%Z, (classify triangle tri_vc ∅).1), ctx_init).
Proof. apply compute_unsupported. vm_compute. reflexivity. Defined.

(** The Cholesky strategy on the triangle: the checking library rejects
    [0, 1, 1/2] for the symmetric system (its pinned rows are Laplacian
    rows too), so the run fails. *)
Lemma compute_failure_leaves_classification_witness :
  let x := vinfo (compute tutte (checking_lib [0%Qc; 1%Qc; qc (1 # 2)]) triangle tri_vc []
                    "Taucs::ll_symbolic" ∅ ctx_init).1.2 2 in
  v_s x = default (sopp sone) (last_constraint tri_vc 2) /\
  v_param x = bool_decide (is_Some (last_constraint tri_vc 2)).
Proof.
  apply compute_failure_leaves_classification; [by_decide|exact tri_vc_in|
    vm_compute; reflexivity|by_decide].
Defined.

(** The constant vector solves the symmetric system of the triangle, so
    the Cholesky run succeeds, and the mesh still gets zeros. *)
Lemma compute_ll_symbolic_writes_zero_witness :
  v_s (vinfo (compute tutte (checking_lib [1%Qc; 1%Qc; 1%Qc]) triangle tri_vc []
                "Taucs::ll_symbolic" ∅ ctx_init).1.2 2) = szero /\
  v_param (vinfo (compute tutte (checking_lib [1%Qc; 1%Qc; 1%Qc]) triangle tri_vc []
                    "Taucs::ll_symbolic" ∅ ctx_init).1.2 2) = true.
Proof. apply compute_ll_symbolic_writes_zero; [vm_compute; discriminate|by_decide]. Defined.

(** A context in which the two-phase routine was already called. *)
Definition ctx_after_lu : SolverCtx := {| calls := [CallLuSymbolic]; next_handle := 0; live := [] |}.

Lemma compute_never_two_phase_witness :
  CallLuSymbolic ∈ calls
    (compute tutte (checking_lib [0%Qc; 1%Qc; qc (1 # 2)]) triangle tri_vc []
       "Taucs::lu_symbolic" ∅ ctx_after_lu).2 /\
  CallLuSymbolic ∈ calls ctx_after_lu.
Proof.
  assert (H : CallLuSymbolic ∈ calls
    (compute tutte (checking_lib [0%Qc; 1%Qc; qc (1 # 2)]) triangle tri_vc []
       "Taucs::lu_symbolic" ∅ ctx_after_lu).2) by by_decide.
  split; [exact H|exact (compute_never_two_phase _ _ _ _ _ _ _ _ H)].
Defined.

(** A library whose numeric LU factorization fails. *)
Definition failing_lib : TaucsLib Qc := {|
  lu_numeric_ok _ := false;
  multilu_solve _ B := (TAUCS_ERROR, B);
  linsolve _ B := (TAUCS_ERROR, B);
  linear_solver _ B := (false, B, 1%Qc);
  llt_numeric _ := TAUCS_ERROR;
  supernodal_solve_llt _ B := (TAUCS_ERROR, B)
|}.

Lemma lu_symbolic_factor_solve_numeric_failure_witness :
  lu_symbolic_factor_solve failing_lib tri_sys.1 tri_sys.1 tri_sys.2 (vec_new 3) ctx_init =
    (((-1)%Z, vec_new 3),
     {| calls := [CallCcsOrder; CallLuSymbolic; CallLuNumeric];
        next_handle := 3;
        live := [(0, RPermutation); (1, RPermutation); (2, RLuSymbolic)] |}).
Proof. apply lu_symbolic_factor_solve_numeric_failure. reflexivity. Defined.

Lemma ctx_init_wf : ctx_wf ctx_init.
Proof. intros x Hx. by apply elem_of_nil in Hx. Qed.

Lemma ll_symbolic_factor_solve_keeps_symbolic_witness :
  live (ll_symbolic_factor_solve (checking_lib [1%Qc; 1%Qc; 1%Qc])
          (mat_new 3 : SymmetricMatrix Qc) (mat_new 3) (vec_new 3) (vec_new 3) ctx_init).2 =
    [(0, RLltSymbolic)].
Proof. apply ll_symbolic_factor_solve_keeps_symbolic, ctx_init_wf. Defined.

Lemma classify_spec_witness :
  let '(st', n) := classify triangle tri_vc ∅ in
  n = length (vertices triangle) /\ classified triangle tri_vc st' /\
  (forall v, v ∈ vertices triangle ->
     v_param (vinfo st' v) = bool_decide (is_Some (last_constraint tri_vc v)) /\
     v_s (vinfo st' v) = default (sopp sone) (last_constraint tri_vc v)).
Proof. apply classify_spec; [by_decide|exact tri_vc_in]. Defined.

Lemma index_mesh_vertices_spec_witness :
  let '(st', c) := index_mesh_vertices triangle (∅ : MeshState Qc) in
  c = length (vertices triangle) /\
  (forall k v, vertices triangle !! k = Some v ->
               vinfo st' v = Build_VertexInfo k (sopp sone) false) /\
  (forall v, v ∉ vertices triangle -> vinfo st' v = vinfo (∅ : MeshState Qc) v).
Proof. apply index_mesh_vertices_spec. by_decide. Defined.

(** ** The symmetric-form system of the triangle *)

(** What [compute] assembles for the ["Taucs::ll_symbolic"] strategy. *)
Definition tri_sym : SymmetricMatrix Qc * list Qc :=
  symmetric_system (weight_of (m_weightOption tutte)) triangle tri_st tri_vc [].

Lemma tri_ring_symmetric : ring_symmetric triangle.
Proof.
  intros u v Hu Hv. repeat (apply elem_of_cons in Hu as [->|Hu]); [..|set_solver];
    simpl in *; repeat (apply elem_of_cons in Hv as [->|Hv]); set_solver.
Qed.

Lemma tri_tutte_symmetric : weight_symmetric (K:=Qc) (weight_of (m_weightOption tutte)) triangle.
Proof. apply tutte_symmetric. Qed.

Lemma tri_rings v : v ∈ vertices triangle -> simple_ring triangle v /\ 2 <= length (vertex_ring triangle v).
Proof. intros Hv. repeat (apply elem_of_cons in Hv as [->|Hv]); [..|set_solver]; split; by_decide || (simpl; lia). Qed.

(** Vertex [0] is pinned, yet its row is a weight row. *)
Lemma setupSymmetricSystem_row_witness :
  v_param (vinfo tri_st 0) = true /\
  get_coef tri_sym.1 (v_index (vinfo tri_st 0)) (v_index (vinfo tri_st 0)) =
    ssum (map (weight_of (m_weightOption tutte) triangle 0) (vertex_ring triangle 0)) /\
  (forall u, u ∈ vertex_ring triangle 0 ->
     get_coef tri_sym.1 (v_index (vinfo tri_st 0)) (v_index (vinfo tri_st u)) =
       sopp (weight_of (m_weightOption tutte) triangle 0 u)) /\
  (forall c, c <> v_index (vinfo tri_st 0) ->
     (forall u, u ∈ vertex_ring triangle 0 -> c <> v_index (vinfo tri_st u)) ->
     get_coef tri_sym.1 (v_index (vinfo tri_st 0)) c = szero) /\
  tri_sym.2 !!! v_index (vinfo tri_st 0) =
    if decide (([] : list Qc) = []) then szero else sabs ([] !!! v_index (vinfo tri_st 0)).
Proof.
  split; [vm_compute; reflexivity|].
  apply (setupSymmetricSystem_row Qc_ring _ triangle tri_st tri_vc []);
    [by_decide|apply tri_classified|exact tri_ring_symmetric|exact tri_tutte_symmetric|by_decide|..];
    apply tri_rings; by_decide.
Defined.

Lemma setupSymmetricSystem_singular_witness :
  mat_row_mul tri_sym.1 3 0 (replicate 3 sone) = szero /\
  mat_row_mul tri_sym.1 3 1 (replicate 3 sone) = szero /\
  mat_row_mul tri_sym.1 3 2 (replicate 3 sone) = szero.
Proof.
  split_and!; apply (setupSymmetricSystem_singular Qc_ring _ triangle tri_st tri_vc []);
    first [by_decide|apply tri_classified|exact tri_ring_symmetric|exact tri_tutte_symmetric
          |exact tri_rings|simpl; lia].
Defined.

(** The triangle's symmetric system is [3 x 3]. *)
Lemma symmetric_system_dims_witness :
  length tri_sym.2 = 3 /\ get_coef tri_sym.1 0 5 = szero /\ get_coef tri_sym.1 4 1 = szero.
Proof.
  destruct (symmetric_system_dims (weight_of (m_weightOption tutte)) triangle tri_st tri_vc [])
    as [Hl Hz]; [by_decide|apply tri_classified|].
  split; [exact Hl|split; apply Hz; simpl; lia].
Defined.
